(** * imgapp: listing refresh, navigation, sorting, image cache, panning

    A shallow embedding of the class [App] of the imgapp viewer
    ([static/js]) and the properties of its listing refresh, navigation
    cursor, sort order, image cache, pan positioning and video volume.

    Conventions of the embedding.
    - JavaScript strings are [string]s; names and paths are taken in the
      ASCII range, where [toLowerCase] only moves [A-Z].
    - Integral numbers ([_fileIndex], [mtime], [Date.now()]) are [Z];
      percentages, dimensions and the volume are rationals [Q].  The
      quotients of [_direction] keep what a division by zero gives, an
      infinity or [NaN]; elsewhere these are outside the embedding.
    - A method of [App] is a function from the object before the call to
      an [outcome]: the object after the call, or the object at the point
      where an exception was thrown.
    - An asynchronous method is taken from the point where its request
      has ended; how the request ended is an argument.
    - The DOM is kept as what the properties observe of it: the media
      element appended to the image holder and a log of the calls that
      leave the object ([console.error], [save], rendering the lists,
      [setObjectPosition]). *)

From Stdlib Require Import ZArith QArith Qminmax Lqa Lia Bool List String Ascii.
From Stdlib Require Import Permutation Sorted OrderedTypeEx DecimalString.
Import ListNotations.

Local Open Scope string_scope.
Local Open Scope Z_scope.

(** ** JavaScript primitives used by the application *)

Module JS.

(** [String.prototype.toLowerCase], on ASCII. *)
Definition lower_ascii (c : ascii) : ascii :=
  let n := N_of_ascii c in
  if ((65 <=? n) && (n <=? 90))%N then ascii_of_N (n + 32) else c.

Fixpoint toLowerCase (s : string) : string :=
  match s with
  | EmptyString => EmptyString
  | String c s' => String (lower_ascii c) (toLowerCase s')
  end.

(** The character class of the regular expression
    [/[\[\]\(\)\{}<>]+/g]. *)
Definition is_bracket (c : ascii) : bool :=
  match c with
  | "["%char | "]"%char | "("%char | ")"%char
  | "{"%char | "}"%char | "<"%char | ">"%char => true
  | _ => false
  end.

(** [s.replace(/[\[\]\(\)\{}<>]+/g, '')]: every maximal run of bracket
    characters is replaced by the empty string, so exactly the bracket
    characters disappear. *)
Fixpoint strip_brackets (s : string) : string :=
  match s with
  | EmptyString => EmptyString
  | String c s' =>
      if is_bracket c then strip_brackets s' else String c (strip_brackets s')
  end.

(** [s.endsWith(suffix)]. *)
Definition endsWith (s suffix : string) : bool :=
  let n := String.length s in
  let m := String.length suffix in
  (m <=? n)%nat && String.eqb (substring (n - m) m s) suffix.

(** [Array.prototype.findIndex]: the index of the first element that
    satisfies the predicate, [-1] when there is none. *)
Fixpoint findIndex {A : Type} (p : A -> bool) (l : list A) : Z :=
  match l with
  | [] => -1
  | x :: l' =>
      if p x then 0
      else let i := findIndex p l' in if i <? 0 then -1 else i + 1
  end.

(** [a[i]] for an integral number [i]: [undefined] out of range. *)
Definition index {A : Type} (l : list A) (i : Z) : option A :=
  if i <? 0 then None else nth_error l (Z.to_nat i).

(** [Array.prototype.sort(comparefn)].  ECMAScript asks for a stable sort
    when [comparefn] is a consistent comparator and leaves the order to
    the implementation otherwise.  The model is the stable insertion sort:
    an element is moved behind those of the sorted rest that the comparator
    places strictly before it ([comparefn(y, x) < 0], the later element
    passed first, as V8 calls it). *)
Section ArraySort.
Context {A : Type}.
Variable comparefn : A -> A -> Z.

Fixpoint insert (x : A) (l : list A) : list A :=
  match l with
  | [] => [x]
  | y :: l' => if comparefn y x <? 0 then y :: insert x l' else x :: l
  end.

Fixpoint sort (l : list A) : list A :=
  match l with
  | [] => []
  | x :: l' => insert x (sort l')
  end.
End ArraySort.

End JS.

(** ** Data model *)

(** [AppFolder] and [AppFile] of the source. *)
Record AppFolder := mkFolder {
  folder_name : string;
  folder_path : string;
  folder_symlink : bool
}.

Record AppFile := mkFile {
  file_name : string;
  file_path : string;
  file_symlink : bool;
  file_mtime : Z
}.

(** The two values [state.sortBy] takes ([changeSort] is only called with
    ['name'] and ['mtime']) and the two of [state.sortOrder]. *)
Inductive SortBy := name | mtime.
Inductive SortOrder := asc | desc.

Definition SortBy_eqb (a b : SortBy) : bool :=
  match a, b with name, name | mtime, mtime => true | _, _ => false end.

Definition SortOrder_eqb (a b : SortOrder) : bool :=
  match a, b with asc, asc | desc, desc => true | _, _ => false end.

(** [AppState]. *)
Record AppState := mkState {
  folderHash : option string;
  currentPath : option string;
  currentFile : option string;
  folders : list AppFolder;
  files : list AppFile;
  showHidden : bool;
  sortBy : SortBy;
  sortOrder : SortOrder;
  volume : Q
}.

Definition defaultState : AppState :=
  {| folderHash := None; currentPath := None; currentFile := None;
     folders := []; files := []; showHidden := false;
     sortBy := name; sortOrder := asc; volume := 1%Q |}.

(** ** Sorter: the two comparators of [_resort] *)

Module Sorter.

(** [v.toLowerCase().replace(/[\[\]\(\)\{}<>]+/g, '')]. *)
Definition normalize (s : string) : string :=
  JS.strip_brackets (JS.toLowerCase s).

(** The comparator passed to [this.state.folders.sort]. *)
Definition folders_comparefn (a b : AppFolder) : Z :=
  let aVal := normalize (folder_name a) in
  let bVal := normalize (folder_name b) in
  if String.eqb aVal ".." then -1
  else if String.eqb bVal ".." then 1
  else if String.eqb aVal bVal then 0
  else if String.ltb aVal bVal then -1
  else 1.

(** [a[sortBy]] is a string for ['name'] and a number for ['mtime']. *)
Inductive value := Str (s : string) | Num (n : Z).

Definition prop (f : AppFile) (k : SortBy) : value :=
  match k with
  | name => Str (file_name f)
  | mtime => Num (file_mtime f)
  end.

(** [===] and [<] on two values of the same type. *)
Definition strict_eq (v w : value) : bool :=
  match v, w with
  | Str s, Str t => String.eqb s t
  | Num n, Num m => Z.eqb n m
  | _, _ => false
  end.

Definition less_than (v w : value) : bool :=
  match v, w with
  | Str s, Str t => String.ltb s t
  | Num n, Num m => Z.ltb n m
  | _, _ => false
  end.

Definition normalize_value (v : value) : value :=
  match v with
  | Str s => Str (normalize s)
  | Num n => Num n
  end.

(** The comparator passed to [this.state.files.sort]. *)
Definition files_comparefn (sortBy : SortBy) (sortOrder : SortOrder)
    (a b : AppFile) : Z :=
  let aVal := prop a sortBy in
  let bVal := prop b sortBy in
  let aVal := if SortBy_eqb sortBy name then normalize_value aVal else aVal in
  let bVal := if SortBy_eqb sortBy name then normalize_value bVal else bVal in
  if strict_eq aVal bVal then 0
  else if less_than aVal bVal then
    (if SortOrder_eqb sortOrder asc then -1 else 1)
  else
    (if SortOrder_eqb sortOrder asc then 1 else -1).

Definition sortFolders (l : list AppFolder) : list AppFolder :=
  JS.sort folders_comparefn l.

Definition sortFiles (sortBy : SortBy) (sortOrder : SortOrder)
    (l : list AppFile) : list AppFile :=
  JS.sort (files_comparefn sortBy sortOrder) l.

End Sorter.

(** ** The application object *)

(** The URL built by [_getVideo] and [_getImage]: [/get-file] on the page's
    origin with the search parameters [path] and, for a forced reload, [t].
    [url.toString()] is injective on the two parameters, so an element's
    [src] is kept as the URL itself; the token [String(Date.now())] is kept
    as the number it prints. *)
Record URL := mkURL {
  search_path : string;
  search_t : option Z
}.

Record HTMLImageElement := mkImage {
  img_src : option URL;
  img_classList : list string
}.

Record HTMLVideoElement := mkVideo {
  video_src : URL;
  video_controls : bool;
  video_autoplay : bool;
  video_loop : bool;
  video_classList : list string;
  video_volume : Q
}.

(** An [Image] object is known by its address in the store [heap] of the
    application: two handles are the same object exactly when they are
    equal. *)
Definition handle := nat.

(** A value of [_fileCache]: [{img, ts}].  [ts] is [Date.now() / 1000.0];
    the division is strictly increasing on the clock values of this era,
    so the millisecond count is kept and compared. *)
Record CacheEntry := mkEntry {
  img : handle;
  ts : Z
}.

(** What the image holder contains after [$imageHolder.append($media)]. *)
Inductive Media :=
| MediaImage (h : handle)
| MediaVideo (v : HTMLVideoElement).

(** Calls that leave the object. *)
Inductive Effect :=
| ConsoleError
| Save (s : AppState)
| RenderList (rebuild : bool)
| SetObjectPosition (x y : Q).

Inductive Error := TypeError | IndexSizeError.

Definition MAX_CACHED_IMAGES : Z := 50.

(** The fields of [App] and the part of the page it acts on.  [_fileCache]
    lists the own properties of the cache object in the order they were
    created; [heap] holds the [Image] objects made so far, [allocated]
    of them; [clock] is the value of successive [Date.now()] calls and
    [ticks] counts the calls made. *)
Record App := mkApp {
  state : AppState;
  _fileIndex : Z;
  _listRebuildRequired : bool;
  _previousFolder : option string;
  _fileCache : list (string * CacheEntry);
  heap : handle -> HTMLImageElement;
  allocated : nat;
  imageHolder : option Media;
  clock : nat -> Z;
  ticks : nat;
  effects : list Effect
}.

Definition set_state (s : AppState) (a : App) : App :=
  mkApp s (_fileIndex a) (_listRebuildRequired a) (_previousFolder a)
    (_fileCache a) (heap a) (allocated a) (imageHolder a) (clock a) (ticks a) (effects a).

Definition set_fileIndex (i : Z) (a : App) : App :=
  mkApp (state a) i (_listRebuildRequired a) (_previousFolder a)
    (_fileCache a) (heap a) (allocated a) (imageHolder a) (clock a) (ticks a) (effects a).

Definition set_listRebuildRequired (b : bool) (a : App) : App :=
  mkApp (state a) (_fileIndex a) b (_previousFolder a)
    (_fileCache a) (heap a) (allocated a) (imageHolder a) (clock a) (ticks a) (effects a).

Definition set_fileCache (c : list (string * CacheEntry)) (a : App) : App :=
  mkApp (state a) (_fileIndex a) (_listRebuildRequired a) (_previousFolder a)
    c (heap a) (allocated a) (imageHolder a) (clock a) (ticks a) (effects a).

Definition set_heap (h : handle -> HTMLImageElement) (n : nat) (a : App)
    : App :=
  mkApp (state a) (_fileIndex a) (_listRebuildRequired a) (_previousFolder a)
    (_fileCache a) h n (imageHolder a) (clock a) (ticks a) (effects a).

Definition set_imageHolder (m : option Media) (a : App) : App :=
  mkApp (state a) (_fileIndex a) (_listRebuildRequired a) (_previousFolder a)
    (_fileCache a) (heap a) (allocated a) m (clock a) (ticks a) (effects a).

Definition set_ticks (n : nat) (a : App) : App :=
  mkApp (state a) (_fileIndex a) (_listRebuildRequired a) (_previousFolder a)
    (_fileCache a) (heap a) (allocated a) (imageHolder a) (clock a) n (effects a).

Definition add_effect (e : Effect) (a : App) : App :=
  mkApp (state a) (_fileIndex a) (_listRebuildRequired a) (_previousFolder a)
    (_fileCache a) (heap a) (allocated a) (imageHolder a) (clock a) (ticks a)
    (effects a ++ [e]).

Definition set_folderHash (h : option string) (s : AppState) : AppState :=
  mkState h (currentPath s) (currentFile s) (folders s) (files s)
    (showHidden s) (sortBy s) (sortOrder s) (volume s).

Definition set_currentPath (p : option string) (s : AppState) : AppState :=
  mkState (folderHash s) p (currentFile s) (folders s) (files s)
    (showHidden s) (sortBy s) (sortOrder s) (volume s).

Definition set_currentFile (f : option string) (s : AppState) : AppState :=
  mkState (folderHash s) (currentPath s) f (folders s) (files s)
    (showHidden s) (sortBy s) (sortOrder s) (volume s).

Definition set_folders (l : list AppFolder) (s : AppState) : AppState :=
  mkState (folderHash s) (currentPath s) (currentFile s) l (files s)
    (showHidden s) (sortBy s) (sortOrder s) (volume s).

Definition set_files (l : list AppFile) (s : AppState) : AppState :=
  mkState (folderHash s) (currentPath s) (currentFile s) (folders s) l
    (showHidden s) (sortBy s) (sortOrder s) (volume s).

Definition set_sortBy (k : SortBy) (s : AppState) : AppState :=
  mkState (folderHash s) (currentPath s) (currentFile s) (folders s) (files s)
    (showHidden s) k (sortOrder s) (volume s).

Definition set_sortOrder (o : SortOrder) (s : AppState) : AppState :=
  mkState (folderHash s) (currentPath s) (currentFile s) (folders s) (files s)
    (showHidden s) (sortBy s) o (volume s).

Definition set_volume (v : Q) (s : AppState) : AppState :=
  mkState (folderHash s) (currentPath s) (currentFile s) (folders s) (files s)
    (showHidden s) (sortBy s) (sortOrder s) v.

(** *** Methods as state transformers that may throw *)

Inductive outcome (A : Type) :=
| Return (a : A) (app : App)
| Throw (e : Error) (app : App).
Arguments Return {A} a app.
Arguments Throw {A} e app.

Definition M (A : Type) := App -> outcome A.

Definition ret {A} (a : A) : M A := fun app => Return a app.

Definition bind {A B} (m : M A) (k : A -> M B) : M B :=
  fun app =>
    match m app with
    | Return a app' => k a app'
    | Throw e app' => Throw e app'
    end.

Definition throw {A} (e : Error) : M A := fun app => Throw e app.

Definition gets {A} (f : App -> A) : M A := fun app => Return (f app) app.

Definition modify (f : App -> App) : M unit := fun app => Return tt (f app).

Definition modify_state (f : AppState -> AppState) : M unit :=
  modify (fun app => set_state (f (state app)) app).

(** [o.p] on a value that may be [undefined]. *)
Definition defined {A} (o : option A) : M A :=
  match o with
  | Some a => ret a
  | None => throw TypeError
  end.

Declare Scope app_scope.
Delimit Scope app_scope with app.
Notation "x <- m ;; k" := (bind m (fun x => k))
  (at level 61, m at next level, right associativity) : app_scope.
Notation "m ;; k" := (bind m (fun _ => k))
  (at level 61, right associativity) : app_scope.
Local Open Scope app_scope.

(** The object that follows a call, whatever its outcome. *)
Definition after {A} (o : outcome A) : App :=
  match o with
  | Return _ app => app
  | Throw _ app => app
  end.

Definition returns {A} (o : outcome A) : bool :=
  match o with
  | Return _ _ => true
  | Throw _ _ => false
  end.

(** [Date.now()]. *)
Definition Date_now : M Z :=
  fun app => Return (clock app (ticks app)) (set_ticks (S (ticks app)) app).

(** [save()]: the state is written to [localStorage] and the path pushed
    on the history. *)
Definition save : M unit :=
  s <- gets state ;; modify (add_effect (Save s)).

(** *** The cache object *)

(** [_fileCache] is a plain object used as a map from paths to entries;
    [t] lists its own properties in the order of their creation.  The
    operations are those of the object on ordinary property names.  The
    two names a plain object treats otherwise -- [__proto__], which an
    assignment does not create, and [hasOwnProperty], which as a property
    hides the method -- are set apart by [ordinary] where a property
    depends on them. *)
Module Cache.

Definition t := list (string * CacheEntry).

(** [cache[key]]. *)
Fixpoint get (c : t) (key : string) : option CacheEntry :=
  match c with
  | [] => None
  | (k, e) :: c' => if String.eqb k key then Some e else get c' key
  end.

(** [cache.hasOwnProperty(key)]. *)
Definition hasOwnProperty (c : t) (key : string) : bool :=
  match get c key with Some _ => true | None => false end.

(** [cache[key] = e]: an existing property keeps its place, a new one is
    created last. *)
Fixpoint set (c : t) (key : string) (e : CacheEntry) : t :=
  match c with
  | [] => [(key, e)]
  | (k, e') :: c' =>
      if String.eqb k key then (k, e) :: c' else (k, e') :: set c' key e
  end.

(** [delete cache[key]]. *)
Definition delete (c : t) (key : string) : t :=
  filter (fun p => negb (String.eqb (fst p) key)) c.

(** The number a key denotes when it is an array index: a canonical
    decimal numeral below [2^32 - 1]. *)
Definition digit (c : ascii) : option N :=
  let n := N_of_ascii c in
  if ((48 <=? n) && (n <=? 57))%N then Some (n - 48)%N else None.

Fixpoint numeral (s : string) (acc : N) : option N :=
  match s with
  | EmptyString => Some acc
  | String c s' =>
      match digit c with
      | Some d => numeral s' (10 * acc + d)%N
      | None => None
      end
  end.

Definition array_index (s : string) : option N :=
  match s with
  | EmptyString => None
  | String c s' =>
      if Ascii.eqb c "0" && negb (String.eqb s' "") then None
      else if (10 <? String.length s)%nat then None
      else match numeral s 0 with
           | Some n => if (n <? 4294967295)%N then Some n else None
           | None => None
           end
  end.

Definition is_array_index (s : string) : bool :=
  match array_index s with Some _ => true | None => false end.

Definition index_value (s : string) : Z :=
  match array_index s with Some n => Z.of_N n | None => 0 end.

(** [Object.keys(cache)]: the array indices in ascending numeric order,
    then the other keys in the order of their creation. *)
Definition keys (c : t) : list string :=
  let ks := map fst c in
  JS.sort (fun a b => index_value a - index_value b)
          (filter is_array_index ks)
  ++ filter (fun k => negb (is_array_index k)) ks.

End Cache.

(** [Array.prototype.reduce] without an initial value: a [TypeError] on
    the empty array, else the callback folded from the first element. *)
Fixpoint reduce_from {A} (f : A -> A -> M A) (acc : A) (l : list A) : M A :=
  match l with
  | [] => ret acc
  | b :: l' => a <- f acc b ;; reduce_from f a l'
  end.

Definition reduce {A} (f : A -> A -> M A) (l : list A) : M A :=
  match l with
  | [] => throw TypeError
  | a :: l' => reduce_from f a l'
  end.

(** *** Media *)

(** [path.match(/\.(mp4|webm|mkv)$/)]. *)
Definition is_video (path : string) : bool :=
  JS.endsWith path ".mp4" || JS.endsWith path ".webm"
  || JS.endsWith path ".mkv".

(** [this.state.volume || 1.0]: zero is falsy. *)
Definition volume_or_default (v : Q) : Q :=
  if Qeq_bool v 0 then 1%Q else v.

(** [_getVideo(file)].  The [volume] setter of a media element refuses a
    value outside [0, 1] with an [IndexSizeError]. *)
Definition _getVideo (file : string) : M HTMLVideoElement :=
  let url := mkURL file None in
  v <- gets (fun app => volume (state app)) ;;
  let vol := volume_or_default v in
  if Qle_bool 0 vol && Qle_bool vol 1
  then ret (mkVideo url true true true ["media-item"] vol)
  else throw IndexSizeError.

(** [new Image()]. *)
Definition new_Image : M handle :=
  fun app =>
    let h := allocated app in
    Return h
      (set_heap (fun i => if Nat.eqb i h then mkImage None [] else heap app i)
                (S h) app).

(** [this._fileCache[file]], read. *)
Definition cache_entry (file : string) : M CacheEntry :=
  c <- gets _fileCache ;; defined (Cache.get c file).

Definition update_image (h : handle)
    (f : HTMLImageElement -> HTMLImageElement) : M unit :=
  modify (fun app =>
    set_heap (fun i => if Nat.eqb i h then f (heap app h) else heap app i)
             (allocated app) app).

(** [image.src = url.toString()]. *)
Definition assign_src (h : handle) (url : URL) : M unit :=
  update_image h (fun i => mkImage (Some url) (img_classList i)).

(** [image.classList.add(c)]. *)
Definition classList_add (h : handle) (c : string) : M unit :=
  update_image h (fun i =>
    mkImage (img_src i)
      (if existsb (String.eqb c) (img_classList i) then img_classList i
       else img_classList i ++ [c])).

(** [_getImage(file)]. *)
Definition _getImage (file : string) : M handle :=
  let url := mkURL file None in
  cached <- gets (fun app => Cache.hasOwnProperty (_fileCache app) file) ;;
  (if negb cached then
     h <- new_Image ;;
     now <- Date_now ;;
     modify (fun app =>
       set_fileCache (Cache.set (_fileCache app) file (mkEntry h now)) app) ;;
     e <- cache_entry file ;;
     assign_src (img e) url ;;
     e <- cache_entry file ;;
     classList_add (img e) "media-item"
   else
     e <- cache_entry file ;;
     now <- Date_now ;;
     modify (fun app =>
       set_fileCache
         (Cache.set (_fileCache app) file (mkEntry (img e) now)) app)) ;;
  (if JS.endsWith (search_path url) ".gif" then
     now <- Date_now ;;
     let url := mkURL (search_path url) (Some now) in
     e <- cache_entry file ;;
     assign_src (img e) url
   else ret tt) ;;
  e <- cache_entry file ;;
  ret (img e).

(** The callback of the [reduce] in [_cleanupCache]. *)
Definition older (a b : string) : M string :=
  ea <- cache_entry a ;;
  eb <- cache_entry b ;;
  ret (if ts ea <? ts eb then a else b).

(** [_cleanupCache()]. *)
Definition _cleanupCache : M unit :=
  keys <- gets (fun app => Cache.keys (_fileCache app)) ;;
  if MAX_CACHED_IMAGES <? Z.of_nat (List.length keys) then
    oldestKey <- reduce older keys ;;
    modify (fun app =>
      set_fileCache (Cache.delete (_fileCache app) oldestKey) app)
  else ret tt.

(** [_preloadNextAndPrevious()]. *)
Definition _preloadNextAndPrevious : M unit :=
  fs <- gets (fun app => files (state app)) ;;
  if Z.of_nat (List.length fs) =? 0 then ret tt
  else
    i <- gets _fileIndex ;;
    let nextIndex := Z.min (Z.of_nat (List.length fs) - 1) (i + 1) in
    let prevIndex := Z.max 0 (i - 1) in
    f <- defined (JS.index fs nextIndex) ;;
    (if negb (is_video (file_path f))
     then _getImage (file_path f) ;; ret tt else ret tt) ;;
    g <- defined (JS.index fs prevIndex) ;;
    (if negb (is_video (file_path g))
     then _getImage (file_path g) ;; ret tt else ret tt).

(** [_renderImage()].  The frame callback [updateMeta] runs later and is
    not part of the call. *)
Definition _renderImage : M unit :=
  cur <- gets (fun app => currentFile (state app)) ;;
  match cur with
  | None => modify (set_imageHolder None)
  | Some file =>
      modify (set_imageHolder None) ;;
      media <- (if is_video file
                then v <- _getVideo file ;; ret (MediaVideo v)
                else h <- _getImage file ;; _cleanupCache ;;
                     ret (MediaImage h)) ;;
      modify (set_imageHolder (Some media)) ;;
      _preloadNextAndPrevious
  end.

(** [_render()]: the two lists are rebuilt or their highlight moved, then
    the image is rendered. *)
Definition _render : M unit :=
  rebuild <- gets _listRebuildRequired ;;
  modify (add_effect (RenderList rebuild)) ;;
  modify (set_listRebuildRequired false) ;;
  _renderImage.

(** *** Sorting and navigation *)

Definition path_is (cur : option string) (f : AppFile) : bool :=
  match cur with
  | Some p => String.eqb (file_path f) p
  | None => false
  end.

(** [this.state.files.findIndex(f => f.path === this.state.currentFile)]. *)
Definition find_current (s : AppState) : Z :=
  JS.findIndex (path_is (currentFile s)) (files s).

(** [_resort()]. *)
Definition _resort : M unit :=
  by_ <- gets (fun app => sortBy (state app)) ;;
  order <- gets (fun app => sortOrder (state app)) ;;
  modify_state (fun s => set_folders (Sorter.sortFolders (folders s)) s) ;;
  modify_state (fun s => set_files (Sorter.sortFiles by_ order (files s)) s) ;;
  modify (fun app => set_fileIndex (Z.max 0 (find_current (state app))) app) ;;
  save ;;
  _render.

(** [changeSort(sortBy, sortOrder)]. *)
Definition changeSort (by_ : SortBy) (order : SortOrder) : M unit :=
  s <- gets state ;;
  if SortBy_eqb (sortBy s) by_ && SortOrder_eqb (sortOrder s) order
  then ret tt
  else
    modify_state (set_sortBy by_) ;;
    modify_state (set_sortOrder order) ;;
    _resort.

(** [this.state.currentFile = this.state.files[this._fileIndex].path]. *)
Definition select_at_fileIndex : M unit :=
  app <- gets (fun app => app) ;;
  f <- defined (JS.index (files (state app)) (_fileIndex app)) ;;
  modify_state (set_currentFile (Some (file_path f))).

(** [nextFile()]. *)
Definition nextFile : M unit :=
  fs <- gets (fun app => files (state app)) ;;
  if Z.of_nat (List.length fs) =? 0 then ret tt
  else
    modify (fun app =>
      set_fileIndex
        (Z.min (Z.of_nat (List.length fs) - 1) (_fileIndex app + 1)) app) ;;
    select_at_fileIndex ;;
    save ;;
    _render ;;
    modify (add_effect (SetObjectPosition 0%Q 0%Q)).

(** [prevFile()]. *)
Definition prevFile : M unit :=
  fs <- gets (fun app => files (state app)) ;;
  if Z.of_nat (List.length fs) =? 0 then ret tt
  else
    modify (fun app => set_fileIndex (Z.max 0 (_fileIndex app - 1)) app) ;;
    select_at_fileIndex ;;
    save ;;
    _render.

(** *** Listing refresh *)

(** The body of a [/list] response. *)
Record ResponseHash := mkHash { hash_hash : string }.

Record ResponseList := mkList {
  canonical_path : string;
  list_folders : list AppFolder;
  list_files : list AppFile;
  hash : ResponseHash
}.

(** How [await fetch(...)] and [await resp.json()] end: [fetch] rejects,
    the body is not JSON, or a listing arrives. *)
Inductive FetchResult :=
| NetworkError
| MalformedResponse
| Listing (data : ResponseList).

(** [_fetchList(path, forceRebuild)], resumed with the result of its
    request.  The [catch] block logs and falls through with [data] still
    [undefined]. *)
Definition _fetchList (path : option string) (forceRebuild : bool)
    (result : FetchResult) : M unit :=
  data <- match result with
          | Listing d => ret (Some d)
          | NetworkError | MalformedResponse =>
              modify (add_effect ConsoleError) ;; ret None
          end ;;
  d <- defined data ;;
  cur <- gets (fun app => currentPath (state app)) ;;
  modify (set_listRebuildRequired
    (negb (match cur with
           | Some p => String.eqb p (canonical_path d)
           | None => false
           end) || forceRebuild)) ;;
  modify_state (set_currentPath (Some (canonical_path d))) ;;
  modify_state (set_folders (list_folders d)) ;;
  modify_state (set_files (list_files d)) ;;
  modify_state (set_folderHash (Some (hash_hash (hash d)))) ;;
  _resort ;;
  fs <- gets (fun app => files (state app)) ;;
  (if 0 <? Z.of_nat (List.length fs) then
     modify (fun app => set_fileIndex (find_current (state app)) app) ;;
     i <- gets _fileIndex ;;
     if i =? -1 then
       modify (set_fileIndex 0) ;;
       select_at_fileIndex
     else ret tt
   else modify_state (set_currentFile None)) ;;
  save ;;
  _render.

(** ** Pan positioning *)

Module Position.

(** What the page reports when a position is set: the resolution of the
    media item, the size of the image holder and its two fit classes.  A
    resolution that is missing (an image that has not loaded) reads 0.
    Quotients of numbers are exact. *)
Record Page := mkPage {
  width : Q;
  height : Q;
  cWidth : Q;
  cHeight : Q;
  object_fit_cover : bool;
  object_fit_none : bool
}.

Inductive Direction := up | down.

(** [a / b] as JavaScript has it: a number, an infinity when a number
    other than zero is divided by zero, and [NaN] for [0 / 0]. *)
Inductive Quotient :=
| Finite (q : Q)
| PlusInfinity
| MinusInfinity
| NaN.

Definition divide (a b : Q) : Quotient :=
  if Qeq_bool b 0 then
    match a ?= 0 with
    | Gt => PlusInfinity
    | Lt => MinusInfinity
    | Eq => NaN
    end%Q
  else Finite (a / b).

(** [x < y] on two quotients: false as soon as one of them is [NaN]. *)
Definition less (x y : Quotient) : bool :=
  match x, y with
  | Finite a, Finite b =>
      match a ?= b with Lt => true | _ => false end%Q
  | Finite _, PlusInfinity => true
  | MinusInfinity, Finite _ => true
  | MinusInfinity, PlusInfinity => true
  | _, _ => false
  end.

(** [_direction()]. *)
Definition _direction (p : Page) : Direction :=
  if less (divide (width p) (height p)) (divide (cWidth p) (cHeight p))
  then up else down.

(** [_isMediaBigger()]. *)
Definition _isMediaBigger (p : Page) : bool :=
  if object_fit_cover p || object_fit_none p then
    negb (Qle_bool (width p) (cWidth p))
    || negb (Qle_bool (height p) (cHeight p))
  else false.

(** [Math.max(0, Math.min(100, v))]. *)
Definition clamp (v : Q) : Q := Qmax 0%Q (Qmin 100%Q v).

(** The values of [x] and [y] in [setObjectPosition(x, y)] when the media
    item is looked up. *)
Definition clampPosition (p : Page) (x y : Q) : Q * Q :=
  let x := clamp x in
  let y := clamp y in
  match _direction p with
  | up => (50%Q, y)
  | down => (x, 50%Q)
  end.

(** [setObjectPosition(x, y)]: the [object-position] given to the media
    item, if any. *)
Definition setObjectPosition (p : Page) (x y : Q) : option (Q * Q) :=
  if _isMediaBigger p then Some (clampPosition p x y) else None.

End Position.

(** ** Vocabulary of the properties *)





(** A consistent comparator, as ECMAScript defines it for [sort]. *)
Definition consistent_comparator {A} (cmp : A -> A -> Z) : Prop :=
  (forall a, cmp a a = 0) /\
  (forall a b, cmp a b = 0 -> cmp b a = 0) /\
  (forall a b c, cmp a b = 0 -> cmp b c = 0 -> cmp a c = 0) /\
  (forall a b c, cmp a b < 0 -> cmp b c < 0 -> cmp a c < 0) /\
  (forall a b c, cmp a b > 0 -> cmp b c > 0 -> cmp a c > 0).

(** No element is placed before one the comparator puts strictly first. *)
Definition sorted_by {A} (cmp : A -> A -> Z) (l : list A) : Prop :=
  StronglySorted (fun a b => cmp a b <= 0) l.

(** The elements the comparator holds equal to [a], in list order. *)
Definition equals_of {A} (cmp : A -> A -> Z) (a : A) (l : list A) : list A :=
  filter (fun b => cmp a b =? 0) l.

(** [l'] keeps elements that compare equal in the order they have in [l]. *)
Definition keeps_order_of_equals {A} (cmp : A -> A -> Z) (l l' : list A)
    : Prop :=
  forall a, equals_of cmp a l' = equals_of cmp a l.

(** The key the folder comparator compares. *)
Definition folder_key (f : AppFolder) : string :=
  Sorter.normalize (folder_name f).

(** The shape of a comparator that compares keys: [lower] when the first
    key is the smaller one, [upper] when it is the greater one. *)
Definition key_comparefn {A K} (key : A -> K) (eqb ltb : K -> K -> bool)
    (lower upper : Z) (a b : A) : Z :=
  if eqb (key a) (key b) then 0
  else if ltb (key a) (key b) then lower else upper.

Definition lower_sign (order : SortOrder) : Z :=
  match order with asc => -1 | desc => 1 end.

Definition upper_sign (order : SortOrder) : Z :=
  match order with asc => 1 | desc => -1 end.

(** The order the folder comparator aims at: the key [..] before every
    other key, the other keys by code unit. *)
Definition parent_first_ltb (k k' : string) : bool :=
  if String.eqb k ".." then negb (String.eqb k' "..")
  else if String.eqb k' ".." then false
  else String.ltb k k'.

Definition folders_order (a b : AppFolder) : Z :=
  key_comparefn folder_key String.eqb parent_first_ltb (-1) 1 a b.

(** The folders whose key is [..]. *)
Definition parent_entries (l : list AppFolder) : list AppFolder :=
  filter (fun f => String.eqb (folder_key f) "..") l.

(** The call returns, with a result and a final object that satisfy [Q]. *)
Definition ok {A} (m : M A) (app : App) (Q : A -> App -> Prop) : Prop :=
  exists a app', m app = Return a app' /\ Q a app'.

(** The volume lies in [[0, 1]], as every value a media element reports. *)
Definition valid_volume (s : AppState) : bool :=
  Qle_bool 0 (volume s) && Qle_bool (volume s) 1.

(** The cursor is at most one step outside the list of files. *)
Definition cursor_near (app : App) : Prop :=
  -1 <= _fileIndex app <= Z.of_nat (List.length (files (state app))).

(** Only the media side of the object differs: the cache, the image
    store, the image holder and the clock reading count. *)
Definition media_only (app app' : App) : Prop :=
  state app' = state app /\
  _fileIndex app' = _fileIndex app /\
  _listRebuildRequired app' = _listRebuildRequired app /\
  _previousFolder app' = _previousFolder app /\
  clock app' = clock app /\
  effects app' = effects app.

(** The time recorded for a key of the cache. *)
Definition ts_of (c : Cache.t) (key : string) : Z :=
  match Cache.get c key with Some e => ts e | None => 0 end.

(** The keys of the cache are pairwise distinct, as the properties of an
    object are. *)
Fixpoint distinct (l : list string) : bool :=
  match l with
  | [] => true
  | k :: l' => negb (existsb (String.eqb k) l') && distinct l'
  end.

Definition cache_wf (c : Cache.t) : bool := distinct (map fst c).

Definition cache_size (app : App) : Z :=
  Z.of_nat (List.length (_fileCache app)).

(** The cache is a plain object: [this._fileCache.hasOwnProperty] is the
    method of [Object.prototype] as long as no path named
    [hasOwnProperty] is cached, and an assignment to the property
    [__proto__] creates no property.  [Cache] has the properties of the
    object for the other names; a resolution of [file] is within them
    when [file] is neither of the two names and the method has not been
    hidden. *)
Definition ordinary (file : string) (app : App) : Prop :=
  file <> "__proto__" /\ file <> "hasOwnProperty" /\
  Cache.get (_fileCache app) "hasOwnProperty" = None.

(** Every path that a render resolves -- the selected one and those of
    the files -- is the name of an ordinary property. *)
Definition ordinary_paths (app : App) : Prop :=
  (forall p, currentFile (state app) = Some p -> ordinary p app) /\
  (forall f, In f (files (state app)) -> ordinary (file_path f) app).

(** The state after the two sorts of [_resort]. *)
Definition resorted (s : AppState) : AppState :=
  set_files (Sorter.sortFiles (sortBy s) (sortOrder s) (files s))
    (set_folders (Sorter.sortFolders (folders s)) s).

(** The state after the four assignments of lines 212 to 215. *)
Definition received (d : ResponseList) (s : AppState) : AppState :=
  set_folderHash (Some (hash_hash (hash d)))
    (set_files (list_files d)
       (set_folders (list_folders d)
          (set_currentPath (Some (canonical_path d)) s))).

(** Some file of the list has the path [p]. *)
Definition lists_path (l : list AppFile) (p : string) : Prop :=
  exists f, In f l /\ file_path f = p.

(** [i] is the index of the first file of [l] whose path is [p]. *)
Definition first_with_path (l : list AppFile) (p : string) (i : Z) : Prop :=
  0 <= i /\
  exists f, nth_error l (Z.to_nat i) = Some f /\ file_path f = p /\
    forall j g, (j < Z.to_nat i)%nat -> nth_error l j = Some g ->
                file_path g <> p.

(** [k] is, in the enumeration [keys], the last of the keys whose time is
    the smallest. *)
Definition last_oldest (c : Cache.t) (keys : list string) (k : string)
    : Prop :=
  exists l1 l2,
    keys = (l1 ++ k :: l2)%list /\
    (forall b, In b l1 -> ts_of c k <= ts_of c b) /\
    (forall b, In b l2 -> ts_of c k < ts_of c b).

(** *** Scenarios *)

(** A freshly constructed application, before the first listing arrives;
    the clock advances by 40 ms between two readings. *)
Definition started : App :=
  mkApp defaultState 0 true None [] (fun _ => mkImage None []) 0 None
    (fun n => 1700000000000 + 40 * Z.of_nat n) 0 [].

Definition numbered (prefix : string) (i : nat) (suffix : string) : string :=
  prefix ++ NilEmpty.string_of_uint (Nat.to_uint i) ++ suffix.

Definition picture (i : nat) : AppFile :=
  mkFile (numbered "img" i ".png") (numbered "/pics/img" i ".png") false
    (Z.of_nat i).

(** The listing of a folder of [n] pictures. *)
Definition gallery (n : nat) : ResponseList :=
  mkList "/pics" [mkFolder ".." "/" false] (map picture (seq 0 n))
    (mkHash "7f3a").

(** The listing of a folder with a video between two pictures. *)
Definition mixed : ResponseList :=
  mkList "/vid" [mkFolder ".." "/" false]
    [ mkFile "a.png" "/vid/a.png" false 1;
      mkFile "b.mp4" "/vid/b.mp4" false 2;
      mkFile "c.png" "/vid/c.png" false 3 ]
    (mkHash "91c0").

(** The same key pressed [n] times. *)
Fixpoint press (n : nat) (key : M unit) : M unit :=
  match n with
  | O => ret tt
  | S n' => key ;; press n' key
  end.

(** Clicks on the links of the files with the given paths, one after the
    other. *)
Fixpoint click_each (click : string -> M unit) (paths : list string)
    : M unit :=
  match paths with
  | [] => ret tt
  | p :: paths' => click p ;; click_each click paths'
  end.

(** The paths of the pictures 1, 4, 7, ... of a gallery, [n] of them. *)
Definition every_third (n : nat) : list string :=
  map (fun i => numbered "/pics/img" (3 * i + 1) ".png") (seq 0 n).

(** Image resolutions one after the other, without a clean-up. *)
Fixpoint resolve_all (paths : list string) : M unit :=
  match paths with
  | [] => ret tt
  | p :: paths' => _getImage p ;; resolve_all paths'
  end.

(** An application whose clock gives the same millisecond twice and then
    advances. *)
Definition started_coarse : App :=
  mkApp defaultState 0 true None [] (fun _ => mkImage None []) 0 None
    (fun n => 1700000000000 + Z.of_nat (n - 1)) 0 [].

(** Fifty-one pictures resolved under that clock, none cleaned up. *)
Definition crowded : App :=
  after (resolve_all
           (map (fun i => numbered "/pics/img" i ".png") (seq 0 51))
           started_coarse).

(** A picture of 16:9 in a holder of 4:3, in the fit mode [cover]. *)
Definition wide_picture : Position.Page :=
  Position.mkPage 1920 1080 800 600 true false.

(** The same picture in a holder that has a width and no height. *)
Definition flat_holder : Position.Page :=
  Position.mkPage 1920 1080 800 0 true false.

(** Three files [a], [b], [c] in a folder, [b] selected. *)
Definition abc : App :=
  mkApp
    (mkState (Some "7f3a") (Some "/pics") (Some "/pics/b")
       [mkFolder ".." "/" false]
       [mkFile "a" "/pics/a" false 30; mkFile "b" "/pics/b" false 20;
        mkFile "c" "/pics/c" false 10]
       false name asc 1%Q)
    1 false None [] (fun _ => mkImage None []) 0 None
    (fun n => 1700000000000 + 40 * Z.of_nat n) 0 [].


(** ** The rest of the application *)

(** *** The utilities [escape] and [html] *)

Module Utils.

(** The character [U+0022]. *)
Definition quote : ascii := "034"%char.

(** [s.replace(/c/g, r)] for a pattern that is one character. *)
Fixpoint replace_all (c : ascii) (r : string) (s : string) : string :=
  match s with
  | EmptyString => EmptyString
  | String a s' =>
      if Ascii.eqb a c then (r ++ replace_all c r s')%string
      else String a (replace_all c r s')
  end.

(** [escape(text)]: five replacements, one after the other. *)
Definition escape (text : string) : string :=
  replace_all quote "&quot;"
    (replace_all "'" "&#039;"
       (replace_all ">" "&gt;"
          (replace_all "<" "&lt;"
             (replace_all "&" "&amp;" text)))).

(** [result.slice(0, -1)]. *)
Definition slice_last (s : string) : string :=
  substring 0 (String.length s - 1) s.

(** The loop of [html] from index [i] on: [values] are the values from
    [i] on, already turned into strings by [toString], and [rest] the
    strings from [i + 1] on; a string that is missing reads
    [undefined]. *)
Fixpoint html_loop (result : string) (values rest : list string) : string :=
  match values with
  | [] => result
  | v :: values' =>
      let next := match rest with s :: _ => s | [] => "undefined" end in
      if JS.endsWith result "$"
      then html_loop (slice_last result ++ (v ++ next))%string values' (tl rest)
      else html_loop (result ++ (escape v ++ next))%string values' (tl rest)
  end.

(** [html(strings, ...values)]; without a first string there is no
    string to return. *)
Definition html (strings values : list string) : option string :=
  match strings with
  | [] => None
  | s0 :: rest => Some (html_loop s0 values rest)
  end.

(** What [escape] puts in the place of one character. *)
Definition escape_char (a : ascii) : string :=
  if Ascii.eqb a "&" then "&amp;"
  else if Ascii.eqb a "<" then "&lt;"
  else if Ascii.eqb a ">" then "&gt;"
  else if Ascii.eqb a "'" then "&#039;"
  else if Ascii.eqb a quote then "&quot;"
  else String a EmptyString.

(** The character occurs in the string. *)
Fixpoint occurs (c : ascii) (s : string) : Prop :=
  match s with
  | EmptyString => False
  | String a s' => a = c \/ occurs c s'
  end.

(** One of the four characters that open or close a tag or an attribute
    value. *)
Definition is_markup (c : ascii) : Prop :=
  c = "<"%char \/ c = ">"%char \/ c = "'"%char \/ c = quote.

(** The strings and the escaped values, taken in turn. *)
Fixpoint interleave_escaped (values rest : list string) : string :=
  match values, rest with
  | v :: values', s :: rest' =>
      (escape v ++ (s ++ interleave_escaped values' rest'))%string
  | _, _ => EmptyString
  end.

(** Every string that is followed by a value is not empty and does not
    end in [$]. *)
Fixpoint closes_values (rest : list string) : Prop :=
  match rest with
  | [] => True
  | s :: rest' =>
      match rest' with
      | [] => True
      | _ => (s <> EmptyString /\ JS.endsWith s "$" = false)
             /\ closes_values rest'
      end
  end.

End Utils.

(** *** The links that [_render] appends to the two lists *)

(** The character [U+0022] as a string. *)
Definition dq : string := String Utils.quote EmptyString.

(** The strings of the template of a link; [attribute] is [folder] or
    [file]. *)
Definition link_strings (attribute : string) : list string :=
  [ (String "010" "                    <div><a href=" ++ dq ++ "#")%string;
    (dq ++ " class=" ++ dq)%string;
    (dq ++ " data-" ++ attribute ++ "=" ++ dq)%string;
    (dq ++ ">$")%string;
    EmptyString;
    "</a></div>"%string ].

(** [this._previousFolder === f.path]. *)
Definition is_previous (previous : option string) (f : AppFolder) : bool :=
  match previous with
  | Some p => String.eqb p (folder_path f)
  | None => false
  end.

(** The text appended for a folder and for a file; [icon] is the
    constant [SYMLINK_ICON]. *)
Definition folder_link (icon : string) (previous : option string)
    (f : AppFolder) : option string :=
  Utils.html (link_strings "folder")
    [ folder_path f;
      if is_previous previous f then "previous"%string else EmptyString;
      folder_path f;
      if folder_symlink f then icon else EmptyString;
      folder_name f ].

Definition file_link (icon : string) (current : option string)
    (f : AppFile) : option string :=
  Utils.html (link_strings "file")
    [ file_path f;
      if path_is current f then "active"%string else EmptyString;
      file_path f;
      if file_symlink f then icon else EmptyString;
      file_name f ].

(** What a link is expected to be: the path and the name escaped, the
    icon as it is. *)
Definition link_text (attribute path class_ icon name : string) : string :=
  (String "010" "                    <div><a href=" ++ dq ++ "#"
   ++ Utils.escape path ++ dq ++ " class=" ++ dq ++ class_ ++ dq
   ++ " data-" ++ attribute ++ "=" ++ dq ++ Utils.escape path ++ dq ++ ">"
   ++ icon ++ Utils.escape name ++ "</a></div>")%string.

(** *** The handlers installed by [_setupEvents] *)

Definition set_previousFolder (p : option string) (a : App) : App :=
  mkApp (state a) (_fileIndex a) (_listRebuildRequired a) p
    (_fileCache a) (heap a) (allocated a) (imageHolder a) (clock a)
    (ticks a) (effects a).

Definition set_showHidden (b : bool) (s : AppState) : AppState :=
  mkState (folderHash s) (currentPath s) (currentFile s) (folders s) (files s)
    b (sortBy s) (sortOrder s) (volume s).

(** The click on a folder link, resumed with the result of the request:
    [_fetchList] is called without [forceRebuild]. *)
Definition click_folder (newPath : string) (result : FetchResult) : M unit :=
  modify (fun app => set_previousFolder (currentPath (state app)) app) ;;
  _fetchList (Some newPath) false result.

(** The click on a file link. *)
Definition click_file (filePath : string) : M unit :=
  modify_state (set_currentFile (Some filePath)) ;;
  modify (fun app =>
    set_fileIndex
      (JS.findIndex (path_is (Some filePath)) (files (state app))) app) ;;
  save ;;
  _render.

(** The keys the [keydown] handler tells apart. *)
Inductive Key :=
| KeyPageDown | KeyPageUp | KeyHome | KeyEnd
| KeyF | KeyH | KeyR | KeyN | KeyM | KeyZ
| KeyOther.

Definition toggled (o : SortOrder) : SortOrder :=
  match o with asc => desc | desc => asc end.

(** The [keydown] handler.  [fit] is what
    [_isObjectFitCover() || _isObjectFitNone()] reads off the image
    holder.  The keys [f] and [z] act on the page only.  In a fit mode
    [Home] and [End] call [setObjectPosition], which is logged; the call
    reads the resolution of the media item, so the two keys are taken
    with a media item in the holder (see [possible]). *)
Definition keydown (key : Key) (fit : bool) : M unit :=
  match key with
  | KeyPageDown => nextFile
  | KeyPageUp => prevFile
  | KeyHome =>
      if fit then modify (add_effect (SetObjectPosition 0 0))
      else
        modify (set_fileIndex 0) ;;
        select_at_fileIndex ;;
        save ;;
        _render
  | KeyEnd =>
      if fit then modify (add_effect (SetObjectPosition 100 100))
      else
        modify (fun app =>
          set_fileIndex
            (Z.of_nat (List.length (files (state app))) - 1) app) ;;
        select_at_fileIndex ;;
        save ;;
        _render
  | KeyH =>
      modify_state (fun s => set_showHidden (negb (showHidden s)) s) ;;
      save ;;
      modify (set_listRebuildRequired true) ;;
      _render
  | KeyR =>
      s <- gets state ;;
      changeSort (sortBy s) (toggled (sortOrder s)) ;;
      modify (set_listRebuildRequired true) ;;
      _render
  | KeyN =>
      s <- gets state ;;
      changeSort name (sortOrder s) ;;
      modify (set_listRebuildRequired true) ;;
      _render
  | KeyM =>
      s <- gets state ;;
      changeSort mtime (sortOrder s) ;;
      modify (set_listRebuildRequired true) ;;
      _render
  | KeyF | KeyZ | KeyOther => ret tt
  end.

(** The [volumechange] listener that [_getVideo] puts on a video. *)
Definition on_volumechange (v : Q) : M unit :=
  modify_state (set_volume v) ;;
  save.

(** *** Panning *)

(** [_calcStep()]. *)
Definition _calcStep (p : Position.Page) : Q :=
  let r := match Position.height p ?= Position.width p with
           | Gt => Position.width p / Position.height p
           | _ => Position.height p / Position.width p
           end%Q in
  Qmax 1 (Qmin 50 (r * 10)).

(** [moveMediaUp()] and [moveMediaDown()], given the position that
    [getCurrentObjectPosition()] returns: the [object-position] given to
    the media item, if any. *)
Definition moveMediaUp (p : Position.Page) (pos : Q * Q) : option (Q * Q) :=
  let (x, y) := pos in
  let step := _calcStep p in
  Position.setObjectPosition p (x - step) (y - step).

Definition moveMediaDown (p : Position.Page) (pos : Q * Q) : option (Q * Q) :=
  let (x, y) := pos in
  let step := _calcStep p in
  Position.setObjectPosition p (x + step) (y + step).

(** The position after [n] moves, each of which reads the position the
    move before has set. *)
Fixpoint moved (move : Position.Page -> Q * Q -> option (Q * Q)) (n : nat)
    (p : Position.Page) (pos : Q * Q) : Q * Q :=
  match n with
  | O => pos
  | S n' =>
      moved move n' p
        (match move p pos with Some pos' => pos' | None => pos end)
  end.

(** The coordinate that [setObjectPosition] lets move, and the one it
    pins. *)
Definition panned (p : Position.Page) (pos : Q * Q) : Q :=
  match Position._direction p with
  | Position.up => snd pos
  | Position.down => fst pos
  end.

Definition pinned (p : Position.Page) (pos : Q * Q) : Q :=
  match Position._direction p with
  | Position.up => fst pos
  | Position.down => snd pos
  end.

(** *** The [wheel] handler *)

(** A move as the handler calls it.  [page] and [pos] are what the page
    reports to it: the resolution and the position that
    [getCurrentObjectPosition()] reads.  [_calcStep] reads the
    resolution of the media item and throws a [TypeError] when the
    holder has none; the call of [setObjectPosition] is logged. *)
Definition move (towards : Q -> Q -> Q) (page : Position.Page) (pos : Q * Q)
    : M unit :=
  holder <- gets imageHolder ;;
  match holder with
  | None => throw TypeError
  | Some _ =>
      let (x, y) := pos in
      let step := _calcStep page in
      modify (add_effect (SetObjectPosition (towards x step) (towards y step)))
  end.

(** The [wheel] handler of the image holder: [deltaY] is the scroll
    amount and [fit] as for [keydown]. *)
Definition wheel (deltaY : Q) (fit : bool) (page : Position.Page)
    (pos : Q * Q) : M unit :=
  match (deltaY ?= 0)%Q with
  | Lt => if fit then move Qminus page pos else prevFile
  | Gt => if fit then move Qplus page pos else nextFile
  | Eq => ret tt
  end.

(** *** Vocabulary of the further properties *)

(** The value the file comparator compares for a file: lines 279 to
    284. *)
Definition sort_key (by_ : SortBy) (f : AppFile) : Sorter.value :=
  if SortBy_eqb by_ name then Sorter.normalize_value (Sorter.prop f by_)
  else Sorter.prop f by_.

(** Whatever its outcome, the call leaves everything but the media side
    of the object as it was. *)
Definition media_frame {A} (m : M A) : Prop :=
  forall app, media_only app (after (m app)).

(** The selected path is the path of the file under the cursor; no path
    is selected exactly when there is no file. *)
Definition selection_ok (app : App) : Prop :=
  match currentFile (state app) with
  | None => files (state app) = []
  | Some p =>
      exists f, JS.index (files (state app)) (_fileIndex app) = Some f /\
                file_path f = p
  end.

(** The files are in the order of the sort key and direction in use. *)
Definition files_sorted (s : AppState) : Prop :=
  files s = Sorter.sortFiles (sortBy s) (sortOrder s) (files s).

(** The state that was saved last. *)
Fixpoint last_saved (l : list Effect) : option AppState :=
  match l with
  | [] => None
  | e :: l' =>
      match last_saved l' with
      | Some s => Some s
      | None => match e with Save s => Some s | _ => None end
      end
  end.

(** *** [load] and the stored state *)

(** The fields an object read from storage has of the state; a field that
    is missing is [None]. *)
Record StoredFields := mkStored {
  st_folderHash : option (option string);
  st_currentPath : option (option string);
  st_currentFile : option (option string);
  st_folders : option (list AppFolder);
  st_files : option (list AppFile);
  st_showHidden : option bool;
  st_sortBy : option SortBy;
  st_sortOrder : option SortOrder;
  st_volume : option Q
}.

Definition no_fields : StoredFields :=
  mkStored None None None None None None None None None.

(** What [localStorage.getItem('imageapp-state')] holds: nothing, a text
    that [JSON.parse] refuses, or a text it reads.  A value that is not
    an object ([null], a number) has none of the fields.  The fields of
    an object are taken with the types of the state, but for [files]:
    [ItemFilesNoList] is an object whose [files] is [null] or another
    value without [findIndex], or an array that holds [null]. *)
Inductive Item :=
| ItemMissing
| ItemNotJSON
| ItemJSON (fields : StoredFields)
| ItemFilesNoList.

Definition or_default {A} (o : option A) (d : A) : A :=
  match o with Some a => a | None => d end.

(** [{...defaultState, ...state}]. *)
Definition merged (f : StoredFields) : AppState :=
  mkState
    (or_default (st_folderHash f) (folderHash defaultState))
    (or_default (st_currentPath f) (currentPath defaultState))
    (or_default (st_currentFile f) (currentFile defaultState))
    (or_default (st_folders f) (folders defaultState))
    (or_default (st_files f) (files defaultState))
    (or_default (st_showHidden f) (showHidden defaultState))
    (or_default (st_sortBy f) (sortBy defaultState))
    (or_default (st_sortOrder f) (sortOrder defaultState))
    (or_default (st_volume f) (volume defaultState)).

(** [load()], given the item in storage.  Only [JSON.parse] is guarded:
    on [ItemFilesNoList] line 160 throws a [TypeError], out of the
    constructor that called [load]; the state assigned on line 157,
    which has no list of files, is not kept. *)
Definition load (item : Item) : M unit :=
  fields <- match item with
            | ItemMissing => ret no_fields
            | ItemNotJSON => modify (add_effect ConsoleError) ;; ret no_fields
            | ItemJSON f => ret f
            | ItemFilesNoList => throw TypeError
            end ;;
  modify (set_state (merged fields)) ;;
  modify (fun app =>
    set_fileIndex (Z.max 0 (find_current (state app))) app).

(** The item that [save()] writes: [JSON.stringify] keeps every field of
    the state and [JSON.parse] reads them back. *)
Definition stringified (s : AppState) : Item :=
  ItemJSON
    (mkStored (Some (folderHash s)) (Some (currentPath s))
       (Some (currentFile s)) (Some (folders s)) (Some (files s))
       (Some (showHidden s)) (Some (sortBy s)) (Some (sortOrder s))
       (Some (volume s))).

(** The item in storage after the calls of the log. *)
Definition stored_item (log : list Effect) : Item :=
  match last_saved log with
  | Some s => stringified s
  | None => ItemMissing
  end.

(** *** Polling *)

(** How the [/folder-hash] request ends: it fails ([fetch] rejects or the
    body is not JSON) or the hash object arrives, the one a [/list]
    response carries in its [hash] field. *)
Inductive HashResult :=
| HashFailed
| HashArrived (data : ResponseHash).

(** [this.state.folderHash !== data.hash]. *)
Definition hash_differs (h : option string) (data : ResponseHash) : bool :=
  match h with
  | Some s => negb (String.eqb s (hash_hash data))
  | None => true
  end.

(** [_startPolling()], given how its two requests end: the outcome and
    the number of timers it has set with [schedule()].  The [finally]
    block sets the timer whether [_fetchList] returns or throws. *)
Definition _startPolling (hashResult : HashResult) (listResult : FetchResult)
    (app : App) : outcome unit * nat :=
  match currentPath (state app) with
  | None => (Return tt app, 1%nat)
  | Some path =>
      match hashResult with
      | HashFailed => (Return tt (add_effect ConsoleError app), 1%nat)
      | HashArrived data =>
          ((if hash_differs (folderHash (state app)) data
            then _fetchList (Some path) true listResult
            else ret tt) app,
           1%nat)
      end
  end.

(** What holds whenever a handler has returned after a click on a listed
    file, a key that moves the cursor or a listing. *)
Definition settled (app : App) : Prop :=
  valid_volume (state app) = true /\
  cursor_near app /\
  selection_ok app /\
  files_sorted (state app) /\
  last_saved (effects app) = Some (state app).

(** What holds whatever handler has returned: [settled] without the
    selection, which a click on a link that is out of date takes off the
    list. *)
Definition steady (app : App) : Prop :=
  valid_volume (state app) = true /\
  cursor_near app /\
  files_sorted (state app) /\
  last_saved (effects app) = Some (state app).

(** What the user and the server do to the application: a key, a turn of
    the wheel, a click on the link of a file (listed or, when the lists
    were not rebuilt, no longer listed), a click on a folder whose
    listing arrives, a listing that arrives for a poll, a volume set on
    the video. *)
Inductive Event :=
| Keydown (key : Key) (fit : bool)
| Wheel (deltaY : Q) (fit : bool) (page : Position.Page) (pos : Q * Q)
| ClickFile (filePath : string)
| ClickFolder (newPath : string) (data : ResponseList)
| PollRefresh (data : ResponseList)
| VolumeChange (v : Q).

Definition dispatch (e : Event) : M unit :=
  match e with
  | Keydown key fit => keydown key fit
  | Wheel deltaY fit page pos => wheel deltaY fit page pos
  | ClickFile p => click_file p
  | ClickFolder p d => click_folder p (Listing d)
  | PollRefresh d =>
      path <- gets (fun app => currentPath (state app)) ;;
      _fetchList path true (Listing d)
  | VolumeChange v => on_volumechange v
  end.

(** The events whose handler returns.  Outside the fit modes [Home] and
    [End] read the path of a file, so there is one; in a fit mode they
    and the wheel read the resolution of the media item, so the holder
    has one; a video reports a volume of [[0, 1]]. *)
Definition possible (e : Event) (app : App) : Prop :=
  match e with
  | Keydown KeyHome fit | Keydown KeyEnd fit =>
      if fit then imageHolder app <> None else files (state app) <> []
  | Wheel deltaY true _ _ => (deltaY == 0)%Q \/ imageHolder app <> None
  | VolumeChange v => Qle_bool 0 v && Qle_bool v 1 = true
  | _ => True
  end.

(** The click, if the event is one, is on the link of a listed file. *)
Definition on_listed (e : Event) (app : App) : Prop :=
  match e with
  | ClickFile p => lists_path (files (state app)) p
  | _ => True
  end.

(** The states the application goes through from [app0] on. *)
Inductive reached (app0 : App) : App -> Prop :=
| reached_start : reached app0 app0
| reached_step (app app' : App) (e : Event) :
    reached app0 app -> possible e app ->
    dispatch e app = Return tt app' -> reached app0 app'.

(** Those of them it goes through while every click on a file is on the
    link of a listed one. *)
Inductive browsed (app0 : App) : App -> Prop :=
| browsed_start : browsed app0 app0
| browsed_step (app app' : App) (e : Event) :
    browsed app0 app -> possible e app -> on_listed e app ->
    dispatch e app = Return tt app' -> browsed app0 app'.

(** The application after its first listing, of three pictures, has
    arrived. *)
Definition browsing : App :=
  after (_fetchList None true (Listing (gallery 3)) started).

(** *** Invariants of the image cache *)

(** The call keeps [I], whatever its outcome. *)
Definition preserved (I : App -> Prop) {A} (m : M A) : Prop :=
  forall app, I app -> I (after (m app)).

(** The path an image loads. *)
Definition loads (i : HTMLImageElement) : option string :=
  option_map search_path (img_src i).

(** Every cached image has been made, loads the path it is cached under
    and has the class of media items, and no two paths share an image. *)
Definition cache_sound (app : App) : Prop :=
  cache_wf (_fileCache app) = true /\
  (forall k e, Cache.get (_fileCache app) k = Some e ->
     (img e < allocated app)%nat /\
     loads (heap app (img e)) = Some k /\
     In "media-item"%string (img_classList (heap app (img e)))) /\
  (forall k k' e e',
     Cache.get (_fileCache app) k = Some e ->
     Cache.get (_fileCache app) k' = Some e' ->
     img e = img e' -> k = k').

(** No video is cached as an image. *)
Definition no_video_cached (app : App) : Prop :=
  forall k, In k (map fst (_fileCache app)) -> is_video k = false.

(** The image [h] has been made, loads [file] and is cached under no
    other path. *)
Definition shows (h : handle) (file : string) (app : App) : Prop :=
  (h < allocated app)%nat /\
  loads (heap app h) = Some file /\
  (forall k e, Cache.get (_fileCache app) k = Some e -> img e = h ->
     k = file).

(** The image holder contains the media element of [file]: a video with
    its address, or an image that loads it. *)
Definition holds_media_of (file : string) (app : App) : Prop :=
  match imageHolder app with
  | Some (MediaImage h) =>
      is_video file = false /\ loads (heap app h) = Some file
  | Some (MediaVideo v) =>
      is_video file = true /\ video_src v = mkURL file None
  | None => False
  end.

(** The files next to the cursor, those that [_preloadNextAndPrevious]
    reads. *)
Definition neighbour (app : App) (f : AppFile) : Prop :=
  let fs := files (state app) in
  JS.index fs (Z.min (Z.of_nat (List.length fs) - 1) (_fileIndex app + 1))
    = Some f \/
  JS.index fs (Z.max 0 (_fileIndex app - 1)) = Some f.

(** The image holder contains the media element of the selected file, or
    nothing when no file is selected. *)
Definition holder_current (app : App) : Prop :=
  match currentFile (state app) with
  | Some file => holds_media_of file app
  | None => imageHolder app = None
  end.

(** The cache is sound and the holder shows the selection. *)
Definition shown (app : App) : Prop :=
  cache_sound app /\ holder_current app.

(** A call that returns leaves the selection shown: from a sound cache
    alone, or from a state that shows it. *)
Definition establishes {A} (m : M A) : Prop :=
  forall app a app',
    cache_sound app -> m app = Return a app' -> shown app'.

Definition maintains {A} (m : M A) : Prop :=
  forall app a app', shown app -> m app = Return a app' -> shown app'.

(** ** Facts about the JavaScript primitives *)

Section FindIndex.
Context {A : Type}.
Variable p : A -> bool.

Lemma findIndex_range (l : list A) :
  JS.findIndex p l = -1 \/
  0 <= JS.findIndex p l < Z.of_nat (List.length l).
Proof.
  induction l as [|x l IH]; simpl; [now left|].
  destruct (p x); [right; lia|].
  destruct (Z.ltb_spec (JS.findIndex p l) 0); [now left|right; lia].
Qed.

Lemma findIndex_none (l : list A) :
  JS.findIndex p l = -1 <-> (forall x, In x l -> p x = false).
Proof.
  induction l as [|x l IH]; simpl.
  - split; [intros _ y []|reflexivity].
  - destruct (p x) eqn:Hx.
    + split; [discriminate|].
      intros H. specialize (H x (or_introl eq_refl)). congruence.
    + destruct (Z.ltb_spec (JS.findIndex p l) 0) as [Hlt|Hge].
      * split; [|reflexivity]. intros _ y [<-|Hy]; [assumption|].
        apply IH; [|assumption].
        destruct (findIndex_range l); lia.
      * split; [lia|]. intros H.
        assert (JS.findIndex p l = -1) by (apply IH; auto). lia.
Qed.

(** A non-negative result is the position of the first element that
    satisfies the predicate. *)
Lemma findIndex_first (l : list A) (i : Z) :
  JS.findIndex p l = i -> 0 <= i ->
  exists x, nth_error l (Z.to_nat i) = Some x /\ p x = true /\
    forall j y, (j < Z.to_nat i)%nat -> nth_error l j = Some y ->
                p y = false.
Proof.
  revert i. induction l as [|x l IH]; simpl; intros i Hi Hpos; [lia|].
  destruct (p x) eqn:Hx.
  - subst i. exists x. repeat split; auto. intros j y Hj. simpl in Hj. lia.
  - destruct (Z.ltb_spec (JS.findIndex p l) 0) as [Hlt|Hge]; [lia|].
    destruct (IH (JS.findIndex p l) eq_refl Hge) as (y & Hn & Hy & Hfirst).
    exists y. subst i.
    replace (Z.to_nat (JS.findIndex p l + 1))
      with (S (Z.to_nat (JS.findIndex p l))) by lia.
    repeat split; auto.
    intros [|j] z Hj Hz; simpl in Hz.
    + congruence.
    + apply (Hfirst j); [lia|assumption].
Qed.

Lemma findIndex_found (l : list A) :
  (exists x, In x l /\ p x = true) -> 0 <= JS.findIndex p l.
Proof.
  intros (x & Hin & Hx).
  destruct (findIndex_range l) as [Hnone|]; [|lia].
  apply findIndex_none with (x := x) in Hnone; [congruence|assumption].
Qed.
End FindIndex.

Lemma index_in_range {A} (l : list A) (i : Z) :
  0 <= i < Z.of_nat (List.length l) -> exists x, JS.index l i = Some x.
Proof.
  intros Hi. unfold JS.index.
  destruct (Z.ltb_spec i 0); [lia|].
  destruct (nth_error l (Z.to_nat i)) eqn:E; [eauto|].
  apply nth_error_None in E. lia.
Qed.

(** *** The sort *)

Section SortAnyComparator.
Context {A : Type}.
Variable cmp : A -> A -> Z.

Lemma insert_Permutation (x : A) (l : list A) :
  Permutation (JS.insert cmp x l) (x :: l).
Proof.
  induction l as [|y l IH]; simpl; [reflexivity|].
  destruct (cmp y x <? 0); [|reflexivity].
  rewrite IH. apply perm_swap.
Qed.

Lemma sort_Permutation (l : list A) : Permutation (JS.sort cmp l) l.
Proof.
  induction l as [|x l IH]; simpl; [constructor|].
  rewrite insert_Permutation. now constructor.
Qed.

Lemma sort_In (l : list A) (x : A) : In x (JS.sort cmp l) <-> In x l.
Proof.
  split; apply Permutation_in;
    [|symmetry]; apply sort_Permutation.
Qed.

End SortAnyComparator.

(** Two comparators that agree wherever the sort calls them give the same
    result: an element is only compared with those that follow it. *)
Lemma insert_ext {A} (c1 c2 : A -> A -> Z) (x : A) (l : list A) :
  (forall y, In y l -> c1 y x = c2 y x) ->
  JS.insert c1 x l = JS.insert c2 x l.
Proof.
  induction l as [|y l IH]; simpl; intros H; [reflexivity|].
  rewrite (H y (or_introl eq_refl)).
  destruct (c2 y x <? 0); [|reflexivity].
  f_equal. apply IH. intros z Hz. apply H. now right.
Qed.

Lemma sort_ext {A} (c1 c2 : A -> A -> Z) (l : list A) :
  ForallOrdPairs (fun x y => c1 y x = c2 y x) l ->
  JS.sort c1 l = JS.sort c2 l.
Proof.
  induction 1 as [|x l Hx Hl IH]; simpl; [reflexivity|].
  rewrite IH. apply insert_ext.
  intros y Hy. apply sort_In in Hy.
  rewrite Forall_forall in Hx. now apply Hx.
Qed.

Section SortConsistent.
Context {A : Type}.
Variable cmp : A -> A -> Z.
Hypothesis consistent : consistent_comparator cmp.

Let le (a b : A) : Prop := cmp a b <= 0.

Lemma comparator_refl a : cmp a a = 0.
Proof. destruct consistent as (H & _). apply H. Qed.

Lemma comparator_sym a b : cmp a b = 0 -> cmp b a = 0.
Proof. destruct consistent as (_ & H & _). apply H. Qed.

Lemma comparator_flip_lt a b : cmp a b < 0 -> cmp b a > 0.
Proof.
  destruct consistent as (Hr & Hs & _ & Hlt & _). intros H.
  destruct (Z.lt_trichotomy (cmp b a) 0) as [H1|[H1|H1]]; [| |lia].
  - specialize (Hlt a b a H H1). rewrite Hr in Hlt. lia.
  - apply Hs in H1. lia.
Qed.

Lemma comparator_flip_gt a b : cmp a b > 0 -> cmp b a < 0.
Proof.
  destruct consistent as (Hr & Hs & _ & _ & Hgt). intros H.
  destruct (Z.lt_trichotomy (cmp b a) 0) as [H1|[H1|H1]]; [lia| |].
  - apply Hs in H1. lia.
  - specialize (Hgt a b a H ltac:(lia)). rewrite Hr in Hgt. lia.
Qed.

Lemma comparator_le_total a b : le a b \/ le b a.
Proof.
  unfold le. destruct (Z.lt_trichotomy (cmp a b) 0) as [H|[H|H]];
    [left; lia|left; lia|right].
  apply Z.lt_gt, comparator_flip_gt in H. lia.
Qed.

Lemma comparator_le_trans a b c : le a b -> le b c -> le a c.
Proof.
  destruct consistent as (Hr & Hs & He & Hlt & Hgt).
  unfold le. intros Hab Hbc.
  destruct (Z.lt_trichotomy (cmp a c) 0) as [H|[H|H]]; [lia|lia|exfalso].
  apply Z.lt_gt in H. pose proof (comparator_flip_gt _ _ H) as Hca.
  destruct (Z.eq_dec (cmp a b) 0) as [Eab|Nab];
    destruct (Z.eq_dec (cmp b c) 0) as [Ebc|Nbc].
  - specialize (He _ _ _ Eab Ebc). lia.
  - assert (Hbc' : cmp b c < 0) by lia.
    specialize (Hlt _ _ _ Hbc' Hca). apply comparator_flip_lt in Hlt. lia.
  - assert (Hab' : cmp a b < 0) by lia.
    specialize (Hlt _ _ _ Hca Hab'). apply comparator_flip_lt in Hlt. lia.
  - specialize (Hlt a b c ltac:(lia) ltac:(lia)). lia.
Qed.

Lemma equal_to_both a x y : cmp a x = 0 -> cmp a y = 0 -> cmp y x = 0.
Proof.
  destruct consistent as (_ & Hs & He & _). intros Hx Hy.
  apply (He y a x); [now apply Hs|assumption].
Qed.

Lemma insert_sorted (x : A) (l : list A) :
  sorted_by cmp l -> sorted_by cmp (JS.insert cmp x l).
Proof.
  unfold sorted_by. induction 1 as [|y l Hs IH Hy]; simpl.
  - repeat constructor.
  - destruct (Z.ltb_spec (cmp y x) 0) as [Hlt|Hge].
    + constructor; [assumption|].
      rewrite (insert_Permutation cmp x l).
      constructor; [lia|assumption].
    + assert (Hxy : le x y).
      { destruct (comparator_le_total x y) as [H|H]; [assumption|].
        unfold le in *. assert (E : cmp y x = 0) by lia.
        apply comparator_sym in E. lia. }
      constructor; [now constructor|].
      constructor; [assumption|].
      eapply Forall_impl; [|exact Hy].
      intros z Hz. now apply (comparator_le_trans x y z).
Qed.

Lemma sort_sorted (l : list A) : sorted_by cmp (JS.sort cmp l).
Proof.
  induction l as [|x l IH]; simpl; [constructor|].
  now apply insert_sorted.
Qed.

Lemma insert_equals_of (a x : A) (l : list A) :
  equals_of cmp a (JS.insert cmp x l) = equals_of cmp a (x :: l).
Proof.
  unfold equals_of. induction l as [|y l IH]; [reflexivity|].
  simpl JS.insert. destruct (Z.ltb_spec (cmp y x) 0) as [Hlt|Hge];
    [|reflexivity].
  cbn [filter]. rewrite IH. cbn [filter].
  destruct (Z.eqb_spec (cmp a x) 0) as [Ex|Nx];
    destruct (Z.eqb_spec (cmp a y) 0) as [Ey|Ny]; try reflexivity.
  pose proof (equal_to_both a x y Ex Ey). lia.
Qed.

Lemma sort_keeps_order (l : list A) :
  keeps_order_of_equals cmp l (JS.sort cmp l).
Proof.
  intros a. induction l as [|x l IH]; [reflexivity|].
  simpl JS.sort. rewrite insert_equals_of.
  unfold equals_of in *. cbn [filter]. now rewrite IH.
Qed.

(** At most one arrangement is sorted and keeps equal elements in
    order. *)
Lemma stable_sorted_unique (l1 l2 : list A) :
  sorted_by cmp l1 -> sorted_by cmp l2 ->
  keeps_order_of_equals cmp l1 l2 -> l1 = l2.
Proof.
  unfold keeps_order_of_equals, equals_of.
  revert l2. induction l1 as [|x l1 IH]; intros l2 S1 S2 K.
  - destruct l2 as [|y l2]; [reflexivity|].
    specialize (K y). cbn [filter] in K. rewrite comparator_refl in K.
    discriminate.
  - destruct l2 as [|y l2].
    { specialize (K x). cbn [filter] in K. rewrite comparator_refl in K.
      discriminate. }
    apply StronglySorted_inv in S1 as [S1 F1].
    apply StronglySorted_inv in S2 as [S2 F2].
    assert (Exy : x = y).
    { pose proof (K x) as Kx. cbn [filter] in Kx. rewrite comparator_refl in Kx.
      cbn in Kx.
      destruct (Z.eqb_spec (cmp x y) 0) as [E|N]; [congruence|].
      exfalso.
      assert (Hx : In x l2).
      { assert (Hin : In x (filter (fun b => cmp x b =? 0) l2))
          by (rewrite Kx; now left).
        now apply filter_In in Hin. }
      assert (Hy : In y l1).
      { pose proof (K y) as Ky. cbn [filter] in Ky.
        rewrite comparator_refl in Ky. cbn in Ky.
        destruct (Z.eqb_spec (cmp y x) 0) as [E|_];
          [apply comparator_sym in E; contradiction|].
        assert (Hin : In y (filter (fun b => cmp y b =? 0) l1))
          by (rewrite <- Ky; now left).
        now apply filter_In in Hin. }
      rewrite Forall_forall in F1, F2.
      specialize (F1 y Hy). specialize (F2 x Hx). cbn in F1, F2.
      assert (Hyx : cmp y x < 0).
      { destruct (Z.eq_dec (cmp y x) 0) as [E|]; [|lia].
        apply comparator_sym in E. contradiction. }
      apply comparator_flip_lt in Hyx. lia. }
    subst y. f_equal. apply IH; try assumption.
    intros a. specialize (K a). cbn [filter] in K.
    destruct (cmp a x =? 0); congruence.
Qed.

Lemma sort_unique (l l' : list A) :
  sorted_by cmp l' -> keeps_order_of_equals cmp l l' ->
  l' = JS.sort cmp l.
Proof.
  intros S K. symmetry. apply stable_sorted_unique.
  - apply sort_sorted.
  - assumption.
  - intros a. rewrite K. symmetry. apply sort_keeps_order.
Qed.
End SortConsistent.

(** *** Comparators that compare a key *)

Lemma consistent_comparator_ext {A} (c1 c2 : A -> A -> Z) :
  (forall a b, c1 a b = c2 a b) ->
  consistent_comparator c1 -> consistent_comparator c2.
Proof.
  intros E (Hr & Hs & He & Hlt & Hgt).
  repeat split; intros *; rewrite <- ?E; eauto.
Qed.

Section KeyComparator.
Context {A K : Type}.
Variable key : A -> K.
Variables eqb ltb : K -> K -> bool.
Let kcmp := key_comparefn key eqb ltb.
Hypothesis eqb_eq : forall k k', eqb k k' = true <-> k = k'.
Hypothesis ltb_irrefl : forall k, ltb k k = false.
Hypothesis ltb_trans :
  forall k k' k'', ltb k k' = true -> ltb k' k'' = true -> ltb k k'' = true.
Hypothesis ltb_total :
  forall k k', eqb k k' = false -> ltb k k' = false -> ltb k' k = true.

Lemma key_ltb_asym k k' : ltb k k' = true -> ltb k' k = false.
Proof.
  intros H. destruct (ltb k' k) eqn:E; [|reflexivity].
  pose proof (ltb_trans _ _ _ H E) as C. rewrite ltb_irrefl in C.
  discriminate.
Qed.

Lemma key_eqb_refl k : eqb k k = true.
Proof. now apply eqb_eq. Qed.

Lemma key_comparefn_cases (lower upper : Z) (a b : A) :
  (key a = key b /\ kcmp lower upper a b = 0) \/
  (ltb (key a) (key b) = true /\ key a <> key b /\
   kcmp lower upper a b = lower) \/
  (ltb (key b) (key a) = true /\ key a <> key b /\
   kcmp lower upper a b = upper).
Proof.
  unfold kcmp, key_comparefn.
  destruct (eqb (key a) (key b)) eqn:E.
  - left. split; [now apply eqb_eq|reflexivity].
  - assert (key a <> key b).
    { intros C. apply eqb_eq in C. congruence. }
    destruct (ltb (key a) (key b)) eqn:L; [now right; left|].
    right; right. repeat split; auto.
Qed.

Lemma key_comparefn_consistent (lower upper : Z) :
  lower * upper < 0 ->
  consistent_comparator (kcmp lower upper).
Proof.
  intros Hsign.
  assert (Hcase : forall a b,
    (key a = key b /\ kcmp lower upper a b = 0) \/
    (ltb (key a) (key b) = true /\ ltb (key b) (key a) = false /\
     key a <> key b /\ kcmp lower upper a b = lower) \/
    (ltb (key b) (key a) = true /\ ltb (key a) (key b) = false /\
     key a <> key b /\ kcmp lower upper a b = upper)).
  { intros a b.
    destruct (key_comparefn_cases lower upper a b)
      as [?|[(L & N & E)|(L & N & E)]]; [now left| |].
    - right; left. repeat split; auto using key_ltb_asym.
    - right; right. repeat split; auto using key_ltb_asym. }
  assert (Hl : lower <> 0) by nia. assert (Hu : upper <> 0) by nia.
  repeat split.
  - intros a. unfold kcmp, key_comparefn. now rewrite key_eqb_refl.
  - intros a b H.
    destruct (Hcase a b) as [(E & _)|[(_ & _ & _ & E)|(_ & _ & _ & E)]];
      try congruence.
    unfold kcmp, key_comparefn. rewrite E. now rewrite key_eqb_refl.
  - intros a b c Hab Hbc.
    destruct (Hcase a b) as [(E1 & _)|[(_ & _ & _ & E)|(_ & _ & _ & E)]];
      try congruence.
    destruct (Hcase b c) as [(E2 & _)|[(_ & _ & _ & E)|(_ & _ & _ & E)]];
      try congruence.
    unfold kcmp, key_comparefn. rewrite E1, E2. now rewrite key_eqb_refl.
  - intros a b c Hab Hbc.
    destruct (Hcase a b) as [(_ & E1)|[(L1 & _ & _ & E1)|(L1 & _ & _ & E1)]];
      [lia| |];
    (destruct (Hcase b c)
       as [(_ & E2)|[(L2 & _ & _ & E2)|(L2 & _ & _ & E2)]]; [lia| |]);
    try nia.
    + pose proof (ltb_trans _ _ _ L1 L2) as L.
      destruct (Hcase a c) as [(E & _)|[(_ & _ & _ & E)|(L3 & L4 & _)]];
        [rewrite E in L; rewrite ltb_irrefl in L; discriminate
        |lia|congruence].
    + pose proof (ltb_trans _ _ _ L2 L1) as L.
      destruct (Hcase a c) as [(E & _)|[(L3 & L4 & _)|(_ & _ & _ & E)]];
        [rewrite E in L; rewrite ltb_irrefl in L; discriminate
        |congruence|lia].
  - intros a b c Hab Hbc.
    destruct (Hcase a b) as [(_ & E1)|[(L1 & _ & _ & E1)|(L1 & _ & _ & E1)]];
      [lia| |];
    (destruct (Hcase b c)
       as [(_ & E2)|[(L2 & _ & _ & E2)|(L2 & _ & _ & E2)]]; [lia| |]);
    try nia.
    + pose proof (ltb_trans _ _ _ L1 L2) as L.
      destruct (Hcase a c) as [(E & _)|[(_ & _ & _ & E)|(L3 & L4 & _)]];
        [rewrite E in L; rewrite ltb_irrefl in L; discriminate
        |lia|congruence].
    + pose proof (ltb_trans _ _ _ L2 L1) as L.
      destruct (Hcase a c) as [(E & _)|[(L3 & L4 & _)|(_ & _ & _ & E)]];
        [rewrite E in L; rewrite ltb_irrefl in L; discriminate
        |congruence|lia].
Qed.
End KeyComparator.

(** The order of strings by code unit. *)
Lemma string_compare_refl (s : string) : String.compare s s = Eq.
Proof.
  pose proof (String.compare_antisym s s) as H.
  destruct (String.compare s s); simpl in H; congruence.
Qed.

Lemma string_ltb_irrefl (s : string) : String.ltb s s = false.
Proof. unfold String.ltb. now rewrite string_compare_refl. Qed.

Lemma string_ltb_trans (s t u : string) :
  String.ltb s t = true -> String.ltb t u = true -> String.ltb s u = true.
Proof.
  unfold String.ltb. intros H1 H2.
  destruct (String.compare s t) eqn:E1; try discriminate.
  destruct (String.compare t u) eqn:E2; try discriminate.
  apply String_as_OT.cmp_lt in E1, E2.
  pose proof (String_as_OT.lt_trans _ _ _ E1 E2) as L.
  apply String_as_OT.cmp_lt in L. unfold String_as_OT.cmp in L.
  now rewrite L.
Qed.

Lemma string_ltb_total (s t : string) :
  String.eqb s t = false -> String.ltb s t = false -> String.ltb t s = true.
Proof.
  unfold String.ltb. intros N L.
  rewrite (String.compare_antisym t s).
  destruct (String.compare s t) eqn:E; simpl; try discriminate; auto.
  apply String.compare_eq_iff in E. apply String.eqb_neq in N. contradiction.
Qed.

Lemma Z_ltb_total (n m : Z) : (n =? m) = false -> (n <? m) = false ->
  (m <? n) = true.
Proof. intros H1 H2. apply Z.eqb_neq in H1. apply Z.ltb_ge in H2.
  apply Z.ltb_lt. lia. Qed.

Lemma Z_ltb_trans (n m k : Z) :
  (n <? m) = true -> (m <? k) = true -> (n <? k) = true.
Proof. rewrite !Z.ltb_lt. lia. Qed.

(** *** The file comparator *)

Lemma files_comparefn_name (order : SortOrder) (a b : AppFile) :
  Sorter.files_comparefn name order a b =
  key_comparefn (fun f => Sorter.normalize (file_name f))
    String.eqb String.ltb (lower_sign order) (upper_sign order) a b.
Proof. destruct order; reflexivity. Qed.

Lemma files_comparefn_mtime (order : SortOrder) (a b : AppFile) :
  Sorter.files_comparefn mtime order a b =
  key_comparefn file_mtime Z.eqb Z.ltb
    (lower_sign order) (upper_sign order) a b.
Proof. destruct order; reflexivity. Qed.

Lemma files_comparefn_consistent (by_ : SortBy) (order : SortOrder) :
  consistent_comparator (Sorter.files_comparefn by_ order).
Proof.
  destruct by_.
  - eapply consistent_comparator_ext;
      [intros a b; symmetry; apply files_comparefn_name|].
    apply key_comparefn_consistent.
    + apply String.eqb_eq.
    + apply string_ltb_irrefl.
    + apply string_ltb_trans.
    + apply string_ltb_total.
    + destruct order; reflexivity.
  - eapply consistent_comparator_ext;
      [intros a b; symmetry; apply files_comparefn_mtime|].
    apply key_comparefn_consistent.
    + apply Z.eqb_eq.
    + apply Z.ltb_irrefl.
    + apply Z_ltb_trans.
    + apply Z_ltb_total.
    + destruct order; reflexivity.
Qed.

Lemma files_comparefn_desc (by_ : SortBy) (a b : AppFile) :
  Sorter.files_comparefn by_ desc a b = - Sorter.files_comparefn by_ asc a b.
Proof.
  unfold Sorter.files_comparefn. simpl.
  destruct (Sorter.strict_eq _ _); [reflexivity|].
  destruct (Sorter.less_than _ _); reflexivity.
Qed.












(** ** Facts about the cache object *)

Lemma get_set_same (c : Cache.t) (k : string) (e : CacheEntry) :
  Cache.get (Cache.set c k e) k = Some e.
Proof.
  induction c as [|[k' e'] c IH]; simpl.
  - now rewrite String.eqb_refl.
  - destruct (String.eqb_spec k' k) as [->|N]; simpl.
    + now rewrite String.eqb_refl.
    + destruct (String.eqb_spec k' k); [contradiction|assumption].
Qed.

Lemma get_In (c : Cache.t) (k : string) :
  In k (map fst c) <-> exists e, Cache.get c k = Some e.
Proof.
  induction c as [|[k' e'] c IH]; simpl.
  - split; [intros []|intros (e & H); discriminate].
  - destruct (String.eqb_spec k' k) as [->|N].
    + split; eauto.
    + rewrite <- IH. split; [intros [?|?]; [contradiction|assumption]|auto].
Qed.

Lemma set_keys (c : Cache.t) (k : string) (e : CacheEntry) :
  map fst (Cache.set c k e) =
  if Cache.hasOwnProperty c k then map fst c else (map fst c ++ [k])%list.
Proof.
  unfold Cache.hasOwnProperty.
  induction c as [|[k' e'] c IH]; simpl; [reflexivity|].
  destruct (String.eqb_spec k' k) as [->|N]; simpl; [reflexivity|].
  rewrite IH. now destruct (Cache.get c k).
Qed.

Lemma set_length (c : Cache.t) (k : string) (e : CacheEntry) :
  List.length (Cache.set c k e) =
  if Cache.hasOwnProperty c k then List.length c else S (List.length c).
Proof.
  rewrite <- (length_map fst (Cache.set c k e)), set_keys.
  destruct (Cache.hasOwnProperty c k);
    rewrite ?length_app, length_map; simpl; lia.
Qed.

Lemma get_delete_same (c : Cache.t) (k : string) :
  Cache.get (Cache.delete c k) k = None.
Proof.
  unfold Cache.delete. induction c as [|[k' e'] c IH]; simpl; [reflexivity|].
  destruct (String.eqb_spec k' k) as [->|N]; simpl; [assumption|].
  destruct (String.eqb_spec k' k); [contradiction|assumption].
Qed.

Lemma get_delete_other (c : Cache.t) (k k' : string) :
  k <> k' -> Cache.get (Cache.delete c k) k' = Cache.get c k'.
Proof.
  unfold Cache.delete. intros N.
  induction c as [|[k0 e0] c IH]; simpl; [reflexivity|].
  destruct (String.eqb_spec k0 k) as [->|N0]; simpl.
  - destruct (String.eqb_spec k k'); [contradiction|assumption].
  - now rewrite IH.
Qed.

Lemma distinct_NoDup (l : list string) : distinct l = true <-> NoDup l.
Proof.
  induction l as [|k l IH]; simpl.
  - split; [constructor|reflexivity].
  - rewrite andb_true_iff, negb_true_iff, IH. split.
    + intros [H1 H2]. constructor; [|assumption].
      intros Hin. assert (existsb (String.eqb k) l = true); [|congruence].
      apply existsb_exists. exists k. split; [assumption|].
      apply String.eqb_refl.
    + intros H. inversion H as [|? ? Hn Hd]; subst. split; [|assumption].
      destruct (existsb (String.eqb k) l) eqn:E; [|reflexivity].
      apply existsb_exists in E as (x & Hx & Ex).
      apply String.eqb_eq in Ex. subst x. contradiction.
Qed.

Lemma set_wf (c : Cache.t) (k : string) (e : CacheEntry) :
  cache_wf c = true -> cache_wf (Cache.set c k e) = true.
Proof.
  unfold cache_wf. rewrite !distinct_NoDup, set_keys.
  intros H. destruct (Cache.hasOwnProperty c k) eqn:E; [assumption|].
  apply NoDup_app; [assumption|repeat constructor; intros []|].
  intros x Hx [<-|[]]. unfold Cache.hasOwnProperty in E.
  apply get_In in Hx as (e' & He'). now rewrite He' in E.
Qed.

Lemma delete_wf (c : Cache.t) (k : string) :
  cache_wf c = true -> cache_wf (Cache.delete c k) = true.
Proof.
  unfold cache_wf, Cache.delete. rewrite !distinct_NoDup.
  induction c as [|[k' e'] c IH]; simpl; intros H; [assumption|].
  inversion H as [|? ? Hn Hd]; subst.
  destruct (String.eqb k' k); simpl; [auto|].
  constructor; [|auto]. intros Hin. apply Hn.
  apply in_map_iff in Hin as (p & Hp & Hin). apply filter_In in Hin as [Hin _].
  apply in_map_iff. eauto.
Qed.

Lemma delete_length (c : Cache.t) (k : string) :
  cache_wf c = true -> In k (map fst c) ->
  S (List.length (Cache.delete c k)) = List.length c.
Proof.
  unfold cache_wf, Cache.delete. rewrite distinct_NoDup.
  induction c as [|[k' e'] c IH]; simpl; intros H Hin; [contradiction|].
  inversion H as [|? ? Hn Hd]; subst.
  destruct (String.eqb_spec k' k) as [->|N]; simpl.
  - f_equal. clear IH H Hin Hd. induction c as [|[k0 e0] c IH]; simpl;
      [reflexivity|].
    simpl in Hn. destruct (String.eqb_spec k0 k) as [->|N0]; simpl.
    + exfalso. apply Hn. now left.
    + f_equal. apply IH. intros Hin. apply Hn. now right.
  - f_equal. apply IH; [assumption|].
    destruct Hin as [?|?]; [contradiction|assumption].
Qed.

Lemma filter_partition_Permutation {A} (p : A -> bool) (l : list A) :
  Permutation (filter p l ++ filter (fun x => negb (p x)) l)%list l.
Proof.
  induction l as [|x l IH]; simpl; [constructor|].
  destruct (p x); simpl.
  - now constructor.
  - rewrite <- Permutation_middle. now constructor.
Qed.

Lemma keys_Permutation (c : Cache.t) :
  Permutation (Cache.keys c) (map fst c).
Proof.
  unfold Cache.keys. rewrite sort_Permutation.
  apply filter_partition_Permutation.
Qed.

Lemma keys_length (c : Cache.t) :
  List.length (Cache.keys c) = List.length c.
Proof.
  rewrite (Permutation_length (keys_Permutation c)). apply length_map.
Qed.

Lemma keys_get (c : Cache.t) (k : string) :
  In k (Cache.keys c) -> exists e, Cache.get c k = Some e.
Proof.
  intros H. apply get_In.
  eapply Permutation_in; [apply keys_Permutation|assumption].
Qed.

(** ** Reasoning about methods *)

Lemma ok_ret {A} (a : A) (app : App) (Q : A -> App -> Prop) :
  Q a app -> ok (ret a) app Q.
Proof. intros H. exists a, app. now split. Qed.

Lemma ok_bind {A B} (m : M A) (k : A -> M B) (app : App)
    (P : A -> App -> Prop) (Q : B -> App -> Prop) :
  ok m app P ->
  (forall a app', P a app' -> ok (k a) app' Q) ->
  ok (bind m k) app Q.
Proof.
  intros (a & app1 & E & HP) Hk.
  destruct (Hk a app1 HP) as (b & app2 & E2 & HQ).
  exists b, app2. split; [|assumption].
  unfold bind. now rewrite E.
Qed.

Lemma ok_gets {A} (f : App -> A) (app : App) (Q : A -> App -> Prop) :
  Q (f app) app -> ok (gets f) app Q.
Proof. intros H. exists (f app), app. now split. Qed.

Lemma ok_modify (f : App -> App) (app : App) (Q : unit -> App -> Prop) :
  Q tt (f app) -> ok (modify f) app Q.
Proof. intros H. exists tt, (f app). now split. Qed.

Lemma ok_weaken {A} (m : M A) (app : App) (P Q : A -> App -> Prop) :
  ok m app P -> (forall a app', P a app' -> Q a app') -> ok m app Q.
Proof. intros (a & app' & E & H) HPQ. exists a, app'. auto. Qed.

Lemma media_only_refl (app : App) : media_only app app.
Proof. repeat split. Qed.

Lemma media_only_trans (a b c : App) :
  media_only a b -> media_only b c -> media_only a c.
Proof.
  unfold media_only.
  intros (H1 & H2 & H3 & H4 & H5 & H6) (G1 & G2 & G3 & G4 & G5 & G6).
  repeat split; congruence.
Qed.

Ltac run :=
  unfold bind, gets, modify, modify_state, ret, defined, throw, cache_entry,
    Date_now, new_Image, assign_src, classList_add, update_image, save;
  cbn.

(** *** [_getImage] *)

(** A path that is not cached: a new image is made for it. *)
Lemma _getImage_new (file : string) (app : App) :
  Cache.get (_fileCache app) file = None ->
  exists app',
    _getImage file app = Return (allocated app) app' /\
    media_only app app' /\
    imageHolder app' = imageHolder app /\
    _fileCache app' =
      Cache.set (_fileCache app) file
        (mkEntry (allocated app) (clock app (ticks app))) /\
    allocated app' = S (allocated app) /\
    heap app' (allocated app) =
      mkImage
        (Some (mkURL file
           (if JS.endsWith file ".gif"
            then Some (clock app (S (ticks app))) else None)))
        ["media-item"] /\
    (forall h, h <> allocated app -> heap app' h = heap app h) /\
    ticks app' =
      (if JS.endsWith file ".gif" then S (S (ticks app)) else S (ticks app)).
Proof.
  intros E. unfold _getImage, Cache.hasOwnProperty. run.
  repeat (first [rewrite E|rewrite get_set_same]; cbn).
  destruct (JS.endsWith file ".gif"); cbn;
    repeat (rewrite get_set_same; cbn);
    eexists; (split; [reflexivity|]); cbn;
    rewrite ?Nat.eqb_refl; repeat split;
    intros h Hh; apply Nat.eqb_neq in Hh; now rewrite ?Hh.
Qed.

(** A cached path that is not a [.gif]: only the time of its entry and
    the count of clock readings change. *)
Lemma _getImage_cached (file : string) (e : CacheEntry) (app : App) :
  Cache.get (_fileCache app) file = Some e ->
  JS.endsWith file ".gif" = false ->
  _getImage file app =
  Return (img e)
    (set_fileCache
       (Cache.set (_fileCache app) file
          (mkEntry (img e) (clock app (ticks app))))
       (set_ticks (S (ticks app)) app)).
Proof.
  intros E G. unfold _getImage, Cache.hasOwnProperty. run.
  repeat (first [rewrite E|rewrite G|rewrite get_set_same]; cbn).
  reflexivity.
Qed.

(** A cached [.gif]: the same image, whose [src] is assigned again with
    the clock value read for it. *)
Lemma _getImage_cached_gif (file : string) (e : CacheEntry) (app : App) :
  Cache.get (_fileCache app) file = Some e ->
  JS.endsWith file ".gif" = true ->
  exists app',
    _getImage file app = Return (img e) app' /\
    media_only app app' /\
    imageHolder app' = imageHolder app /\
    _fileCache app' =
      Cache.set (_fileCache app) file
        (mkEntry (img e) (clock app (ticks app))) /\
    allocated app' = allocated app /\
    heap app' (img e) =
      mkImage (Some (mkURL file (Some (clock app (S (ticks app))))))
        (img_classList (heap app (img e))) /\
    (forall h, h <> img e -> heap app' h = heap app h) /\
    ticks app' = S (S (ticks app)).
Proof.
  intros E G. unfold _getImage, Cache.hasOwnProperty. run.
  repeat (first [rewrite E|rewrite G|rewrite get_set_same]; cbn).
  eexists; (split; [reflexivity|]); cbn.
  rewrite ?Nat.eqb_refl; repeat split.
  intros h Hh; apply Nat.eqb_neq in Hh; now rewrite ?Hh.
Qed.

(** In every case the call returns the image of the entry it leaves in
    the cache, and changes the number of entries by what it adds. *)
Lemma _getImage_ok (file : string) (app : App) :
  ok (_getImage file) app (fun h app' =>
    media_only app app' /\
    imageHolder app' = imageHolder app /\
    _fileCache app' =
      Cache.set (_fileCache app) file (mkEntry h (clock app (ticks app)))).
Proof.
  destruct (Cache.get (_fileCache app) file) as [e|] eqn:E.
  - destruct (JS.endsWith file ".gif") eqn:G.
    + destruct (_getImage_cached_gif file e app E G)
        as (app' & R & F & H & C & _).
      exists (img e), app'. auto.
    + exists (img e). eexists. split; [now apply _getImage_cached|].
      cbn. repeat split.
  - destruct (_getImage_new file app E) as (app' & R & F & H & C & _).
    exists (allocated app), app'. auto.
Qed.

(** *** [_cleanupCache] *)

Lemma older_returns (a b : string) (ea eb : CacheEntry) (app : App) :
  Cache.get (_fileCache app) a = Some ea ->
  Cache.get (_fileCache app) b = Some eb ->
  older a b app = Return (if ts ea <? ts eb then a else b) app.
Proof. intros Ea Eb. unfold older. run. rewrite Ea. cbn. now rewrite Eb. Qed.

Lemma reduce_from_older (l : list string) (a : string) (app : App) :
  (forall k, In k (a :: l) -> exists e, Cache.get (_fileCache app) k = Some e)
  ->
  exists k,
    reduce_from older a l app = Return k app /\
    exists l1 l2,
      a :: l = (l1 ++ k :: l2)%list /\
      (forall b, In b l1 -> ts_of (_fileCache app) k <= ts_of (_fileCache app) b) /\
      (forall b, In b l2 -> ts_of (_fileCache app) k < ts_of (_fileCache app) b).
Proof.
  revert a. induction l as [|b l IH]; intros a Hin.
  - exists a. split; [reflexivity|]. exists [], []. repeat split; intros ? [].
  - destruct (Hin a (or_introl eq_refl)) as (ea & Ea).
    destruct (Hin b (or_intror (or_introl eq_refl))) as (eb & Eb).
    cbn [reduce_from]. unfold bind.
    rewrite (older_returns a b ea eb app Ea Eb).
    assert (Ta : ts_of (_fileCache app) a = ts ea)
      by (unfold ts_of; now rewrite Ea).
    assert (Tb : ts_of (_fileCache app) b = ts eb)
      by (unfold ts_of; now rewrite Eb).
    destruct (Z.ltb_spec (ts ea) (ts eb)) as [Hlt|Hge].
    + destruct (IH a) as (k & R & l1 & l2 & Hs & H1 & H2).
      { intros k [<-|Hk]; [eauto|]. apply Hin. right. now right. }
      exists k. split; [assumption|].
      destruct l1 as [|x l1]; cbn in Hs; injection Hs as -> ->.
      * exists [], (b :: l2). repeat split; [intros ? []|].
        intros c [<-|Hc]; [lia|auto].
      * exists (x :: b :: l1), l2. repeat split; [|assumption].
        intros c [<-|[<-|Hc]]; [apply H1; now left| |apply H1; now right].
        specialize (H1 x (or_introl eq_refl)). lia.
    + destruct (IH b) as (k & R & l1 & l2 & Hs & H1 & H2).
      { intros k Hk. apply Hin. now right. }
      exists k. split; [assumption|].
      exists (a :: l1), l2. rewrite Hs. repeat split; [|assumption].
      intros c [<-|Hc]; [|auto].
      destruct l1 as [|x l1]; cbn in Hs; injection Hs as Hb _.
      * rewrite <- Hb. lia.
      * specialize (H1 x (or_introl eq_refl)). rewrite <- Hb in H1. lia.
Qed.

Lemma _cleanupCache_small (app : App) :
  cache_size app <= MAX_CACHED_IMAGES -> _cleanupCache app = Return tt app.
Proof.
  unfold cache_size, _cleanupCache. intros H. run.
  rewrite keys_length.
  destruct (Z.ltb_spec MAX_CACHED_IMAGES
              (Z.of_nat (List.length (_fileCache app)))); [lia|reflexivity].
Qed.

Lemma _cleanupCache_full (app : App) :
  MAX_CACHED_IMAGES < cache_size app ->
  exists k,
    _cleanupCache app =
      Return tt (set_fileCache (Cache.delete (_fileCache app) k) app) /\
    last_oldest (_fileCache app) (Cache.keys (_fileCache app)) k.
Proof.
  unfold cache_size, _cleanupCache. intros H. run.
  rewrite keys_length.
  destruct (Z.ltb_spec MAX_CACHED_IMAGES
              (Z.of_nat (List.length (_fileCache app)))); [|lia].
  pose proof (keys_get (_fileCache app)) as Hget.
  pose proof (keys_length (_fileCache app)) as Hlen.
  destruct (Cache.keys (_fileCache app)) as [|a l] eqn:K.
  - cbn in Hlen. unfold MAX_CACHED_IMAGES in *. lia.
  - cbn [reduce].
    destruct (reduce_from_older l a app Hget) as (k & R & Hk).
    exists k. rewrite R. split; [reflexivity|exact Hk].
Qed.

Lemma _cleanupCache_ok (app : App) :
  ok _cleanupCache app (fun _ app' =>
    media_only app app' /\ imageHolder app' = imageHolder app).
Proof.
  destruct (Z.le_gt_cases (cache_size app) MAX_CACHED_IMAGES) as [H|H].
  - exists tt, app. split; [now apply _cleanupCache_small|].
    split; [apply media_only_refl|reflexivity].
  - destruct (_cleanupCache_full app H) as (k & R & _).
    exists tt. eexists. split; [exact R|]. repeat split.
Qed.

(** *** Rendering *)

Lemma volume_or_default_valid (v : Q) :
  Qle_bool 0 v && Qle_bool v 1 = true ->
  Qle_bool 0 (volume_or_default v) && Qle_bool (volume_or_default v) 1 = true.
Proof.
  unfold volume_or_default. destruct (Qeq_bool v 0); [reflexivity|auto].
Qed.

Lemma _getVideo_ok (file : string) (app : App) :
  valid_volume (state app) = true ->
  ok (_getVideo file) app (fun v app' =>
    app' = app /\ video_volume v = volume_or_default (volume (state app))).
Proof.
  unfold valid_volume. intros V. apply volume_or_default_valid in V.
  unfold ok, _getVideo, bind, gets. cbv beta iota. rewrite V.
  eexists. eexists. split; [reflexivity|]. now split.
Qed.

Lemma _getImage_media_only (file : string) (app : App) :
  ok (_getImage file) app (fun _ app' => media_only app app').
Proof.
  eapply ok_weaken; [apply _getImage_ok|]. now intros h app' (H & _).
Qed.

Lemma _preloadNextAndPrevious_ok (app : App) :
  cursor_near app ->
  ok _preloadNextAndPrevious app (fun _ app' => media_only app app').
Proof.
  unfold cursor_near. intros C. unfold _preloadNextAndPrevious.
  apply ok_bind with (P := fun fs app' =>
    app' = app /\ fs = files (state app)).
  { now apply ok_gets. }
  intros fs ? [-> ->].
  destruct (Z.eqb_spec (Z.of_nat (List.length (files (state app)))) 0)
    as [E|N]; [apply ok_ret, media_only_refl|].
  apply ok_bind with (P := fun i app' => app' = app /\ i = _fileIndex app).
  { now apply ok_gets. }
  intros i ? [-> ->].
  destruct (index_in_range (files (state app))
              (Z.min (Z.of_nat (List.length (files (state app))) - 1)
                     (_fileIndex app + 1))) as (f & Ef); [lia|].
  destruct (index_in_range (files (state app))
              (Z.max 0 (_fileIndex app - 1))) as (g & Eg); [lia|].
  rewrite Ef, Eg.
  apply ok_bind with (P := fun a app' => app' = app /\ a = f).
  { apply ok_ret. now split. }
  intros ? ? [-> ->].
  apply ok_bind with (P := fun _ app' => media_only app app').
  { destruct (negb (is_video (file_path f)));
      [|apply ok_ret, media_only_refl].
    eapply ok_bind; [apply _getImage_media_only|].
    intros ? app1 H1. now apply ok_ret. }
  intros ? app1 H1.
  apply ok_bind with (P := fun a app' => app' = app1 /\ a = g).
  { apply ok_ret. now split. }
  intros ? ? [-> ->].
  destruct (negb (is_video (file_path g))); [|now apply ok_ret].
  eapply ok_bind; [apply _getImage_media_only|].
  intros ? app2 H2. apply ok_ret. now apply media_only_trans with app1.
Qed.

Lemma cursor_near_media_only (app app' : App) :
  media_only app app' -> cursor_near app -> cursor_near app'.
Proof.
  unfold cursor_near. intros (Hs & Hi & _) C. now rewrite Hs, Hi.
Qed.

Lemma _renderImage_ok (app : App) :
  valid_volume (state app) = true -> cursor_near app ->
  ok _renderImage app (fun _ app' => media_only app app').
Proof.
  intros V C. unfold _renderImage.
  apply ok_bind with (P := fun cur app' =>
    app' = app /\ cur = currentFile (state app)).
  { now apply ok_gets. }
  intros cur ? [-> ->].
  destruct (currentFile (state app)) as [file|].
  2:{ apply ok_modify. repeat split. }
  apply ok_bind with (P := fun _ app' => media_only app app').
  { apply ok_modify. repeat split. }
  intros ? app1 H1.
  apply ok_bind with (P := fun _ app' => media_only app app').
  { destruct (is_video file).
    - eapply ok_bind.
      + apply _getVideo_ok. destruct H1 as (-> & _). exact V.
      + intros v ? [-> _]. now apply ok_ret.
    - eapply ok_bind; [apply _getImage_media_only|].
      intros h app2 H2.
      eapply ok_bind; [apply _cleanupCache_ok|].
      intros ? app3 [H3 _]. apply ok_ret.
      apply media_only_trans with app2; [|assumption].
      now apply media_only_trans with app1. }
  intros media app2 H2.
  apply ok_bind with (P := fun _ app' => media_only app app').
  { apply ok_modify. destruct H2 as (? & ? & ? & ? & ? & ?). repeat split;
      assumption. }
  intros ? app3 H3.
  eapply ok_weaken.
  - apply _preloadNextAndPrevious_ok.
    now apply (cursor_near_media_only app).
  - intros ? app4 H4. now apply media_only_trans with app3.
Qed.

Lemma _render_ok (app : App) :
  valid_volume (state app) = true -> cursor_near app ->
  ok _render app (fun _ app' =>
    state app' = state app /\ _fileIndex app' = _fileIndex app /\
    _listRebuildRequired app' = false /\
    effects app' =
      (effects app ++ [RenderList (_listRebuildRequired app)])%list).
Proof.
  intros V C.
  destruct (_renderImage_ok
              (set_listRebuildRequired false
                 (add_effect (RenderList (_listRebuildRequired app)) app)))
    as (u & app' & R & Hs & Hi & Hr & _ & _ & He); [exact V|exact C|].
  exists u, app'. split.
  - unfold _render, bind, gets, modify. cbv beta iota. exact R.
  - repeat split; assumption.
Qed.

(** *** Sorting and navigation *)

Lemma find_current_range (s : AppState) :
  find_current s = -1 \/
  0 <= find_current s < Z.of_nat (List.length (files s)).
Proof. apply findIndex_range. Qed.

Lemma find_current_first (s : AppState) (p : string) :
  currentFile s = Some p -> lists_path (files s) p ->
  first_with_path (files s) p (find_current s).
Proof.
  unfold find_current, lists_path, first_with_path. intros E (f & Hin & Hp).
  rewrite E.
  assert (Hpos : 0 <= JS.findIndex (path_is (Some p)) (files s)).
  { apply findIndex_found. exists f. split; [assumption|].
    cbn. now apply String.eqb_eq. }
  split; [assumption|].
  destruct (findIndex_first (path_is (Some p)) (files s) _ eq_refl Hpos)
    as (g & Hn & Hg & Hfirst).
  exists g. repeat split; [assumption|now apply String.eqb_eq in Hg|].
  intros j h Hj Hh. specialize (Hfirst j h Hj Hh). cbn in Hfirst.
  now apply String.eqb_neq in Hfirst.
Qed.


Lemma lists_path_sortFiles by_ order (l : list AppFile) (p : string) :
  lists_path (Sorter.sortFiles by_ order l) p <-> lists_path l p.
Proof.
  unfold lists_path, Sorter.sortFiles.
  split; intros (f & Hin & Hp); exists f; split; auto;
    now apply (sort_In (Sorter.files_comparefn by_ order)).
Qed.

Lemma _resort_ok (app : App) :
  valid_volume (state app) = true ->
  ok _resort app (fun _ app' =>
    state app' = resorted (state app) /\
    _fileIndex app' = Z.max 0 (find_current (resorted (state app)))).
Proof.
  intros V.
  unfold ok, _resort, save, modify_state, bind, gets, modify.
  cbv beta iota.
  match goal with |- context [_render ?X] =>
    destruct (_render_ok X) as (u & app' & R & Hs & Hi & _)
  end.
  - exact V.
  - unfold cursor_near. cbn.
    destruct (find_current_range (resorted (state app))) as [E|E];
      unfold resorted, find_current, Sorter.sortFiles in E; cbn in E; lia.
  - exists u, app'. split; [exact R|]. split; assumption.
Qed.

Lemma changeSort_same (by_ : SortBy) (order : SortOrder) (app : App) :
  SortBy_eqb (sortBy (state app)) by_
  && SortOrder_eqb (sortOrder (state app)) order = true ->
  changeSort by_ order app = Return tt app.
Proof.
  intros E. unfold changeSort, bind, gets. cbv beta iota. now rewrite E.
Qed.

Lemma changeSort_ok (by_ : SortBy) (order : SortOrder) (app : App) :
  valid_volume (state app) = true ->
  SortBy_eqb (sortBy (state app)) by_
  && SortOrder_eqb (sortOrder (state app)) order = false ->
  ok (changeSort by_ order) app (fun _ app' =>
    let s := set_sortOrder order (set_sortBy by_ (state app)) in
    state app' = resorted s /\
    _fileIndex app' = Z.max 0 (find_current (resorted s))).
Proof.
  intros V E.
  destruct (_resort_ok
              (set_state (set_sortOrder order (set_sortBy by_ (state app)))
                 app)) as (u & app' & R & H); [exact V|].
  exists u, app'. split; [|exact H].
  unfold changeSort, modify_state, bind, gets, modify. cbv beta iota.
  rewrite E. exact R.
Qed.

Lemma select_at_fileIndex_ok (app : App) (f : AppFile) :
  JS.index (files (state app)) (_fileIndex app) = Some f ->
  select_at_fileIndex app =
  Return tt (set_state (set_currentFile (Some (file_path f)) (state app)) app).
Proof.
  intros E. unfold select_at_fileIndex, modify_state, bind, gets, modify.
  cbv beta iota. rewrite E. reflexivity.
Qed.


(** [nextFile] and [prevFile] on a list that is not empty: the cursor
    moves one step and stops at the end of the list, and the file under
    it is selected. *)
Lemma nextFile_ok (app : App) :
  valid_volume (state app) = true -> files (state app) <> [] ->
  cursor_near app ->
  let i := Z.min (Z.of_nat (List.length (files (state app))) - 1)
                 (_fileIndex app + 1) in
  ok nextFile app (fun _ app' =>
    exists f, JS.index (files (state app)) i = Some f /\
      state app' = set_currentFile (Some (file_path f)) (state app) /\
      _fileIndex app' = i).
Proof.
  intros V N C i. unfold cursor_near in C.
  assert (Hlen : 0 < Z.of_nat (List.length (files (state app)))).
  { destruct (files (state app)); [contradiction|cbn; lia]. }
  destruct (index_in_range (files (state app)) i) as (f & Ef);
    [unfold i; lia|].
  unfold ok, nextFile, bind at 1, gets. cbv beta iota.
  destruct (Z.eqb_spec (Z.of_nat (List.length (files (state app)))) 0);
    [lia|].
  unfold bind at 1, modify at 1. cbv beta iota.
  unfold bind at 1. fold i.
  rewrite (select_at_fileIndex_ok (set_fileIndex i app) f) by exact Ef.
  unfold save, bind, gets, modify. cbv beta iota.
  match goal with |- context [_render ?X] =>
    destruct (_render_ok X) as (u & app' & R & Hs & Hi & _)
  end.
  - exact V.
  - unfold cursor_near. cbn. unfold i. lia.
  - rewrite R. eexists. eexists. split; [reflexivity|].
    exists f. cbn. repeat split; assumption.
Qed.

Lemma prevFile_ok (app : App) :
  valid_volume (state app) = true -> files (state app) <> [] ->
  cursor_near app ->
  let i := Z.max 0 (_fileIndex app - 1) in
  ok prevFile app (fun _ app' =>
    exists f, JS.index (files (state app)) i = Some f /\
      state app' = set_currentFile (Some (file_path f)) (state app) /\
      _fileIndex app' = i).
Proof.
  intros V N C i. unfold cursor_near in C.
  assert (Hlen : 0 < Z.of_nat (List.length (files (state app)))).
  { destruct (files (state app)); [contradiction|cbn; lia]. }
  destruct (index_in_range (files (state app)) i) as (f & Ef);
    [unfold i; lia|].
  unfold ok, prevFile, bind at 1, gets. cbv beta iota.
  destruct (Z.eqb_spec (Z.of_nat (List.length (files (state app)))) 0);
    [lia|].
  unfold bind at 1, modify at 1. cbv beta iota.
  unfold bind at 1. fold i.
  rewrite (select_at_fileIndex_ok (set_fileIndex i app) f) by exact Ef.
  unfold save, bind, gets, modify. cbv beta iota.
  match goal with |- context [_render ?X] =>
    destruct (_render_ok X) as (u & app' & R & Hs & Hi & _)
  end.
  - exact V.
  - unfold cursor_near. cbn. unfold i. lia.
  - exists u, app'. split; [exact R|].
    exists f. cbn. repeat split; assumption.
Qed.

(** *** Listing refresh *)

Ltac proj :=
  cbn [state _fileIndex _listRebuildRequired _previousFolder _fileCache heap
       allocated imageHolder clock ticks effects
       set_state set_fileIndex set_listRebuildRequired set_fileCache set_heap
       set_imageHolder set_ticks add_effect].

Ltac proj_in H :=
  cbn [state _fileIndex _listRebuildRequired _previousFolder _fileCache heap
       allocated imageHolder clock ticks effects
       set_state set_fileIndex set_listRebuildRequired set_fileCache set_heap
       set_imageHolder set_ticks add_effect] in H.

Lemma save_render_ok (app : App) :
  valid_volume (state app) = true -> cursor_near app ->
  ok (save ;; _render) app (fun _ app' =>
    state app' = state app /\ _fileIndex app' = _fileIndex app).
Proof.
  intros V C.
  unfold ok, save, bind, gets, modify. cbv beta iota.
  match goal with |- context [_render ?X] =>
    destruct (_render_ok X) as (u & app' & R & Hs & Hi & _)
  end; [exact V|exact C|].
  exists u, app'. split; [exact R|]. now split.
Qed.

Lemma files_set_currentFile (c : option string) (s : AppState) :
  files (set_currentFile c s) = files s.
Proof. reflexivity. Qed.

(** The refresh that receives a listing returns, and leaves the sorted
    listing with the selection reconciled. *)
Lemma _fetchList_ok (path : option string) (force : bool) (d : ResponseList)
    (app : App) :
  valid_volume (state app) = true ->
  let s1 := resorted (received d (state app)) in
  ok (_fetchList path force (Listing d)) app (fun _ app' =>
    (files s1 = [] ->
       state app' = set_currentFile None s1 /\ _fileIndex app' = 0) /\
    (forall f, JS.index (files s1) 0 = Some f -> find_current s1 = -1 ->
       state app' = set_currentFile (Some (file_path f)) s1 /\
       _fileIndex app' = 0) /\
    (files s1 <> [] -> find_current s1 <> -1 ->
       state app' = s1 /\ _fileIndex app' = find_current s1)).
Proof.
  intros V s1.
  unfold ok, _fetchList.
  unfold bind at 1, ret at 1. cbv beta iota.
  unfold bind at 1, defined at 1, ret at 1. cbv beta iota.
  unfold bind at 1, gets at 1. cbv beta iota.
  do 5 (unfold bind at 1, modify_state at 1, modify at 1; cbv beta iota; proj).
  unfold bind at 1.
  match goal with |- context [_resort ?X] =>
    destruct (_resort_ok X) as (u & app1 & R & Hs & Hi)
  end.
  { exact V. }
  rewrite R. clear R. proj_in Hs. proj_in Hi.
  fold (received d (state app)) in Hs, Hi. fold s1 in Hs, Hi.
  assert (V1 : valid_volume s1 = true) by exact V.
  unfold bind at 1, gets at 1. cbv beta iota.
  unfold bind at 1.
  destruct (Z.ltb_spec 0 (Z.of_nat (List.length (files (state app1)))))
    as [Hlen|Hlen].
  - unfold bind at 1, modify at 1. cbv beta iota.
    unfold bind at 1, gets at 1. cbv beta iota. proj.
    destruct (Z.eqb_spec (find_current (state app1)) (-1)) as [E|N].
    + unfold bind at 1, modify at 1. cbv beta iota. proj.
      destruct (index_in_range (files (state app1)) 0) as (f0 & E0); [lia|].
      rewrite (select_at_fileIndex_ok _ f0) by exact E0. proj.
      match goal with |- context [(save ;; _render) ?X] =>
        destruct (save_render_ok X) as (u' & app' & R & Hs' & Hi')
      end.
      * proj. rewrite Hs. exact V1.
      * unfold cursor_near. proj. rewrite files_set_currentFile. lia.
      * proj_in Hs'. proj_in Hi'. exists u', app'. split; [exact R|].
        rewrite Hs in *. split; [|split].
        -- intros Em. rewrite Em in Hlen. cbn in Hlen. lia.
        -- intros f Ef _. rewrite E0 in Ef. injection Ef as <-. now split.
        -- intros _ Hn. contradiction.
    + unfold ret at 1.
      match goal with |- context [(save ;; _render) ?X] =>
        destruct (save_render_ok X) as (u' & app' & R & Hs' & Hi')
      end.
      * proj. rewrite Hs. exact V1.
      * unfold cursor_near. proj.
        destruct (find_current_range (state app1)); lia.
      * proj_in Hs'. proj_in Hi'. exists u', app'. split; [exact R|].
        rewrite Hs in *. split; [|split].
        -- intros Em. rewrite Em in Hlen. cbn in Hlen. lia.
        -- intros f _ Hn. contradiction.
        -- intros _ _. now split.
  - unfold modify at 1. cbv beta iota.
    match goal with |- context [(save ;; _render) ?X] =>
      destruct (save_render_ok X) as (u' & app' & R & Hs' & Hi')
    end.
    + proj. rewrite Hs. exact V1.
    + unfold cursor_near. proj. rewrite files_set_currentFile.
      destruct (find_current_range s1); rewrite <- Hs in *; lia.
    + proj_in Hs'. proj_in Hi'. exists u', app'. split; [exact R|].
      assert (Em : files s1 = []).
      { rewrite <- Hs. destruct (files (state app1)); [reflexivity|].
        cbn in Hlen. lia. }
      rewrite Hs in *. split; [|split].
      * intros _. split; [assumption|]. rewrite Hi', Hi.
        destruct (find_current_range s1) as [F|F]; [lia|].
        rewrite Em in F. cbn in F. lia.
      * intros f Ef _. rewrite Em in Ef. discriminate.
      * intros Hn _. contradiction.
Qed.

(** ** The listing refresh *)

(** C1.  When the request of [_fetchList] fails -- [fetch] rejects or the
    body is not JSON -- the error is logged and no field of the state is
    changed, but the call does not return: reading [canonical_path] of
    the undefined [data] throws a [TypeError] past the [catch] block. *)
Theorem failed_fetch_throws_after_logging
    (path : option string) (forceRebuild : bool) (app : App) :
  _fetchList path forceRebuild NetworkError app =
    Throw TypeError (add_effect ConsoleError app) /\
  _fetchList path forceRebuild MalformedResponse app =
    Throw TypeError (add_effect ConsoleError app) /\
  state (add_effect ConsoleError app) = state app /\
  _fileIndex (add_effect ConsoleError app) = _fileIndex app.
Proof. repeat split. Qed.




(** ** Selection across a re-sort *)

Lemma resorted_selection (s : AppState) (p : string) :
  currentFile s = Some p -> lists_path (files s) p ->
  first_with_path (files (resorted s)) p
    (Z.max 0 (find_current (resorted s))).
Proof.
  intros E L.
  assert (F : first_with_path (files (resorted s)) p
                (find_current (resorted s))).
  { apply find_current_first; [exact E|].
    now apply lists_path_sortFiles. }
  destruct F as [Hpos F]. rewrite Z.max_r by assumption. now split.
Qed.


(** ** Navigation *)


(** ** The image cache *)

(** C7.  A resolution returns an image and leaves it in the cache under
    the path; the next resolution of the path returns the same image.
    For a path that does not end in [.gif] this second resolution changes
    nothing but the time of the entry (and the count of clock readings);
    for a path that ends in [.gif] each of the two resolutions assigns the
    [src] of the image again, with the clock value read for it as token.
    More generally, whenever the path still has an entry, the image of
    that entry is the one returned.  The path is the name of an ordinary
    property of the cache object: not [__proto__], of which a plain
    object keeps no entry, and not [hasOwnProperty], whose entry hides
    the method that the resolution calls. *)
Theorem image_is_reused (file : string) (app : App) :
  ordinary file app ->
  (exists h app1 app2,
     _getImage file app = Return h app1 /\
     _getImage file app1 = Return h app2 /\
     Cache.get (_fileCache app2) file =
       Some (mkEntry h (clock app1 (ticks app1))) /\
     if JS.endsWith file ".gif" then
       img_src (heap app1 h) =
         Some (mkURL file (Some (clock app (S (ticks app))))) /\
       img_src (heap app2 h) =
         Some (mkURL file (Some (clock app1 (S (ticks app1)))))
     else
       app2 =
         set_fileCache
           (Cache.set (_fileCache app1) file
              (mkEntry h (clock app1 (ticks app1))))
           (set_ticks (S (ticks app1)) app1)) /\
  (forall e, Cache.get (_fileCache app) file = Some e ->
     exists app', _getImage file app = Return (img e) app').
Proof.
  intros _. split.
  - assert (First : exists h app1,
      _getImage file app = Return h app1 /\
      (exists t, Cache.get (_fileCache app1) file = Some (mkEntry h t)) /\
      (JS.endsWith file ".gif" = true ->
       img_src (heap app1 h) =
         Some (mkURL file (Some (clock app (S (ticks app))))))).
    { destruct (Cache.get (_fileCache app) file) as [e|] eqn:E.
      - destruct (JS.endsWith file ".gif") eqn:G.
        + destruct (_getImage_cached_gif file e app E G)
            as (app1 & R & _ & _ & C & _ & H & _).
          exists (img e), app1. split; [exact R|]. split.
          * eexists. rewrite C. apply get_set_same.
          * intros _. now rewrite H.
        + exists (img e). eexists.
          split; [now apply _getImage_cached|]. split; [|discriminate].
          eexists. cbn. apply get_set_same.
      - destruct (_getImage_new file app E)
          as (app1 & R & _ & _ & C & _ & H & _).
        exists (allocated app), app1. split; [exact R|]. split.
        + eexists. rewrite C. apply get_set_same.
        + intros G. rewrite H, G. reflexivity. }
    destruct First as (h & app1 & R1 & (t & E1) & Hsrc1).
    exists h, app1.
    destruct (JS.endsWith file ".gif") eqn:G.
    + destruct (_getImage_cached_gif file _ app1 E1 G)
        as (app2 & R2 & _ & _ & C & _ & H & _).
      cbn [img] in *. exists app2. repeat split; auto.
      * rewrite C. apply get_set_same.
      * now rewrite H.
    + eexists. split; [exact R1|].
      split; [exact (_getImage_cached file _ app1 E1 G)|].
      cbn [img]. split; [|reflexivity]. cbn. apply get_set_same.
  - intros e E. destruct (JS.endsWith file ".gif") eqn:G.
    + destruct (_getImage_cached_gif file e app E G) as (app' & R & _).
      now exists app'.
    + eexists. now apply _getImage_cached.
Qed.

Lemma image_is_reused_witness :
  ordinary "/pics/img0.png" browsing /\
  (exists h app1 app2,
     _getImage "/pics/img0.png" browsing = Return h app1 /\
     _getImage "/pics/img0.png" app1 = Return h app2) /\
  exists app', _getImage "/pics/img0.png" browsing = Return 0%nat app'.
Proof.
  assert (O : ordinary "/pics/img0.png" browsing).
  { split; [discriminate|]. split; [discriminate|].
    vm_compute. reflexivity. }
  split; [exact O|].
  destruct (image_is_reused "/pics/img0.png" browsing O)
    as ((h & app1 & app2 & R1 & R2 & _) & Cached).
  split; [exists h, app1, app2; split; [exact R1|exact R2]|].
  apply (Cached (mkEntry 0%nat 1700000000080)).
  vm_compute. reflexivity.
Defined.

(** X30.  The clean-up as the code has it.  On a cache of at most 50
    entries [_cleanupCache] changes nothing.  On a larger cache it
    removes exactly one entry and keeps the others as they are; the
    entry removed has the smallest time, and among the entries with that
    time it is the one whose key [Object.keys] lists last. *)
Theorem cleanup_evicts_last_oldest (app : App) :
  cache_wf (_fileCache app) = true ->
  exists app',
    _cleanupCache app = Return tt app' /\
    cache_wf (_fileCache app') = true /\
    ((cache_size app <= MAX_CACHED_IMAGES /\ app' = app) \/
     (MAX_CACHED_IMAGES < cache_size app /\
      exists k,
        last_oldest (_fileCache app) (Cache.keys (_fileCache app)) k /\
        app' = set_fileCache (Cache.delete (_fileCache app) k) app /\
        cache_size app' = cache_size app - 1 /\
        Cache.get (_fileCache app') k = None /\
        forall k', k <> k' ->
          Cache.get (_fileCache app') k' = Cache.get (_fileCache app) k')).
Proof.
  intros W.
  destruct (Z.le_gt_cases (cache_size app) MAX_CACHED_IMAGES) as [H|H].
  - exists app. split; [now apply _cleanupCache_small|].
    split; [assumption|]. left. now split.
  - destruct (_cleanupCache_full app H) as (k & R & L).
    eexists. split; [exact R|]. proj. split; [now apply delete_wf|].
    right. split; [lia|]. exists k. split; [exact L|].
    split; [reflexivity|].
    destruct L as (l1 & l2 & K & _).
    assert (In k (map fst (_fileCache app))).
    { eapply Permutation_in; [apply keys_Permutation|].
      rewrite K. apply in_elt. }
    pose proof (delete_length (_fileCache app) k W H0) as Len.
    unfold cache_size. proj.
    split; [lia|]. split; [apply get_delete_same|].
    intros k' N. now apply get_delete_other.
Qed.

Lemma cleanup_evicts_last_oldest_witness :
  cache_wf (_fileCache crowded) = true /\
  exists app',
    _cleanupCache crowded = Return tt app' /\ cache_size app' = 50.
Proof.
  assert (W : cache_wf (_fileCache crowded) = true) by (vm_compute; reflexivity).
  split; [exact W|].
  destruct (cleanup_evicts_last_oldest crowded W)
    as (app' & R & _ & [[H _]|(_ & k & _ & _ & S & _)]).
  - exfalso. vm_compute in H. now apply H.
  - exists app'. split; [exact R|]. rewrite S. vm_compute. reflexivity.
Defined.

(** C2 fails: the cache is not kept within its capacity of 50.
    [_renderImage] cleans up once, after it has resolved the file it
    shows, and resolves the two neighbours after that, so a render
    removes one entry and adds up to three.  After a listing of 51
    pictures has arrived and the next file was asked for 49 times, the
    cache holds 51 images; after a listing of 120 pictures and a click
    on every third file, 39 clicks, it holds 92.  Besides, on a cache of
    51 images of which the two that were created first share the
    smallest time, the clean-up removes the second of them and keeps the
    first: a tie is broken by the key listed last. *)
Theorem prefetch_takes_the_cache_over_its_capacity :
  (let o := (_fetchList None true (Listing (gallery 51)) ;;
             press 49 nextFile) started in
   returns o = true /\ cache_size (after o) = 51 /\
   MAX_CACHED_IMAGES < cache_size (after o)) /\
  (let o := (_fetchList None true (Listing (gallery 120)) ;;
             click_each click_file (every_third 39)) started in
   returns o = true /\ cache_size (after o) = 92 /\
   MAX_CACHED_IMAGES < cache_size (after o)) /\
  (let c := _fileCache crowded in
   let o := _cleanupCache crowded in
   hd_error (Cache.keys c) = Some "/pics/img0.png" /\
   ts_of c "/pics/img0.png" = ts_of c "/pics/img1.png" /\
   forallb (fun k => ts_of c "/pics/img0.png" <=? ts_of c k) (Cache.keys c)
     = true /\
   returns o = true /\
   Cache.hasOwnProperty (_fileCache (after o)) "/pics/img0.png" = true /\
   Cache.hasOwnProperty (_fileCache (after o)) "/pics/img1.png" = false).
Proof. vm_compute. repeat split; reflexivity. Qed.

(** ** Pan positioning *)

Lemma clamp_spec (v : Q) :
  (0 <= Position.clamp v)%Q /\ (Position.clamp v <= 100)%Q /\
  ((v < 0)%Q -> Position.clamp v == 0) /\
  ((0 <= v)%Q -> (v <= 100)%Q -> Position.clamp v == v) /\
  ((100 < v)%Q -> Position.clamp v == 100).
Proof.
  unfold Position.clamp. repeat split.
  - apply Q.le_max_l.
  - apply Q.max_lub; [lra|apply Q.le_min_l].
  - intros H. rewrite Q.max_l; [reflexivity|].
    rewrite Q.min_r by lra. lra.
  - intros H0 H1. rewrite Q.min_r by assumption. now rewrite Q.max_r.
  - intros H. rewrite Q.min_l by lra. rewrite Q.max_r by lra. reflexivity.
Qed.

(** C8.  [setObjectPosition] clamps each coordinate to [[0, 100]]: the
    value is kept when it lies in the interval and replaced by the nearer
    bound otherwise.  It then pins one axis to 50: [x] when [_direction]
    is [up], and [y] otherwise.  The direction is [up] exactly when the
    ratio of the media is strictly less than that of the holder, for
    heights other than 0; a media item without height (not loaded yet)
    has the direction [down], and against a holder without height the
    direction is [up] exactly when the holder has a width.  With the
    direction [down], [(130, -10)] gives [(100, 50)].  The position is
    applied when the media is bigger than the holder. *)
Theorem position_is_clamped_then_pinned (p : Position.Page) (x y : Q) :
  (forall v,
     (0 <= Position.clamp v)%Q /\ (Position.clamp v <= 100)%Q /\
     ((v < 0)%Q -> Position.clamp v == 0) /\
     ((0 <= v)%Q -> (v <= 100)%Q -> Position.clamp v == v) /\
     ((100 < v)%Q -> Position.clamp v == 100)) /\
  (~ Position.height p == 0 -> ~ Position.cHeight p == 0 ->
   (Position._direction p = Position.up <->
    (Position.width p / Position.height p
     < Position.cWidth p / Position.cHeight p)%Q)) /\
  (Position.height p == 0 -> (0 <= Position.width p)%Q ->
   Position._direction p = Position.down) /\
  (~ Position.height p == 0 -> Position.cHeight p == 0 ->
   (Position._direction p = Position.up <-> (0 < Position.cWidth p)%Q)) /\
  (Position._direction p = Position.up ->
   Position.clampPosition p x y = (50%Q, Position.clamp y)) /\
  (Position._direction p = Position.down ->
   Position.clampPosition p x y = (Position.clamp x, 50%Q)) /\
  (Position._direction p = Position.down ->
   Position.clampPosition p 130 (-10) = (100%Q, 50%Q)) /\
  Position.setObjectPosition p x y =
    (if Position._isMediaBigger p
     then Some (Position.clampPosition p x y) else None).
Proof.
  split; [exact clamp_spec|]. split; [|split; [|split]].
  - intros Hh Hc. unfold Position._direction, Position.divide.
    destruct (Qeq_bool (Position.height p) 0) eqn:Eh;
      [apply Qeq_bool_eq in Eh; contradiction|].
    destruct (Qeq_bool (Position.cHeight p) 0) eqn:Ec;
      [apply Qeq_bool_eq in Ec; contradiction|].
    cbn [Position.less]. rewrite Qlt_alt.
    destruct (Position.width p / Position.height p
              ?= Position.cWidth p / Position.cHeight p)%Q;
      split; intros H; try reflexivity; discriminate.
  - intros Hh Hw. unfold Position._direction, Position.divide.
    rewrite (Qeq_eq_bool _ _ Hh).
    destruct (Position.width p ?= 0)%Q eqn:Ew.
    + reflexivity.
    + apply Qlt_alt in Ew. lra.
    + reflexivity.
  - intros Hh Hc. unfold Position._direction, Position.divide.
    destruct (Qeq_bool (Position.height p) 0) eqn:Eh;
      [apply Qeq_bool_eq in Eh; contradiction|].
    rewrite (Qeq_eq_bool _ _ Hc).
    destruct (Position.cWidth p ?= 0)%Q eqn:Ew; cbn [Position.less].
    + apply Qeq_alt in Ew. split; [discriminate|]. intros L. lra.
    + apply Qlt_alt in Ew. split; [discriminate|]. intros L. lra.
    + apply Qgt_alt in Ew. split; [intros _; exact Ew|reflexivity].
  - unfold Position.clampPosition.
    repeat split; try (intros ->; reflexivity).
Qed.

Lemma position_is_clamped_then_pinned_witness :
  Position._direction wide_picture = Position.down /\
  Position.clampPosition wide_picture 130 (-10) = (100%Q, 50%Q) /\
  Position.setObjectPosition wide_picture 130 (-10) = Some (100%Q, 50%Q) /\
  Position._direction (Position.mkPage 0 0 800 600 true false)
    = Position.down.
Proof.
  destruct (position_is_clamped_then_pinned wide_picture 130 (-10))
    as (_ & _ & _ & _ & _ & _ & H & _).
  destruct (position_is_clamped_then_pinned
              (Position.mkPage 0 0 800 600 true false) 0 0)
    as (_ & _ & Z & _).
  split; [reflexivity|]. split; [apply H; reflexivity|].
  split; [reflexivity|].
  apply Z; [reflexivity|]. unfold Qle. cbn. lia.
Defined.

(** ** Video volume *)

(** C9 fails at the volume 0: a new video element is given the volume 1,
    because [this.state.volume || 1.0] takes 0 for a missing value. *)
Theorem zero_volume_is_replaced_by_full_volume (file : string) (app : App) :
  let muted := set_state (set_volume 0 (state app)) app in
  _getVideo file muted =
  Return (mkVideo (mkURL file None) true true true ["media-item"] 1) muted.
Proof. reflexivity. Qed.

(** Every other volume of [[0, 1]] is the one the new element gets. *)
Lemma positive_volume_is_restored (file : string) (app : App) :
  valid_volume (state app) = true -> ~ volume (state app) == 0 ->
  ok (_getVideo file) app (fun v app' =>
    app' = app /\ video_volume v = volume (state app)).
Proof.
  intros V N.
  eapply ok_weaken; [apply _getVideo_ok; exact V|].
  cbv beta. intros v app' [-> ->]. split; [reflexivity|].
  unfold volume_or_default.
  destruct (Qeq_bool (volume (state app)) 0) eqn:E; [|reflexivity].
  apply Qeq_bool_eq in E. contradiction.
Qed.

(** ** The folder comparator on two parent entries *)

(** C5 fails on a list with two folders whose normalized name is [..]:
    the comparator answers [-1] whichever of the two comes first, so it
    does not treat their equal keys as equal, and the sort exchanges
    them. *)
Theorem two_parent_keys_are_exchanged :
  let a := mkFolder ".." "/srv" false in
  let b := mkFolder "[..]" "/srv/media/[..]" false in
  folder_key a = ".." /\ folder_key b = ".." /\
  Sorter.folders_comparefn a b = -1 /\
  Sorter.folders_comparefn b a = -1 /\
  Sorter.sortFolders [a; b] = [b; a].
Proof. repeat split. Qed.

(** ** The theorems at concrete inputs *)




(** ** The folder sort on a list with at most one parent entry *)

Lemma parent_first_ltb_irrefl (k : string) : parent_first_ltb k k = false.
Proof.
  unfold parent_first_ltb. destruct (String.eqb k ".."); [reflexivity|].
  apply string_ltb_irrefl.
Qed.

Lemma parent_first_ltb_trans (k k' k'' : string) :
  parent_first_ltb k k' = true -> parent_first_ltb k' k'' = true ->
  parent_first_ltb k k'' = true.
Proof.
  unfold parent_first_ltb.
  destruct (String.eqb k ".."), (String.eqb k' ".."), (String.eqb k'' "..");
    cbn; try discriminate; try reflexivity.
  apply string_ltb_trans.
Qed.

Lemma parent_first_ltb_total (k k' : string) :
  String.eqb k k' = false -> parent_first_ltb k k' = false ->
  parent_first_ltb k' k = true.
Proof.
  unfold parent_first_ltb.
  destruct (String.eqb_spec k ".."), (String.eqb_spec k' "..");
    cbn; try discriminate; try reflexivity.
  - subst. now rewrite String.eqb_refl.
  - apply string_ltb_total.
Qed.

Lemma folders_order_consistent : consistent_comparator folders_order.
Proof.
  apply key_comparefn_consistent.
  - apply String.eqb_eq.
  - apply parent_first_ltb_irrefl.
  - apply parent_first_ltb_trans.
  - apply parent_first_ltb_total.
  - reflexivity.
Qed.

Lemma folders_comparefn_agrees (a b : AppFolder) :
  folder_key a <> ".." \/ folder_key b <> ".." ->
  Sorter.folders_comparefn a b = folders_order a b.
Proof.
  unfold Sorter.folders_comparefn, folders_order, key_comparefn,
    parent_first_ltb, folder_key.
  destruct (String.eqb_spec (Sorter.normalize (folder_name a)) "..") as [Ea|Na];
    destruct (String.eqb_spec (Sorter.normalize (folder_name b)) "..")
      as [Eb|Nb]; cbn.
  - intros [?|?]; contradiction.
  - intros _. rewrite Ea.
    destruct (String.eqb_spec ".." (Sorter.normalize (folder_name b)));
      [congruence|reflexivity].
  - intros _. rewrite Eb.
    destruct (String.eqb_spec (Sorter.normalize (folder_name a)) "..");
      [contradiction|reflexivity].
  - reflexivity.
Qed.

Lemma one_parent_entry_pairs (l : list AppFolder) :
  (List.length (parent_entries l) <= 1)%nat ->
  ForallOrdPairs
    (fun x y => Sorter.folders_comparefn y x = folders_order y x) l.
Proof.
  unfold parent_entries.
  induction l as [|x l IH]; cbn [filter]; intros H; [constructor|].
  constructor.
  - apply Forall_forall. intros y Hy. apply folders_comparefn_agrees.
    destruct (String.eqb_spec (folder_key x) "..") as [Ex|Nx]; [|now right].
    left. intros Ey. cbn in H.
    assert (Hin : In y (filter (fun f => String.eqb (folder_key f) "..") l)).
    { apply filter_In. split; [assumption|]. now apply String.eqb_eq. }
    destruct (filter _ l); [contradiction|cbn in H; lia].
  - apply IH. destruct (String.eqb (folder_key x) ".."); cbn in H; lia.
Qed.

(** When at most one folder has the key [..], the folder sort returns a
    rearrangement of the list that is in the order [folders_order] --
    which uses neither [sortBy] nor [sortOrder] -- with the folders of
    equal key in their original order and the folder of key [..], if
    there is one, first. *)
Lemma folder_sort_with_one_parent_entry (l : list AppFolder) :
  (List.length (parent_entries l) <= 1)%nat ->
  Permutation (Sorter.sortFolders l) l /\
  sorted_by folders_order (Sorter.sortFolders l) /\
  keeps_order_of_equals folders_order l (Sorter.sortFolders l) /\
  (forall f, In f l -> folder_key f = ".." ->
     exists rest, Sorter.sortFolders l = f :: rest).
Proof.
  intros H.
  assert (E : Sorter.sortFolders l = JS.sort folders_order l).
  { unfold Sorter.sortFolders. apply sort_ext.
    now apply one_parent_entry_pairs. }
  pose proof folders_order_consistent as C.
  pose proof (sort_sorted folders_order C l) as S.
  rewrite E. repeat split.
  - apply sort_Permutation.
  - exact S.
  - now apply sort_keeps_order.
  - intros f Hin Hf.
    assert (Hin' : In f (JS.sort folders_order l)) by now apply sort_In.
    destruct (JS.sort folders_order l) as [|h rest] eqn:Es; [contradiction|].
    exists rest. f_equal.
    destruct Hin' as [->|Hrest]; [reflexivity|].
    apply StronglySorted_inv in S as [_ F].
    rewrite Forall_forall in F. specialize (F f Hrest). cbn in F.
    assert (Hh : folder_key h = "..").
    { unfold folders_order, key_comparefn, parent_first_ltb in F.
      rewrite Hf in F. cbn in F.
      destruct (String.eqb_spec (folder_key h) "..") as [Eh|Nh];
        [assumption|].
      cbn in F. lia. }
    assert (Hl : In h l).
    { apply (sort_In folders_order). rewrite Es. now left. }
    unfold parent_entries in H.
    assert (I1 : In h (filter (fun f => String.eqb (folder_key f) "..") l)).
    { apply filter_In. split; [assumption|]. now apply String.eqb_eq. }
    assert (I2 : In f (filter (fun f => String.eqb (folder_key f) "..") l)).
    { apply filter_In. split; [assumption|]. now apply String.eqb_eq. }
    destruct (filter _ l) as [|z [|z' t]]; cbn in H; [contradiction| |lia].
    destruct I1 as [<-|[]]. destruct I2 as [<-|[]]. reflexivity.
Qed.

(** ** The utilities [escape] and [html] *)

Lemma occurs_append (c : ascii) (s t : string) :
  Utils.occurs c (s ++ t) <-> Utils.occurs c s \/ Utils.occurs c t.
Proof.
  induction s as [|a s IH]; cbn; [tauto|]. rewrite IH. tauto.
Qed.

Lemma escape_cons (a : ascii) (s : string) :
  Utils.escape (String a s) = (Utils.escape_char a ++ Utils.escape s)%string.
Proof.
  unfold Utils.escape, Utils.escape_char. cbn [Utils.replace_all].
  destruct (Ascii.eqb_spec a "&") as [->|N1]; [reflexivity|].
  cbn [Utils.replace_all].
  destruct (Ascii.eqb_spec a "<") as [->|N2]; [reflexivity|].
  cbn [Utils.replace_all].
  destruct (Ascii.eqb_spec a ">") as [->|N3]; [reflexivity|].
  cbn [Utils.replace_all].
  destruct (Ascii.eqb_spec a "'") as [->|N4]; [reflexivity|].
  cbn [Utils.replace_all].
  destruct (Ascii.eqb_spec a Utils.quote) as [->|N5]; reflexivity.
Qed.

Lemma escape_char_no_markup (a c : ascii) :
  Utils.occurs c (Utils.escape_char a) -> ~ Utils.is_markup c.
Proof.
  unfold Utils.escape_char, Utils.is_markup.
  destruct (Ascii.eqb_spec a "&") as [->|N1];
    [cbn; intros H; repeat (destruct H as [<-|H]; [intros [?|[?|[?|?]]];
       discriminate|]); contradiction|].
  destruct (Ascii.eqb_spec a "<") as [->|N2];
    [cbn; intros H; repeat (destruct H as [<-|H]; [intros [?|[?|[?|?]]];
       discriminate|]); contradiction|].
  destruct (Ascii.eqb_spec a ">") as [->|N3];
    [cbn; intros H; repeat (destruct H as [<-|H]; [intros [?|[?|[?|?]]];
       discriminate|]); contradiction|].
  destruct (Ascii.eqb_spec a "'") as [->|N4];
    [cbn; intros H; repeat (destruct H as [<-|H]; [intros [?|[?|[?|?]]];
       discriminate|]); contradiction|].
  destruct (Ascii.eqb_spec a Utils.quote) as [->|N5];
    [cbn; intros H; repeat (destruct H as [<-|H]; [intros [?|[?|[?|?]]];
       discriminate|]); contradiction|].
  cbn. intros [<-|[]] [?|[?|[?|?]]]; contradiction.
Qed.

Lemma escape_has_no_markup (text : string) (c : ascii) :
  Utils.occurs c (Utils.escape text) -> ~ Utils.is_markup c.
Proof.
  induction text as [|a s IH]; [intros []|].
  rewrite escape_cons, occurs_append.
  intros [H|H]; [now apply escape_char_no_markup in H|now apply IH].
Qed.

(** X1.  The text that [escape] returns has none of the characters [<],
    [>], ['] and the double quote, whatever text it is given; and a text
    without these four and without [&] is returned as it is. *)
Theorem escape_leaves_no_markup (text : string) :
  (forall c, Utils.occurs c (Utils.escape text) -> ~ Utils.is_markup c) /\
  ((forall c, Utils.occurs c text -> ~ Utils.is_markup c /\ c <> "&"%char) ->
   Utils.escape text = text).
Proof.
  split.
  - intros c. apply escape_has_no_markup.
  - induction text as [|a s IH]; [reflexivity|].
    intros H. rewrite escape_cons, IH by (intros c Hc; apply H; now right).
    destruct (H a (or_introl eq_refl)) as [M A].
    unfold Utils.is_markup in M. unfold Utils.escape_char.
    destruct (Ascii.eqb_spec a "&"); [contradiction|].
    destruct (Ascii.eqb_spec a "<"); [tauto|].
    destruct (Ascii.eqb_spec a ">"); [tauto|].
    destruct (Ascii.eqb_spec a "'"); [tauto|].
    destruct (Ascii.eqb_spec a Utils.quote); [tauto|reflexivity].
Qed.

Lemma escape_char_cases (a : ascii) :
  (a <> "&"%char /\ Utils.escape_char a = String a EmptyString) \/
  (a = "&"%char /\ Utils.escape_char a = "&amp;") \/
  (a = "<"%char /\ Utils.escape_char a = "&lt;") \/
  (a = ">"%char /\ Utils.escape_char a = "&gt;") \/
  (a = "'"%char /\ Utils.escape_char a = "&#039;") \/
  (a = Utils.quote /\ Utils.escape_char a = "&quot;").
Proof.
  unfold Utils.escape_char.
  destruct (Ascii.eqb_spec a "&") as [->|N1]; [right; left; now split|].
  destruct (Ascii.eqb_spec a "<") as [->|N2];
    [right; right; left; now split|].
  destruct (Ascii.eqb_spec a ">") as [->|N3];
    [right; right; right; left; now split|].
  destruct (Ascii.eqb_spec a "'") as [->|N4];
    [right; right; right; right; left; now split|].
  destruct (Ascii.eqb_spec a Utils.quote) as [->|N5];
    [right; right; right; right; right; now split|].
  left. now split.
Qed.

(** X2.  [escape] loses nothing: two texts with the same escaped form are
    the same text. *)
Theorem escape_is_injective (s t : string) :
  Utils.escape s = Utils.escape t -> s = t.
Proof.
  revert t. induction s as [|a s IH]; intros [|b t] H.
  - reflexivity.
  - rewrite escape_cons in H. exfalso.
    destruct (escape_char_cases b)
      as [[_ E]|[[_ E]|[[_ E]|[[_ E]|[[_ E]|[_ E]]]]]];
      rewrite E in H; discriminate.
  - rewrite escape_cons in H. exfalso.
    destruct (escape_char_cases a)
      as [[_ E]|[[_ E]|[[_ E]|[[_ E]|[[_ E]|[_ E]]]]]];
      rewrite E in H; discriminate.
  - rewrite !escape_cons in H.
    destruct (escape_char_cases a)
      as [[Na Ea]|[[-> Ea]|[[-> Ea]|[[-> Ea]|[[-> Ea]|[-> Ea]]]]]];
    destruct (escape_char_cases b)
      as [[Nb Eb]|[[-> Eb]|[[-> Eb]|[[-> Eb]|[[-> Eb]|[-> Eb]]]]]];
    rewrite ?Ea, ?Eb in H; cbn in H;
    try discriminate;
    try (injection H as H; f_equal; now apply IH);
    try (injection H as -> H; f_equal; now apply IH);
    try (injection H as E _; congruence).
Qed.

Lemma escape_is_injective_witness :
  Utils.escape "a<b&c" = Utils.escape "a<b&c" /\
  "a<b&c"%string = "a<b&c"%string.
Proof.
  split; [reflexivity|].
  apply (escape_is_injective "a<b&c" "a<b&c"). reflexivity.
Defined.

Lemma escape_append (s t : string) :
  Utils.escape (s ++ t) = (Utils.escape s ++ Utils.escape t)%string.
Proof.
  induction s as [|a s IH]; [reflexivity|].
  cbn [append]. rewrite !escape_cons, IH.
  generalize (Utils.escape_char a). intros e.
  induction e as [|c e IHe]; cbn; [reflexivity|now rewrite IHe].
Qed.

Lemma string_append_assoc (s t u : string) :
  ((s ++ t) ++ u = s ++ (t ++ u))%string.
Proof. induction s as [|a s IH]; cbn; [reflexivity|now rewrite IH]. Qed.

Lemma string_append_nil (s : string) : (s ++ "")%string = s.
Proof. induction s as [|a s IH]; cbn; [reflexivity|now rewrite IH]. Qed.

Lemma string_length_append (s t : string) :
  String.length (s ++ t) = (String.length s + String.length t)%nat.
Proof. induction s as [|a s IH]; cbn; [reflexivity|now rewrite IH]. Qed.

(** The last character of a string. *)
Lemma endsWith_char (c : ascii) (s : string) :
  JS.endsWith s (String c EmptyString) = true <->
  exists s', s = (s' ++ String c EmptyString)%string.
Proof.
  unfold JS.endsWith. cbn [String.length].
  induction s as [|a s IH].
  - cbn. split; [discriminate|]. intros ([|b s'] & E); discriminate.
  - destruct s as [|b s].
    + cbn. destruct (Ascii.eqb_spec a c) as [->|N]; split.
      * intros _. now exists EmptyString.
      * reflexivity.
      * discriminate.
      * intros ([|x s'] & E); cbn in E; [congruence|].
        injection E as _ E. destruct s'; discriminate.
    + cbn [String.length] in *.
      replace (S (S (String.length s)) - 1)%nat
        with (S (String.length s)) by lia.
      replace (S (String.length s) - 1)%nat
        with (String.length s) in IH by lia.
      cbn [Nat.leb] in *. cbn [andb] in *.
      change (substring (S (String.length s)) 1 (String a (String b s)))
        with (substring (String.length s) 1 (String b s)).
      rewrite IH. split.
      * intros (s' & E). exists (String a s'). cbn. now rewrite E.
      * intros ([|x s'] & E); cbn in E; [discriminate|].
        injection E as _ E. now exists s'.
Qed.

Lemma endsWith_char_append (c : ascii) (r s : string) :
  s <> EmptyString ->
  JS.endsWith (r ++ s) (String c EmptyString) =
  JS.endsWith s (String c EmptyString).
Proof.
  intros N.
  destruct (JS.endsWith s (String c EmptyString)) eqn:E.
  - apply endsWith_char in E as (s' & ->). apply endsWith_char.
    exists (r ++ s')%string. now rewrite string_append_assoc.
  - destruct (JS.endsWith (r ++ s) (String c EmptyString)) eqn:E';
      [|reflexivity].
    apply endsWith_char in E' as (u & Eu).
    assert (exists s', s = (s' ++ String c EmptyString)%string)
      as Hs; [|apply endsWith_char in Hs; congruence].
    clear E. revert u Eu. induction r as [|a r IH]; intros u Eu.
    + now exists u.
    + destruct u as [|x u]; cbn in Eu.
      * injection Eu as _ Eu. destruct r; [|discriminate].
        cbn in Eu. subst s. contradiction.
      * injection Eu as _ Eu. now apply (IH u).
Qed.

Lemma slice_last_append (r : string) (c : ascii) :
  Utils.slice_last (r ++ String c EmptyString) = r.
Proof.
  unfold Utils.slice_last. rewrite string_length_append. cbn [String.length].
  replace (String.length r + 1 - 1)%nat with (String.length r) by lia.
  induction r as [|a r IH]; cbn; [reflexivity|now rewrite IH].
Qed.

Lemma html_loop_escapes (values rest : list string) (result : string) :
  List.length rest = List.length values ->
  JS.endsWith result "$" = false ->
  Utils.closes_values rest ->
  Utils.html_loop result values rest =
  (result ++ Utils.interleave_escaped values rest)%string.
Proof.
  revert rest result.
  induction values as [|v values IH]; intros rest result L E C.
  - destruct rest; [|discriminate]. cbn. now rewrite string_append_nil.
  - destruct rest as [|s rest]; [discriminate|].
    cbn [Utils.html_loop Utils.interleave_escaped tl]. rewrite E.
    injection L as L.
    destruct values as [|v' values].
    + destruct rest; [|discriminate]. cbn.
      now rewrite string_append_nil.
    + destruct rest as [|s' rest]; [discriminate|].
      destruct C as [[Ns Es] C].
      rewrite IH; try assumption.
      * now rewrite !string_append_assoc.
      * rewrite <- string_append_assoc.
        now rewrite endsWith_char_append.
Qed.

(** X3.  In a template where the first string does not end in [$] and
    every string between two values is not empty and does not end in
    [$], [html] joins the strings with the escaped values; so when the
    strings have no [<], the result has none, whatever the values. *)
Theorem html_escapes_every_value (s0 : string) (values rest : list string) :
  List.length rest = List.length values ->
  JS.endsWith s0 "$" = false ->
  Utils.closes_values rest ->
  Utils.html (s0 :: rest) values =
    Some (s0 ++ Utils.interleave_escaped values rest)%string /\
  ((forall s, In s (s0 :: rest) -> ~ Utils.occurs "<" s) ->
   forall r, Utils.html (s0 :: rest) values = Some r ->
             ~ Utils.occurs "<" r).
Proof.
  intros L E C.
  assert (H : Utils.html (s0 :: rest) values =
              Some (s0 ++ Utils.interleave_escaped values rest)%string).
  { cbn [Utils.html]. now rewrite html_loop_escapes. }
  split; [exact H|].
  intros Hs r Hr. rewrite H in Hr. injection Hr as <-.
  rewrite occurs_append. intros [O|O]; [now apply (Hs s0 (or_introl eq_refl))|].
  assert (Hrest : forall s, In s rest -> ~ Utils.occurs "<" s)
    by (intros s Hin; apply Hs; now right).
  clear - O Hrest. revert rest O Hrest.
  induction values as [|v values IH]; intros [|s rest] O Hrest;
    cbn in O; try contradiction.
  rewrite !occurs_append in O. destruct O as [O|[O|O]].
  - apply escape_has_no_markup in O. apply O. now left.
  - now apply (Hrest s (or_introl eq_refl)).
  - apply (IH rest O). intros s' Hs'. apply Hrest. now right.
Qed.

Lemma html_escapes_every_value_witness :
  Utils.html ["<b>"; "</b>"] ["x<y"] = Some "<b>x&lt;y</b>".
Proof.
  exact (proj1 (html_escapes_every_value "<b>" ["x<y"] ["</b>"]
                  eq_refl eq_refl I)).
Defined.

(** X4.  [html] looks for the marker [$] at the end of the text built so
    far.  A string that ends in [$] before a value loses the [$] and the
    value is put in as it is.  The same happens to the value that comes
    right after a value ending in [$], with an empty string between the
    two: it is not escaped, and the [$] of the first value is lost. *)
Theorem html_dollar_puts_value_raw (s0 v1 v2 s1 s2 : string) :
  Utils.html [(s0 ++ "$")%string; s1] [v1] = Some (s0 ++ (v1 ++ s1))%string /\
  (JS.endsWith s0 "$" = false ->
   Utils.html [s0; EmptyString; s2] [(v1 ++ "$")%string; v2] =
   Some (s0 ++ (Utils.escape v1 ++ (v2 ++ s2)))%string).
Proof.
  split.
  - cbn [Utils.html Utils.html_loop tl].
    assert (E : JS.endsWith (s0 ++ "$") "$" = true)
      by (apply endsWith_char; now exists s0).
    rewrite E. now rewrite slice_last_append.
  - intros E0. cbn [Utils.html Utils.html_loop tl]. rewrite E0.
    rewrite escape_append. change (Utils.escape "$") with "$".
    rewrite string_append_nil, <- string_append_assoc.
    assert (E : JS.endsWith ((s0 ++ Utils.escape v1) ++ "$") "$" = true)
      by (apply endsWith_char; now eexists).
    rewrite E, slice_last_append. now rewrite string_append_assoc.
Qed.

Lemma html_dollar_puts_value_raw_witness :
  JS.endsWith "<p>" "$" = false /\
  Utils.html ["<p>"; EmptyString; "</p>"] ["5$"; "<b>"] = Some "<p>5<b></p>".
Proof.
  split; [reflexivity|].
  exact (proj2 (html_dollar_puts_value_raw "<p>" "5" "<b>" "" "</p>") eq_refl).
Defined.

(** ** Sorting again *)

Lemma strict_eq_eq (v w : Sorter.value) :
  Sorter.strict_eq v w = true <-> v = w.
Proof.
  destruct v as [s|n], w as [t|m]; cbn.
  - rewrite String.eqb_eq. split; congruence.
  - split; discriminate.
  - split; discriminate.
  - rewrite Z.eqb_eq. split; congruence.
Qed.

Lemma files_comparefn_zero (by_ : SortBy) (order : SortOrder)
    (a b : AppFile) :
  Sorter.files_comparefn by_ order a b = 0 <->
  sort_key by_ a = sort_key by_ b.
Proof.
  rewrite <- strict_eq_eq. unfold Sorter.files_comparefn, sort_key.
  destruct (Sorter.strict_eq _ _); [tauto|].
  destruct (Sorter.less_than _ _), (SortOrder_eqb order asc);
    split; intros; discriminate.
Qed.

Lemma equals_of_any_order (by_ : SortBy) (o o' : SortOrder) (a : AppFile)
    (l : list AppFile) :
  equals_of (Sorter.files_comparefn by_ o) a l =
  equals_of (Sorter.files_comparefn by_ o') a l.
Proof.
  unfold equals_of. apply filter_ext. intros b.
  destruct (Z.eqb_spec (Sorter.files_comparefn by_ o a b) 0) as [E|N];
    destruct (Z.eqb_spec (Sorter.files_comparefn by_ o' a b) 0) as [E'|N'];
    try reflexivity; exfalso.
  - apply N'. apply files_comparefn_zero.
    now apply (files_comparefn_zero by_ o).
  - apply N. apply files_comparefn_zero.
    now apply (files_comparefn_zero by_ o').
Qed.

Lemma sortFiles_again (by_ : SortBy) (o o' : SortOrder) (l : list AppFile) :
  Sorter.sortFiles by_ o (Sorter.sortFiles by_ o' l) = Sorter.sortFiles by_ o l.
Proof.
  unfold Sorter.sortFiles. apply sort_unique.
  - apply files_comparefn_consistent.
  - apply sort_sorted, files_comparefn_consistent.
  - intros a.
    rewrite (sort_keeps_order _ (files_comparefn_consistent by_ o)).
    rewrite (equals_of_any_order by_ o o').
    rewrite (sort_keeps_order _ (files_comparefn_consistent by_ o')).
    apply equals_of_any_order.
Qed.

(** X5.  Sorting files that were sorted before on the same key, in either
    direction, gives what sorting the original list gives: the sort is
    idempotent, and reversing the direction twice ([r] pressed twice)
    brings every file back to its place. *)
Theorem sorting_again_on_the_same_key
    (by_ : SortBy) (o o' : SortOrder) (l : list AppFile) :
  Sorter.sortFiles by_ o (Sorter.sortFiles by_ o' l) = Sorter.sortFiles by_ o l
  /\
  Sorter.sortFiles by_ o (Sorter.sortFiles by_ o' (Sorter.sortFiles by_ o l))
  = Sorter.sortFiles by_ o l.
Proof.
  split; [apply sortFiles_again|]. now rewrite !sortFiles_again.
Qed.

Lemma StronglySorted_snoc {A} (R : A -> A -> Prop) (l : list A) (x : A) :
  StronglySorted R l -> Forall (fun y => R y x) l ->
  StronglySorted R (l ++ [x]).
Proof.
  induction 1 as [|y l S IH F]; cbn; intros H.
  - repeat constructor.
  - apply Forall_cons_iff in H as [Hy H]. constructor; [now apply IH|].
    apply Forall_app. split; [assumption|now repeat constructor].
Qed.

Lemma StronglySorted_rev {A} (R : A -> A -> Prop) (l : list A) :
  StronglySorted R l -> StronglySorted (fun a b => R b a) (rev l).
Proof.
  induction 1 as [|x l S IH F]; cbn; [constructor|].
  apply StronglySorted_snoc; [assumption|].
  apply Forall_forall. intros y Hy. rewrite Forall_forall in F.
  apply F. now apply in_rev.
Qed.

Lemma StronglySorted_weaken {A} (R R' : A -> A -> Prop) (l : list A) :
  (forall a b, R a b -> R' a b) ->
  StronglySorted R l -> StronglySorted R' l.
Proof.
  intros H. induction 1 as [|x l S IH F]; constructor; [assumption|].
  eapply Forall_impl; [|exact F]. intros b. apply H.
Qed.

Lemma equals_of_distinct_keys (by_ : SortBy) (order : SortOrder)
    (a : AppFile) (l : list AppFile) :
  NoDup (map (sort_key by_) l) ->
  (List.length (equals_of (Sorter.files_comparefn by_ order) a l) <= 1)%nat.
Proof.
  unfold equals_of. induction l as [|x l IH]; cbn; intros H; [lia|].
  inversion H as [|? ? Hn Hd]; subst.
  destruct (Z.eqb_spec (Sorter.files_comparefn by_ order a x) 0) as [E|N];
    [|auto].
  cbn. apply files_comparefn_zero in E.
  assert (Z0 : filter (fun b => Sorter.files_comparefn by_ order a b =? 0) l
               = []).
  { destruct (filter _ l) as [|y r] eqn:Ef; [reflexivity|exfalso].
    assert (Hy : In y (filter
      (fun b => Sorter.files_comparefn by_ order a b =? 0) l))
      by (rewrite Ef; now left).
    apply filter_In in Hy as [Hy Ey]. apply Z.eqb_eq in Ey.
    apply files_comparefn_zero in Ey. apply Hn.
    rewrite <- E, Ey. now apply in_map. }
  rewrite Z0. cbn. lia.
Qed.

(** X6.  When no two files have the same key, the descending order is the
    ascending order read backwards. *)
Theorem descending_is_ascending_reversed
    (by_ : SortBy) (l : list AppFile) :
  NoDup (map (sort_key by_) l) ->
  Sorter.sortFiles by_ desc l = rev (Sorter.sortFiles by_ asc l).
Proof.
  intros D. unfold Sorter.sortFiles. symmetry.
  pose proof (files_comparefn_consistent by_ asc) as Ca.
  pose proof (files_comparefn_consistent by_ desc) as Cd.
  apply sort_unique; [exact Cd| |].
  - pose proof (sort_sorted _ Ca l) as S. apply StronglySorted_rev in S.
    unfold sorted_by. eapply StronglySorted_weaken; [|exact S].
    cbn. intros a b H. rewrite files_comparefn_desc.
    destruct (Z.lt_trichotomy (Sorter.files_comparefn by_ asc a b) 0)
      as [L|[L|L]]; [|lia|lia].
    apply (comparator_flip_lt _ Ca) in L. lia.
  - intros a. unfold equals_of at 1. rewrite filter_rev.
    fold (equals_of (Sorter.files_comparefn by_ desc) a
            (JS.sort (Sorter.files_comparefn by_ asc) l)).
    rewrite (equals_of_any_order by_ desc asc).
    rewrite (sort_keeps_order _ Ca).
    pose proof (equals_of_distinct_keys by_ asc a l D) as L1.
    rewrite (equals_of_any_order by_ desc asc a l).
    destruct (equals_of _ a l) as [|x [|y r]]; cbn in *;
      [reflexivity|reflexivity|lia].
Qed.

Lemma descending_is_ascending_reversed_witness :
  NoDup (map (sort_key name) (files (state abc))) /\
  map file_name (Sorter.sortFiles name desc (files (state abc)))
  = ["c"; "b"; "a"].
Proof.
  assert (D : NoDup (map (sort_key name) (files (state abc)))).
  { cbn. repeat constructor; cbn; intuition discriminate. }
  split; [exact D|].
  rewrite (descending_is_ascending_reversed name (files (state abc)) D).
  reflexivity.
Defined.

(** ** What a call leaves untouched, whatever its outcome *)

Lemma bind_Return {A B} (m : M A) (k : A -> M B) (app : App) (b : B)
    (app' : App) :
  bind m k app = Return b app' ->
  exists a app1, m app = Return a app1 /\ k a app1 = Return b app'.
Proof.
  unfold bind. destruct (m app) as [a app1|e app1]; [eauto|discriminate].
Qed.

Lemma media_frame_ret {A} (a : A) : media_frame (ret a).
Proof. intros app. apply media_only_refl. Qed.

Lemma media_frame_throw {A} (e : Error) : media_frame (@throw A e).
Proof. intros app. apply media_only_refl. Qed.

Lemma media_frame_gets {A} (f : App -> A) : media_frame (gets f).
Proof. intros app. apply media_only_refl. Qed.

Lemma media_frame_defined {A} (o : option A) : media_frame (defined o).
Proof. destruct o; [apply media_frame_ret|apply media_frame_throw]. Qed.

Lemma media_frame_modify (f : App -> App) :
  (forall app, media_only app (f app)) -> media_frame (modify f).
Proof. intros H app. apply H. Qed.

Lemma media_frame_bind {A B} (m : M A) (k : A -> M B) :
  media_frame m -> (forall a, media_frame (k a)) -> media_frame (bind m k).
Proof.
  intros Hm Hk app. unfold bind. specialize (Hm app).
  destruct (m app) as [a app1|e app1]; cbn in *; [|assumption].
  apply media_only_trans with app1; [assumption|apply Hk].
Qed.

Lemma media_frame_if {A} (b : bool) (m1 m2 : M A) :
  media_frame m1 -> media_frame m2 -> media_frame (if b then m1 else m2).
Proof. now destruct b. Qed.

Lemma media_frame_getImage (file : string) : media_frame (_getImage file).
Proof.
  intros app. destruct (_getImage_ok file app) as (h & app' & R & F & _).
  now rewrite R.
Qed.

Lemma media_frame_cleanupCache : media_frame _cleanupCache.
Proof.
  intros app. destruct (_cleanupCache_ok app) as (u & app' & R & F & _).
  now rewrite R.
Qed.

Lemma media_frame_getVideo (file : string) : media_frame (_getVideo file).
Proof.
  unfold _getVideo. apply media_frame_bind; [apply media_frame_gets|].
  intros v. apply media_frame_if;
    [apply media_frame_ret|apply media_frame_throw].
Qed.

Lemma media_frame_preload : media_frame _preloadNextAndPrevious.
Proof.
  unfold _preloadNextAndPrevious.
  apply media_frame_bind; [apply media_frame_gets|]. intros fs.
  apply media_frame_if; [apply media_frame_ret|].
  apply media_frame_bind; [apply media_frame_gets|]. intros i.
  apply media_frame_bind; [apply media_frame_defined|]. intros f.
  apply media_frame_bind.
  { apply media_frame_if; [|apply media_frame_ret].
    apply media_frame_bind; [apply media_frame_getImage|].
    intros; apply media_frame_ret. }
  intros _. apply media_frame_bind; [apply media_frame_defined|]. intros g.
  apply media_frame_if; [|apply media_frame_ret].
  apply media_frame_bind; [apply media_frame_getImage|].
  intros; apply media_frame_ret.
Qed.

Lemma media_frame_renderImage : media_frame _renderImage.
Proof.
  unfold _renderImage.
  apply media_frame_bind; [apply media_frame_gets|]. intros [file|].
  2:{ apply media_frame_modify. intros app. repeat split. }
  apply media_frame_bind.
  { apply media_frame_modify. intros app. repeat split. }
  intros _. apply media_frame_bind.
  { apply media_frame_if.
    - apply media_frame_bind; [apply media_frame_getVideo|].
      intros; apply media_frame_ret.
    - apply media_frame_bind; [apply media_frame_getImage|]. intros h.
      apply media_frame_bind; [apply media_frame_cleanupCache|].
      intros; apply media_frame_ret. }
  intros media. apply media_frame_bind.
  { apply media_frame_modify. intros app. repeat split. }
  intros _. apply media_frame_preload.
Qed.

(** Whatever the outcome of [_render], the state and the cursor are
    those before the call, the lists count as rebuilt, and the one call
    logged is that of the list rendering. *)
Lemma _render_after (app : App) :
  state (after (_render app)) = state app /\
  _fileIndex (after (_render app)) = _fileIndex app /\
  _listRebuildRequired (after (_render app)) = false /\
  _previousFolder (after (_render app)) = _previousFolder app /\
  effects (after (_render app)) =
    (effects app ++ [RenderList (_listRebuildRequired app)])%list.
Proof.
  unfold _render, bind, gets, modify. cbv beta iota.
  destruct (media_frame_renderImage
              (set_listRebuildRequired false
                 (add_effect (RenderList (_listRebuildRequired app)) app)))
    as (Hs & Hi & Hr & Hp & _ & He).
  destruct (_renderImage _) as [u app'|e app']; cbn in *; auto.
Qed.

Lemma last_saved_app (l l' : list Effect) :
  last_saved (l ++ l') =
  match last_saved l' with Some s => Some s | None => last_saved l end.
Proof.
  induction l as [|e l IH]; cbn.
  - now destruct (last_saved l').
  - rewrite IH. now destruct (last_saved l').
Qed.

(** A call that ends in [save(); _render()] and returns has saved the
    state it leaves. *)
Lemma save_render_saved (u : unit) (app app' : App) :
  (save ;; _render) app = Return u app' ->
  state app' = state app /\ _fileIndex app' = _fileIndex app /\
  last_saved (effects app') = Some (state app').
Proof.
  unfold save, bind at 1, bind at 1, gets, modify. cbv beta iota. intros R.
  destruct (_render_after (add_effect (Save (state app)) app))
    as (Hs & Hi & _ & _ & He).
  rewrite R in Hs, Hi, He. cbn in Hs, Hi, He.
  repeat split; try assumption.
  rewrite He, Hs, !last_saved_app. reflexivity.
Qed.

Lemma _render_saved (u : unit) (app app' : App) :
  _render app = Return u app' ->
  state app' = state app /\ _fileIndex app' = _fileIndex app /\
  last_saved (effects app') = last_saved (effects app).
Proof.
  intros R. destruct (_render_after app) as (Hs & Hi & _ & _ & He).
  rewrite R in Hs, Hi, He. cbn in Hs, Hi, He.
  repeat split; try assumption. rewrite He, last_saved_app. reflexivity.
Qed.

(** ** What is saved *)

(** Takes the first step off a call that returned. *)
Ltac peel H :=
  let a := fresh "a" in
  let app1 := fresh "app" in
  let H1 := fresh "Step" in
  apply bind_Return in H; destruct H as (a & app1 & H1 & H);
  try (first [ unfold gets in H1
             | unfold modify_state, modify in H1
             | unfold modify in H1
             | unfold ret in H1 ];
       inversion H1; subst; clear H1).

Lemma _resort_saved (u : unit) (app app' : App) :
  _resort app = Return u app' ->
  last_saved (effects app') = Some (state app').
Proof.
  unfold _resort. intros H. do 5 peel H.
  now apply save_render_saved in H.
Qed.

Lemma changeSort_saved (by_ : SortBy) (order : SortOrder) (u : unit)
    (app app' : App) :
  changeSort by_ order app = Return u app' ->
  app' = app \/ last_saved (effects app') = Some (state app').
Proof.
  unfold changeSort. intros H. peel H.
  destruct (SortBy_eqb _ _ && SortOrder_eqb _ _).
  - inversion H. now left.
  - do 2 peel H. right. now apply _resort_saved in H.
Qed.

Lemma nextFile_saved (u : unit) (app app' : App) :
  nextFile app = Return u app' ->
  app' = app \/ last_saved (effects app') = Some (state app').
Proof.
  unfold nextFile. intros H. peel H.
  destruct (_ =? 0).
  - inversion H. now left.
  - right. peel H.
    apply bind_Return in H as (a & app1 & _ & H).
    apply bind_Return in H as (x & app2 & S & H).
    unfold save, bind, gets, modify in S. inversion S; subst. clear S.
    apply bind_Return in H as (b & app3 & R & H).
    unfold modify in H. inversion H; subst. cbn.
    apply _render_saved in R as (Hs & _ & He). cbn in He, Hs.
    rewrite last_saved_app, He, last_saved_app. cbn. now rewrite Hs.
Qed.

Lemma prevFile_saved (u : unit) (app app' : App) :
  prevFile app = Return u app' ->
  app' = app \/ last_saved (effects app') = Some (state app').
Proof.
  unfold prevFile. intros H. peel H.
  destruct (_ =? 0).
  - inversion H. now left.
  - right. peel H.
    apply bind_Return in H as (a & app1 & _ & H).
    now apply save_render_saved in H.
Qed.

Lemma _fetchList_saved (path : option string) (force : bool)
    (r : FetchResult) (u : unit) (app app' : App) :
  _fetchList path force r app = Return u app' ->
  last_saved (effects app') = Some (state app').
Proof.
  unfold _fetchList. intros H.
  apply bind_Return in H as (data & app1 & _ & H).
  apply bind_Return in H as (d & app2 & _ & H).
  peel H. do 5 peel H.
  apply bind_Return in H as (a & app3 & _ & H).
  peel H.
  apply bind_Return in H as (b & app4 & _ & H).
  now apply save_render_saved in H.
Qed.

(** ** The handlers keep the application settled *)

Lemma ok_and_returns {A} (m : M A) (app : App) (P Q : A -> App -> Prop) :
  ok m app P ->
  (forall a app', m app = Return a app' -> Q a app') ->
  ok m app (fun a app' => P a app' /\ Q a app').
Proof.
  intros (a & app' & R & HP) HQ. exists a, app'. auto.
Qed.

Lemma index_Some_range {A} (l : list A) (i : Z) (x : A) :
  JS.index l i = Some x ->
  0 <= i < Z.of_nat (List.length l) /\ In x l.
Proof.
  unfold JS.index. destruct (Z.ltb_spec i 0); [discriminate|]. intros E.
  split; [|now apply nth_error_In in E].
  assert (Z.to_nat i < List.length l)%nat
    by (apply nth_error_Some; congruence).
  lia.
Qed.

Lemma selection_lists_path (app : App) (p : string) :
  selection_ok app -> currentFile (state app) = Some p ->
  lists_path (files (state app)) p.
Proof.
  unfold selection_ok. intros S E. rewrite E in S.
  destruct S as (f & Ef & Hp). exists f. split; [|assumption].
  now apply index_Some_range in Ef.
Qed.

Lemma first_with_path_index (l : list AppFile) (p : string) (i : Z) :
  first_with_path l p i ->
  exists f, JS.index l i = Some f /\ file_path f = p.
Proof.
  intros (Hpos & f & Hn & Hp & _). exists f. split; [|assumption].
  unfold JS.index. destruct (Z.ltb_spec i 0); [lia|assumption].
Qed.

Lemma _render_settled (app : App) :
  valid_volume (state app) = true -> cursor_near app ->
  ok _render app (fun _ app' =>
    state app' = state app /\ _fileIndex app' = _fileIndex app /\
    last_saved (effects app') = last_saved (effects app)).
Proof.
  intros V C.
  eapply ok_weaken.
  - apply ok_and_returns; [now apply _render_ok|].
    intros u app' R. exact (_render_saved u app app' R).
  - cbv beta. intros u app' [_ H]. exact H.
Qed.

Lemma save_render_settled (app : App) :
  valid_volume (state app) = true -> cursor_near app ->
  ok (save ;; _render) app (fun _ app' =>
    state app' = state app /\ _fileIndex app' = _fileIndex app /\
    last_saved (effects app') = Some (state app')).
Proof.
  intros V C.
  eapply ok_weaken.
  - apply ok_and_returns; [now apply save_render_ok|].
    intros u app' R. exact (save_render_saved u app app' R).
  - cbv beta. intros u app' [_ H]. exact H.
Qed.

(** The shape shared by the states a handler leaves. *)
Lemma settled_intro (app' : App) :
  valid_volume (state app') = true ->
  selection_ok app' ->
  (currentFile (state app') = None -> -1 <= _fileIndex app' <= 0) ->
  files_sorted (state app') ->
  last_saved (effects app') = Some (state app') ->
  settled app'.
Proof.
  intros V S C0 F L.
  assert (C : cursor_near app').
  { unfold cursor_near. unfold selection_ok in S.
    destruct (currentFile (state app')) as [p|].
    - destruct S as (f & Ef & _). apply index_Some_range in Ef. lia.
    - rewrite S. cbn. specialize (C0 eq_refl). lia. }
  unfold settled. auto.
Qed.

Lemma nextFile_settled (app : App) :
  settled app -> ok nextFile app (fun _ app' => settled app').
Proof.
  intros St. pose proof St as (V & C & S & F & L).
  destruct (files (state app)) as [|f0 fs] eqn:Ef.
  - exists tt, app. split; [|assumption].
    unfold nextFile, bind, gets. cbv beta iota. now rewrite Ef.
  - assert (N : files (state app) <> []) by (rewrite Ef; discriminate).
    eapply ok_weaken.
    + apply ok_and_returns; [now apply nextFile_ok|].
      intros u app' R. exact (nextFile_saved u app app' R).
    + cbv beta zeta. intros u app' [(f & Ei & Hs & Hi) Hsv].
      destruct Hsv as [->|Hsv]; [assumption|].
      apply settled_intro; rewrite ?Hs, ?Hi; try assumption.
      * unfold selection_ok. rewrite Hs, Hi. cbn. now exists f.
      * cbn. discriminate.
      * now rewrite <- Hs.
Qed.

Lemma prevFile_settled (app : App) :
  settled app -> ok prevFile app (fun _ app' => settled app').
Proof.
  intros St. pose proof St as (V & C & S & F & L).
  destruct (files (state app)) as [|f0 fs] eqn:Ef.
  - exists tt, app. split; [|assumption].
    unfold prevFile, bind, gets. cbv beta iota. now rewrite Ef.
  - assert (N : files (state app) <> []) by (rewrite Ef; discriminate).
    eapply ok_weaken.
    + apply ok_and_returns; [now apply prevFile_ok|].
      intros u app' R. exact (prevFile_saved u app app' R).
    + cbv beta zeta. intros u app' [(f & Ei & Hs & Hi) Hsv].
      destruct Hsv as [->|Hsv]; [assumption|].
      apply settled_intro; rewrite ?Hs, ?Hi; try assumption.
      * unfold selection_ok. rewrite Hs, Hi. cbn. now exists f.
      * cbn. discriminate.
      * now rewrite <- Hs.
Qed.

Lemma jump_settled (g : App -> Z) (f : AppFile) (app : App) :
  settled app ->
  JS.index (files (state app)) (g app) = Some f ->
  ok (modify (fun app => set_fileIndex (g app) app) ;;
      select_at_fileIndex ;; save ;; _render) app
    (fun _ app' =>
       settled app' /\
       state app' = set_currentFile (Some (file_path f)) (state app) /\
       _fileIndex app' = g app).
Proof.
  intros (V & C & S & F & L) Ef.
  unfold ok, bind at 1, modify at 1. cbv beta iota. unfold bind at 1.
  rewrite (select_at_fileIndex_ok (set_fileIndex (g app) app) f) by exact Ef.
  proj.
  match goal with |- context [(save ;; _render) ?X] =>
    destruct (save_render_settled X) as (u & app' & R & Hs & Hi & Hl)
  end.
  - exact V.
  - unfold cursor_near. proj. cbn. apply index_Some_range in Ef. lia.
  - proj_in Hs. proj_in Hi. exists u, app'. split; [exact R|].
    split; [|now split].
    apply settled_intro; rewrite ?Hs, ?Hi; try assumption.
    + unfold selection_ok. rewrite Hs, Hi. cbn. now exists f.
    + cbn. discriminate.
    + now rewrite <- Hs.
Qed.

Lemma resorted_settled_parts (s : AppState) (app' : App) :
  (match currentFile s with
   | Some p => lists_path (files s) p
   | None => files s = []
   end) ->
  state app' = resorted s ->
  _fileIndex app' = Z.max 0 (find_current (resorted s)) ->
  selection_ok app' /\
  (currentFile (state app') = None -> -1 <= _fileIndex app' <= 0) /\
  files_sorted (state app').
Proof.
  intros Hc Hs Hi. unfold selection_ok, files_sorted. rewrite Hs, Hi.
  change (currentFile (resorted s)) with (currentFile s).
  split; [|split].
  - destruct (currentFile s) as [p|] eqn:E.
    + apply first_with_path_index. now apply resorted_selection.
    + unfold resorted. cbn. now rewrite Hc.
  - intros E. rewrite E in Hc.
    destruct (find_current_range (resorted s)) as [R|R]; [lia|].
    unfold resorted in R. cbn in R. rewrite Hc in R. cbn in R. lia.
  - unfold resorted. cbn. symmetry. apply sortFiles_again.
Qed.

Lemma settled_current (app : App) :
  settled app ->
  match currentFile (state app) with
  | Some p => lists_path (files (state app)) p
  | None => files (state app) = []
  end.
Proof.
  intros (_ & _ & S & _).
  destruct (currentFile (state app)) as [p|] eqn:E.
  - now apply selection_lists_path.
  - unfold selection_ok in S. now rewrite E in S.
Qed.

Lemma sort_key_settled (by_ : SortBy) (order : SortOrder) (app : App) :
  settled app ->
  ok (changeSort by_ order ;; modify (set_listRebuildRequired true) ;;
      _render) app (fun _ app' =>
    settled app' /\
    state app' =
      if SortBy_eqb (sortBy (state app)) by_
         && SortOrder_eqb (sortOrder (state app)) order
      then state app
      else resorted (set_sortOrder order (set_sortBy by_ (state app)))).
Proof.
  intros St. pose proof St as (V & C & S & F & L).
  destruct (SortBy_eqb (sortBy (state app)) by_
            && SortOrder_eqb (sortOrder (state app)) order) eqn:Same.
  - unfold ok, bind at 1. rewrite (changeSort_same by_ order app Same).
    unfold bind at 1, modify at 1. cbv beta iota.
    destruct (_render_settled (set_listRebuildRequired true app) V C)
      as (u & app' & R & Hs & Hi & Hl).
    exists u, app'. split; [exact R|]. proj_in Hs. proj_in Hi. proj_in Hl.
    split; [|exact Hs].
    unfold settled, cursor_near, selection_ok. rewrite Hs, Hi, Hl. auto.
  - destruct (changeSort_ok by_ order app V Same)
      as (u1 & app1 & R1 & Hs1 & Hi1). cbv zeta in Hs1, Hi1.
    pose proof (changeSort_saved by_ order u1 app app1 R1) as Sv.
    set (s' := set_sortOrder order (set_sortBy by_ (state app))) in *.
    destruct (resorted_settled_parts s' app1 (settled_current app St) Hs1 Hi1)
      as (S1 & C1 & F1).
    assert (L1 : last_saved (effects app1) = Some (state app1)).
    { destruct Sv as [->|Sv]; assumption. }
    assert (V1 : valid_volume (state app1) = true) by (rewrite Hs1; exact V).
    assert (St1 : settled app1) by now apply settled_intro.
    unfold ok, bind at 1. rewrite R1.
    unfold bind at 1, modify at 1. cbv beta iota.
    destruct St1 as (_ & Cn1 & _).
    destruct (_render_settled (set_listRebuildRequired true app1) V1 Cn1)
      as (u & app' & R & Hs & Hi & Hl).
    exists u, app'. split; [exact R|]. proj_in Hs. proj_in Hi. proj_in Hl.
    split; [|now rewrite Hs].
    unfold settled, cursor_near, selection_ok. rewrite Hs, Hi, Hl. auto.
Qed.

Lemma _fetchList_settled (path : option string) (force : bool)
    (d : ResponseList) (app : App) :
  valid_volume (state app) = true ->
  ok (_fetchList path force (Listing d)) app (fun _ app' => settled app').
Proof.
  intros V.
  eapply ok_weaken.
  - apply ok_and_returns; [apply _fetchList_ok; exact V|].
    intros u app' R. exact (_fetchList_saved _ _ _ u app app' R).
  - cbv beta zeta. intros u app' [(Hempty & Hfirst & Hkeep) Hl].
    set (s1 := resorted (received d (state app))) in *.
    assert (F1 : files_sorted s1).
    { unfold files_sorted, s1, resorted. cbn. symmetry.
      apply sortFiles_again. }
    assert (V1 : valid_volume s1 = true) by exact V.
    destruct (Nat.eq_dec (List.length (files s1)) 0) as [Z0|NZ].
    + apply length_zero_iff_nil in Z0.
      destruct (Hempty Z0) as [Hs Hi].
      apply settled_intro; rewrite ?Hs, ?Hi; try assumption; try lia.
      * unfold selection_ok. rewrite Hs. cbn. exact Z0.
      * now rewrite <- Hs.
    + assert (Hne : files s1 <> [])
        by (intros E; apply NZ; now rewrite E).
      destruct (index_in_range (files s1) 0) as (f0 & E0); [lia|].
      destruct (Z.eq_dec (find_current s1) (-1)) as [E|N].
      * destruct (Hfirst f0 E0 E) as [Hs Hi].
        apply settled_intro; rewrite ?Hs, ?Hi; try assumption.
        -- unfold selection_ok. rewrite Hs, Hi. cbn. now exists f0.
        -- cbn. discriminate.
        -- now rewrite <- Hs.
      * destruct (Hkeep Hne N) as [Hs Hi].
        assert (Hpos : 0 <= find_current s1)
          by (destruct (find_current_range s1); lia).
        destruct (findIndex_first _ _ _ eq_refl Hpos)
          as (x & Hn & Hx & _).
        fold (find_current s1) in Hn.
        assert (Sel : selection_ok app').
        { unfold selection_ok. rewrite Hs, Hi.
          unfold path_is in Hx.
          destruct (currentFile s1) as [p|]; [|discriminate].
          exists x. apply String.eqb_eq in Hx. split; [|assumption].
          unfold JS.index. destruct (Z.ltb_spec (find_current s1) 0);
            [lia|assumption]. }
        apply settled_intro; rewrite ?Hs; try assumption.
        -- intros Ec. unfold selection_ok in Sel. rewrite Hs, Ec in Sel.
           contradiction.
        -- now rewrite <- Hs.
Qed.

Lemma click_file_settled (p : string) (app : App) :
  settled app -> lists_path (files (state app)) p ->
  ok (click_file p) app (fun _ app' =>
    settled app' /\
    state app' = set_currentFile (Some p) (state app) /\
    first_with_path (files (state app')) p (_fileIndex app')).
Proof.
  intros (V & C & S & F & L) Lp.
  unfold ok, click_file, bind at 1, modify_state at 1, modify at 1.
  cbv beta iota. unfold bind at 1, modify at 1. cbv beta iota. proj.
  assert (Fst : first_with_path (files (state app)) p
                  (JS.findIndex (path_is (Some p)) (files (state app)))).
  { apply (find_current_first (set_currentFile (Some p) (state app)) p);
      [reflexivity|exact Lp]. }
  match goal with |- context [(save ;; _render) ?X] =>
    destruct (save_render_settled X) as (u & app' & R & Hs & Hi & Hl)
  end.
  - exact V.
  - unfold cursor_near. proj. cbn.
    destruct (first_with_path_index _ _ _ Fst) as (f & Ef & _).
    apply index_Some_range in Ef. lia.
  - proj_in Hs. proj_in Hi. exists u, app'. split; [exact R|].
    rewrite Hs, Hi. split; [|split; [reflexivity|exact Fst]].
    apply settled_intro; rewrite ?Hs, ?Hi; try assumption.
    + unfold selection_ok. rewrite Hs, Hi. cbn.
      now apply first_with_path_index.
    + cbn. discriminate.
    + now rewrite <- Hs.
Qed.

Lemma showHidden_settled (app : App) :
  settled app ->
  ok (keydown KeyH false) app (fun _ app' =>
    settled app' /\
    state app' = set_showHidden (negb (showHidden (state app))) (state app)).
Proof.
  intros (V & C & S & F & L).
  unfold ok, keydown, bind at 1, modify_state at 1, modify at 1.
  cbv beta iota. unfold bind at 1, save, bind at 1, gets at 1, modify at 1.
  cbv beta iota. unfold bind at 1, modify at 1. cbv beta iota. proj.
  match goal with |- context [_render ?X] =>
    destruct (_render_settled X) as (u & app' & R & Hs & Hi & Hl)
  end.
  - exact V.
  - exact C.
  - proj_in Hs. proj_in Hi. proj_in Hl. exists u, app'.
    split; [exact R|]. split; [|exact Hs].
    rewrite last_saved_app in Hl. cbn in Hl.
    unfold settled, cursor_near, selection_ok, files_sorted.
    rewrite Hs, Hi, Hl. cbn. auto.
Qed.

(** ** The handlers keep the application steady *)

Lemma settled_steady (app : App) : settled app -> steady app.
Proof. intros (V & C & _ & F & L). unfold steady. auto. Qed.

(** A state that differs from a steady one in the selection and in a
    cursor near the files, once it is saved. *)
Lemma steady_selected (c : option string) (app app' : App) :
  steady app ->
  state app' = set_currentFile c (state app) ->
  -1 <= _fileIndex app' <= Z.of_nat (List.length (files (state app))) ->
  last_saved (effects app') = Some (state app') ->
  steady app'.
Proof.
  intros (V & C & F & L) Hs Hi Hl.
  unfold steady, cursor_near, files_sorted in *. rewrite Hs.
  split; [exact V|]. split; [exact Hi|]. split; [exact F|].
  now rewrite <- Hs.
Qed.

Lemma nextFile_steady (app : App) :
  steady app -> ok nextFile app (fun _ app' => steady app').
Proof.
  intros St. pose proof St as (V & C & F & L).
  destruct (files (state app)) as [|f0 fs] eqn:Ef.
  - exists tt, app. split; [|assumption].
    unfold nextFile, bind, gets. cbv beta iota. now rewrite Ef.
  - assert (N : files (state app) <> []) by (rewrite Ef; discriminate).
    eapply ok_weaken.
    + apply ok_and_returns; [now apply nextFile_ok|].
      intros u app' R. exact (nextFile_saved u app app' R).
    + cbv beta zeta. intros u app' [(f & Ei & Hs & Hi) Hsv].
      destruct Hsv as [->|Hsv]; [assumption|].
      apply (steady_selected (Some (file_path f)) app app'); try assumption.
      rewrite Hi. apply index_Some_range in Ei. lia.
Qed.

Lemma prevFile_steady (app : App) :
  steady app -> ok prevFile app (fun _ app' => steady app').
Proof.
  intros St. pose proof St as (V & C & F & L).
  destruct (files (state app)) as [|f0 fs] eqn:Ef.
  - exists tt, app. split; [|assumption].
    unfold prevFile, bind, gets. cbv beta iota. now rewrite Ef.
  - assert (N : files (state app) <> []) by (rewrite Ef; discriminate).
    eapply ok_weaken.
    + apply ok_and_returns; [now apply prevFile_ok|].
      intros u app' R. exact (prevFile_saved u app app' R).
    + cbv beta zeta. intros u app' [(f & Ei & Hs & Hi) Hsv].
      destruct Hsv as [->|Hsv]; [assumption|].
      apply (steady_selected (Some (file_path f)) app app'); try assumption.
      rewrite Hi. apply index_Some_range in Ei. lia.
Qed.

Lemma jump_steady (g : App -> Z) (f : AppFile) (app : App) :
  steady app ->
  JS.index (files (state app)) (g app) = Some f ->
  ok (modify (fun app => set_fileIndex (g app) app) ;;
      select_at_fileIndex ;; save ;; _render) app
    (fun _ app' => steady app').
Proof.
  intros St Ef. pose proof St as (V & C & F & L).
  unfold ok, bind at 1, modify at 1. cbv beta iota. unfold bind at 1.
  rewrite (select_at_fileIndex_ok (set_fileIndex (g app) app) f) by exact Ef.
  proj.
  match goal with |- context [(save ;; _render) ?X] =>
    destruct (save_render_settled X) as (u & app' & R & Hs & Hi & Hl)
  end.
  - exact V.
  - unfold cursor_near. proj. cbn. apply index_Some_range in Ef. lia.
  - proj_in Hs. proj_in Hi. exists u, app'. split; [exact R|].
    apply (steady_selected (Some (file_path f)) app app'); try assumption.
    rewrite Hi. apply index_Some_range in Ef. lia.
Qed.

Lemma showHidden_steady (app : App) :
  steady app -> ok (keydown KeyH false) app (fun _ app' => steady app').
Proof.
  intros (V & C & F & L).
  unfold ok, keydown, bind at 1, modify_state at 1, modify at 1.
  cbv beta iota. unfold bind at 1, save, bind at 1, gets at 1, modify at 1.
  cbv beta iota. unfold bind at 1, modify at 1. cbv beta iota. proj.
  match goal with |- context [_render ?X] =>
    destruct (_render_settled X) as (u & app' & R & Hs & Hi & Hl)
  end.
  - exact V.
  - exact C.
  - proj_in Hs. proj_in Hi. proj_in Hl. exists u, app'.
    split; [exact R|].
    rewrite last_saved_app in Hl. cbn in Hl.
    unfold steady, cursor_near, files_sorted.
    rewrite Hs, Hi, Hl. cbn. auto.
Qed.

Lemma sort_key_steady (by_ : SortBy) (order : SortOrder) (app : App) :
  steady app ->
  ok (changeSort by_ order ;; modify (set_listRebuildRequired true) ;;
      _render) app (fun _ app' => steady app').
Proof.
  intros St. pose proof St as (V & C & F & L).
  destruct (SortBy_eqb (sortBy (state app)) by_
            && SortOrder_eqb (sortOrder (state app)) order) eqn:Same.
  - unfold ok, bind at 1. rewrite (changeSort_same by_ order app Same).
    unfold bind at 1, modify at 1. cbv beta iota.
    destruct (_render_settled (set_listRebuildRequired true app) V C)
      as (u & app' & R & Hs & Hi & Hl).
    exists u, app'. split; [exact R|]. proj_in Hs. proj_in Hi. proj_in Hl.
    unfold steady, cursor_near. rewrite Hs, Hi, Hl. auto.
  - destruct (changeSort_ok by_ order app V Same)
      as (u1 & app1 & R1 & Hs1 & Hi1). cbv zeta in Hs1, Hi1.
    pose proof (changeSort_saved by_ order u1 app app1 R1) as Sv.
    set (s' := set_sortOrder order (set_sortBy by_ (state app))) in *.
    assert (L1 : last_saved (effects app1) = Some (state app1)).
    { destruct Sv as [->|Sv]; assumption. }
    assert (V1 : valid_volume (state app1) = true) by (rewrite Hs1; exact V).
    assert (C1 : cursor_near app1).
    { unfold cursor_near. rewrite Hs1, Hi1.
      destruct (find_current_range (resorted s')); lia. }
    assert (F1 : files_sorted (state app1)).
    { unfold files_sorted. rewrite Hs1. unfold resorted. cbn. symmetry.
      apply sortFiles_again. }
    unfold ok, bind at 1. rewrite R1.
    unfold bind at 1, modify at 1. cbv beta iota.
    destruct (_render_settled (set_listRebuildRequired true app1) V1 C1)
      as (u & app' & R & Hs & Hi & Hl).
    exists u, app'. split; [exact R|]. proj_in Hs. proj_in Hi. proj_in Hl.
    unfold steady, cursor_near. rewrite Hs, Hi, Hl. auto.
Qed.

(** The click on a link, whether its file is still listed or not: the
    cursor is where [findIndex] finds the path, or -1. *)
Lemma click_file_steady (p : string) (app : App) :
  steady app ->
  ok (click_file p) app (fun _ app' =>
    steady app' /\
    state app' = set_currentFile (Some p) (state app) /\
    _fileIndex app' = JS.findIndex (path_is (Some p)) (files (state app))).
Proof.
  intros St. pose proof St as (V & C & F & L).
  unfold ok, click_file, bind at 1, modify_state at 1, modify at 1.
  cbv beta iota. unfold bind at 1, modify at 1. cbv beta iota. proj.
  pose proof (findIndex_range (path_is (Some p)) (files (state app))) as Rg.
  match goal with |- context [(save ;; _render) ?X] =>
    destruct (save_render_settled X) as (u & app' & R & Hs & Hi & Hl)
  end.
  - exact V.
  - unfold cursor_near. proj.
    change (files (set_currentFile (Some p) (state app)))
      with (files (state app)).
    lia.
  - proj_in Hs. proj_in Hi.
    change (files (set_currentFile (Some p) (state app)))
      with (files (state app)) in Hi.
    exists u, app'. split; [exact R|].
    split; [|split; [exact Hs|exact Hi]].
    apply (steady_selected (Some p) app app'); try assumption.
    rewrite Hi. lia.
Qed.

Lemma move_steady (towards : Q -> Q -> Q) (page : Position.Page)
    (pos : Q * Q) (app : App) (I : App -> Prop) :
  imageHolder app <> None ->
  (forall x y, I (add_effect (SetObjectPosition x y) app)) ->
  ok (move towards page pos) app (fun _ app' => I app').
Proof.
  intros H HI. unfold move, ok, bind, gets.
  destruct (imageHolder app) as [m|]; [|contradiction].
  destruct pos as [x y]. eexists. eexists. split; [reflexivity|apply HI].
Qed.

Lemma steady_logged (x y : Q) (app : App) :
  steady app -> steady (add_effect (SetObjectPosition x y) app).
Proof.
  intros (V & C & F & L). unfold steady, cursor_near. proj.
  rewrite last_saved_app. cbn. auto.
Qed.

Lemma settled_moved (x y : Q) (app : App) :
  settled app -> settled (add_effect (SetObjectPosition x y) app).
Proof.
  intros (V & C & S & F & L). unfold settled, cursor_near, selection_ok.
  proj. rewrite last_saved_app. cbn. auto.
Qed.

Lemma wheel_turned (deltaY : Q) (fit : bool) (page : Position.Page)
    (pos : Q * Q) (app : App) (I : App -> Prop) :
  possible (Wheel deltaY fit page pos) app ->
  I app ->
  (forall x y, I (add_effect (SetObjectPosition x y) app)) ->
  ok prevFile app (fun _ app' => I app') ->
  ok nextFile app (fun _ app' => I app') ->
  ok (wheel deltaY fit page pos) app (fun _ app' => I app').
Proof.
  intros P H Hm Hp Hn. unfold wheel.
  destruct (deltaY ?= 0)%Q eqn:E.
  - now apply ok_ret.
  - destruct fit; [|exact Hp]. cbn in P. apply move_steady; [|exact Hm].
    destruct P as [Z|N]; [|exact N].
    apply Qeq_alt in Z. congruence.
  - destruct fit; [|exact Hn]. cbn in P. apply move_steady; [|exact Hm].
    destruct P as [Z|N]; [|exact N].
    apply Qeq_alt in Z. congruence.
Qed.

Lemma dispatch_steady (e : Event) (app : App) :
  steady app -> possible e app ->
  ok (dispatch e) app (fun _ app' => steady app').
Proof.
  intros St P. pose proof St as (V & C & F & L).
  destruct e as [key fit|deltaY fit page pos|p|p d|d|v]; cbn [dispatch].
  - destruct key; cbn [keydown].
    + now apply nextFile_steady.
    + now apply prevFile_steady.
    + destruct fit.
      * apply ok_modify. now apply steady_logged.
      * cbn in P.
        destruct (index_in_range (files (state app)) 0) as (f & Ef).
        { destruct (files (state app)); [contradiction|cbn [List.length]; lia]. }
        apply (jump_steady (fun _ => 0) f app St Ef).
    + destruct fit.
      * apply ok_modify. now apply steady_logged.
      * cbn in P.
        destruct (index_in_range (files (state app))
                    (Z.of_nat (List.length (files (state app))) - 1))
          as (f & Ef).
        { destruct (files (state app)); [contradiction|cbn [List.length]; lia]. }
        apply (jump_steady
                 (fun app => Z.of_nat (List.length (files (state app))) - 1)
                 f app St Ef).
    + now apply ok_ret.
    + now apply showHidden_steady.
    + apply ok_bind with (P := fun s app' => app' = app /\ s = state app);
        [now apply ok_gets|].
      intros s ? [-> ->]. now apply sort_key_steady.
    + apply ok_bind with (P := fun s app' => app' = app /\ s = state app);
        [now apply ok_gets|].
      intros s ? [-> ->]. now apply sort_key_steady.
    + apply ok_bind with (P := fun s app' => app' = app /\ s = state app);
        [now apply ok_gets|].
      intros s ? [-> ->]. now apply sort_key_steady.
    + now apply ok_ret.
    + now apply ok_ret.
  - apply wheel_turned; try assumption.
    + intros x y. now apply steady_logged.
    + now apply prevFile_steady.
    + now apply nextFile_steady.
  - eapply ok_weaken; [now apply click_file_steady|].
    now intros u app' [H _].
  - unfold click_folder, ok, bind at 1, modify at 1. cbv beta iota.
    eapply ok_weaken; [now apply _fetchList_settled|].
    intros u app'. apply settled_steady.
  - apply ok_bind with (P := fun _ app' => app' = app);
      [now apply ok_gets|].
    intros path ? ->.
    eapply ok_weaken; [now apply _fetchList_settled|].
    intros u app'. apply settled_steady.
  - cbn in P. unfold on_volumechange, save, modify_state.
    eexists. eexists. split; [reflexivity|].
    unfold steady, cursor_near, files_sorted, valid_volume.
    proj. rewrite last_saved_app. cbn. auto.
Qed.

Lemma dispatch_settled (e : Event) (app : App) :
  settled app -> possible e app -> on_listed e app ->
  ok (dispatch e) app (fun _ app' => settled app').
Proof.
  intros St P Ls. pose proof St as (V & C & S & F & L).
  destruct e as [key fit|deltaY fit page pos|p|p d|d|v]; cbn [dispatch].
  - destruct key; cbn [keydown].
    + now apply nextFile_settled.
    + now apply prevFile_settled.
    + destruct fit.
      * apply ok_modify. now apply settled_moved.
      * cbn in P.
        destruct (index_in_range (files (state app)) 0) as (f & Ef).
        { destruct (files (state app)); [contradiction|cbn [List.length]; lia]. }
        eapply ok_weaken; [apply (jump_settled (fun _ => 0) f app St Ef)|].
        now intros u app' [H _].
    + destruct fit.
      * apply ok_modify. now apply settled_moved.
      * cbn in P.
        destruct (index_in_range (files (state app))
                    (Z.of_nat (List.length (files (state app))) - 1))
          as (f & Ef).
        { destruct (files (state app)); [contradiction|cbn [List.length]; lia]. }
        eapply ok_weaken;
          [apply (jump_settled
                    (fun app => Z.of_nat (List.length (files (state app))) - 1)
                    f app St Ef)|].
        now intros u app' [H _].
    + now apply ok_ret.
    + eapply ok_weaken; [now apply showHidden_settled|].
      now intros u app' [H _].
    + apply ok_bind with (P := fun s app' => app' = app /\ s = state app);
        [now apply ok_gets|].
      intros s ? [-> ->].
      eapply ok_weaken; [now apply sort_key_settled|].
      now intros u app' [H _].
    + apply ok_bind with (P := fun s app' => app' = app /\ s = state app);
        [now apply ok_gets|].
      intros s ? [-> ->].
      eapply ok_weaken; [now apply sort_key_settled|].
      now intros u app' [H _].
    + apply ok_bind with (P := fun s app' => app' = app /\ s = state app);
        [now apply ok_gets|].
      intros s ? [-> ->].
      eapply ok_weaken; [now apply sort_key_settled|].
      now intros u app' [H _].
    + now apply ok_ret.
    + now apply ok_ret.
  - apply wheel_turned; try assumption.
    + intros x y. now apply settled_moved.
    + now apply prevFile_settled.
    + now apply nextFile_settled.
  - cbn in Ls. eapply ok_weaken; [now apply click_file_settled|].
    now intros u app' [H _].
  - unfold click_folder, ok, bind at 1, modify at 1. cbv beta iota.
    now apply _fetchList_settled.
  - apply ok_bind with (P := fun _ app' => app' = app);
      [now apply ok_gets|].
    intros path ? ->. now apply _fetchList_settled.
  - cbn in P. unfold on_volumechange, save, modify_state.
    eexists. eexists. split; [reflexivity|].
    unfold settled, cursor_near, selection_ok, files_sorted, valid_volume.
    proj. rewrite last_saved_app. cbn. auto.
Qed.

Lemma browsing_settled : settled browsing.
Proof.
  destruct (_fetchList_settled None true (gallery 3) started eq_refl)
    as ([] & a & R & H).
  unfold browsing. rewrite R. exact H.
Qed.





Lemma reached_steady (app0 app : App) :
  steady app0 -> reached app0 app -> steady app.
Proof.
  intros S0. induction 1 as [|app app' e _ IH P R]; [assumption|].
  destruct (dispatch_steady e app IH P) as (u & a & R' & H).
  rewrite R in R'. now injection R' as _ <-.
Qed.

Lemma browsed_settled (app0 app : App) :
  settled app0 -> browsed app0 app -> settled app.
Proof.
  intros S0. induction 1 as [|app app' e _ IH P Ls R]; [assumption|].
  destruct (dispatch_settled e app IH P Ls) as (u & a & R' & H).
  rewrite R in R'. now injection R' as _ <-.
Qed.

Lemma browsed_reached (app0 app : App) : browsed app0 app -> reached app0 app.
Proof.
  induction 1 as [|app app' e _ IH P _ R]; [apply reached_start|].
  now apply (reached_step app0 app app' e).
Qed.

(** X9.  From a steady application on, whatever possible events follow
    one another, the application stays steady; in particular storage
    always holds the state.  From a settled application on, as long as
    every click on a file is on the link of a listed one, it stays
    settled, and the selected path is always the path of a listed
    file. *)
Theorem every_reached_state_is_steady (app0 app : App) :
  steady app0 -> reached app0 app ->
  steady app /\
  last_saved (effects app) = Some (state app) /\
  (settled app0 -> browsed app0 app ->
   settled app /\
   match currentFile (state app) with
   | Some p => lists_path (files (state app)) p
   | None => files (state app) = []
   end).
Proof.
  intros S0 R. pose proof (reached_steady app0 app S0 R) as S.
  split; [exact S|]. split; [apply S|].
  intros Se B. pose proof (browsed_settled app0 app Se B) as Se'.
  split; [exact Se'|now apply settled_current].
Qed.

Lemma every_reached_state_is_steady_witness :
  steady browsing /\
  exists app,
    reached browsing app /\ browsed browsing app /\
    steady app /\ settled app /\
    last_saved (effects app) = Some (state app).
Proof.
  assert (St : steady browsing) by exact (settled_steady _ browsing_settled).
  split; [exact St|].
  assert (P1 : possible (Keydown KeyEnd false) browsing)
    by (vm_compute; discriminate).
  destruct (dispatch_settled _ _ browsing_settled P1 I) as ([] & a1 & R1 & S1).
  assert (P2 : possible (Keydown KeyR false) a1) by exact I.
  destruct (dispatch_settled (Keydown KeyR false) a1 S1 P2 I)
    as ([] & a2 & R2 & S2).
  assert (B : browsed browsing a2).
  { apply (browsed_step browsing a1 a2 (Keydown KeyR false));
      [|exact P2|exact I|exact R2].
    apply (browsed_step browsing browsing a1 (Keydown KeyEnd false));
      [apply browsed_start|exact P1|exact I|exact R1]. }
  pose proof (browsed_reached browsing a2 B) as Re.
  exists a2. split; [exact Re|]. split; [exact B|].
  destruct (every_reached_state_is_steady browsing a2 St Re) as (S & L & H).
  destruct (H browsing_settled B) as (Se & _).
  split; [exact S|]. split; [exact Se|exact L].
Defined.

(** ** The keys *)

(** X10.  On an empty list of files the keys [Home] and [End], outside
    the fit modes, throw a [TypeError] after they have set the cursor to
    0 and to -1, where [PageDown] and [PageUp] return and change
    nothing. *)
Theorem home_and_end_throw_on_empty_list (app : App) :
  files (state app) = [] ->
  keydown KeyHome false app = Throw TypeError (set_fileIndex 0 app) /\
  keydown KeyEnd false app = Throw TypeError (set_fileIndex (-1) app) /\
  keydown KeyPageDown false app = Return tt app /\
  keydown KeyPageUp false app = Return tt app.
Proof.
  intros E.
  unfold keydown, nextFile, prevFile, select_at_fileIndex, bind, gets,
    modify, defined, throw, ret.
  cbv beta iota. proj. rewrite E. repeat split.
Qed.

Lemma home_and_end_throw_on_empty_list_witness :
  files (state started) = [] /\
  keydown KeyHome false started = Throw TypeError (set_fileIndex 0 started).
Proof.
  split; [reflexivity|].
  exact (proj1 (home_and_end_throw_on_empty_list started eq_refl)).
Defined.















(** ** Loading the stored state *)

Lemma merged_stringified (s : AppState) (f : StoredFields) :
  stringified s = ItemJSON f -> merged f = s.
Proof. intros E. injection E as <-. now destruct s. Qed.

Lemma find_current_selection (s : AppState) (i : Z) :
  match currentFile s with
  | Some p => lists_path (files s) p
  | None => files s = []
  end ->
  i = Z.max 0 (find_current s) ->
  match currentFile s with
  | None => files s = []
  | Some p => exists f, JS.index (files s) i = Some f /\ file_path f = p
  end /\ -1 <= i <= Z.of_nat (List.length (files s)).
Proof.
  intros H ->. destruct (currentFile s) as [p|] eqn:E.
  - pose proof (find_current_first s p E H) as Fp.
    destruct Fp as [Hpos Fp]. rewrite Z.max_r by assumption.
    destruct (first_with_path_index _ _ _ (conj Hpos Fp)) as (f & Ef & Hp).
    split; [now exists f|]. apply index_Some_range in Ef. lia.
  - split; [assumption|]. rewrite H. cbn.
    destruct (find_current_range s) as [R|R]; [lia|].
    rewrite H in R. cbn in R. lia.
Qed.


Lemma nth_error_path_unique (l : list AppFile) (i j : nat) (f g : AppFile) :
  NoDup (map file_path l) ->
  nth_error l i = Some f -> nth_error l j = Some g ->
  file_path f = file_path g -> i = j.
Proof.
  intros D Ei Ej E.
  assert (Li : (i < List.length (map file_path l))%nat).
  { rewrite length_map. apply nth_error_Some. congruence. }
  apply (proj1 (NoDup_nth_error (map file_path l)) D i j Li).
  rewrite !nth_error_map, Ei, Ej. cbn. now rewrite E.
Qed.

(** X16.  Loading what a settled application has saved gives back its
    state, with the cursor on a file that has the selected path; when no
    two files have the same path, it is the cursor the application
    had. *)
Theorem load_restores_what_was_saved (app fresh : App) :
  settled app ->
  ok (load (stored_item (effects app))) fresh (fun _ app' =>
    state app' = state app /\
    selection_ok app' /\
    (NoDup (map file_path (files (state app))) ->
     files (state app) <> [] ->
     _fileIndex app' = _fileIndex app)).
Proof.
  intros St. pose proof St as (V & C & S & F & L).
  unfold stored_item. rewrite L.
  unfold load, ok, bind, modify, ret. cbv beta iota.
  eexists. eexists. split; [reflexivity|]. proj.
  rewrite (merged_stringified (state app) _ eq_refl).
  destruct (find_current_selection (state app)
              (Z.max 0 (find_current (state app)))
              (settled_current app St) eq_refl) as [Sel _].
  split; [reflexivity|]. split; [exact Sel|].
  intros D N. unfold selection_ok in S.
  destruct (currentFile (state app)) as [p|] eqn:Ec; [|contradiction].
  destruct Sel as (f & Ef & Hf). destruct S as (g & Eg & Hg).
  pose proof (index_Some_range _ _ _ Ef) as [Rf _].
  pose proof (index_Some_range _ _ _ Eg) as [Rg _].
  unfold JS.index in Ef, Eg.
  destruct (Z.ltb_spec (Z.max 0 (find_current (state app))) 0); [lia|].
  destruct (Z.ltb_spec (_fileIndex app) 0); [lia|].
  assert (E : Z.to_nat (Z.max 0 (find_current (state app)))
              = Z.to_nat (_fileIndex app)).
  { eapply nth_error_path_unique; eauto. congruence. }
  lia.
Qed.

Lemma load_restores_what_was_saved_witness :
  settled browsing /\
  exists app',
    load (stored_item (effects browsing)) started = Return tt app' /\
    state app' = state browsing /\ _fileIndex app' = _fileIndex browsing.
Proof.
  split; [exact browsing_settled|].
  destruct (load_restores_what_was_saved browsing started browsing_settled)
    as ([] & app' & R & Hs & _ & Hi).
  exists app'. split; [exact R|]. split; [exact Hs|]. apply Hi.
  - vm_compute. repeat constructor; cbn; intuition discriminate.
  - vm_compute. discriminate.
Defined.

(** ** Polling *)







(** ** The image cache *)

Lemma get_set (c : Cache.t) (k k' : string) (e : CacheEntry) :
  Cache.get (Cache.set c k e) k' =
  if String.eqb k k' then Some e else Cache.get c k'.
Proof.
  induction c as [|[k0 e0] c IH]; cbn.
  - now destruct (String.eqb k k').
  - destruct (String.eqb_spec k0 k) as [->|N]; cbn.
    + now destruct (String.eqb k k').
    + rewrite IH. destruct (String.eqb_spec k0 k') as [->|N'];
        [|reflexivity].
      destruct (String.eqb_spec k k') as [->|]; [now contradiction N|].
      reflexivity.
Qed.

Lemma get_set_cases (c : Cache.t) (file k : string) (e e1 : CacheEntry) :
  Cache.get (Cache.set c file e) k = Some e1 ->
  (k = file /\ e1 = e) \/ (k <> file /\ Cache.get c k = Some e1).
Proof.
  rewrite get_set. destruct (String.eqb_spec file k) as [->|N].
  - intros E. injection E as <-. now left.
  - intros E. right. split; [congruence|exact E].
Qed.

Lemma get_delete_Some (c : Cache.t) (k k' : string) (e : CacheEntry) :
  Cache.get (Cache.delete c k) k' = Some e -> Cache.get c k' = Some e.
Proof.
  destruct (String.eqb_spec k k') as [->|N].
  - now rewrite get_delete_same.
  - now rewrite get_delete_other.
Qed.

(** What [_getImage] does to the cache and the store, in one statement
    for a path that is cached and one that is not. *)
Lemma _getImage_effect (file : string) (app : App) :
  exists h app',
    _getImage file app = Return h app' /\
    _fileCache app' =
      Cache.set (_fileCache app) file (mkEntry h (clock app (ticks app))) /\
    imageHolder app' = imageHolder app /\
    (forall h', h' <> h -> heap app' h' = heap app h') /\
    match Cache.get (_fileCache app) file with
    | Some e =>
        h = img e /\ allocated app' = allocated app /\
        (heap app' h = heap app h \/
         loads (heap app' h) = Some file /\
         img_classList (heap app' h) = img_classList (heap app h))
    | None =>
        h = allocated app /\ allocated app' = S (allocated app) /\
        loads (heap app' h) = Some file /\
        img_classList (heap app' h) = ["media-item"%string]
    end.
Proof.
  destruct (Cache.get (_fileCache app) file) as [e|] eqn:G.
  - destruct (JS.endsWith file ".gif") eqn:Gif.
    + destruct (_getImage_cached_gif file e app G Gif)
        as (app' & R & _ & Ih & C & Al & Hh & Ho & _).
      exists (img e), app'. repeat (split; [assumption|]).
      split; [reflexivity|]. split; [exact Al|]. right.
      rewrite Hh. split; reflexivity.
    + exists (img e). eexists.
      split; [exact (_getImage_cached file e app G Gif)|].
      proj. repeat (split; [reflexivity|]). now left.
  - destruct (_getImage_new file app G)
      as (app' & R & _ & Ih & C & Al & Hh & Ho & _).
    exists (allocated app), app'. repeat (split; [assumption|]).
    split; [reflexivity|]. split; [exact Al|].
    rewrite Hh. split; reflexivity.
Qed.

Lemma _cleanupCache_effect (app : App) :
  exists app',
    _cleanupCache app = Return tt app' /\
    heap app' = heap app /\ allocated app' = allocated app /\
    imageHolder app' = imageHolder app /\
    state app' = state app /\ _fileIndex app' = _fileIndex app /\
    (_fileCache app' = _fileCache app \/
     exists k, _fileCache app' = Cache.delete (_fileCache app) k).
Proof.
  destruct (Z.le_gt_cases (cache_size app) MAX_CACHED_IMAGES) as [S|L].
  - exists app. split; [now apply _cleanupCache_small|].
    repeat (split; [reflexivity|]). now left.
  - destruct (_cleanupCache_full app L) as (k & R & _).
    eexists. split; [exact R|]. proj.
    repeat (split; [reflexivity|]). right. now exists k.
Qed.

Lemma cache_sound_getImage (file : string) :
  preserved cache_sound (_getImage file).
Proof.
  intros app (W & H & Inj).
  destruct (_getImage_effect file app) as (h & app' & R & C & _ & Ho & M).
  rewrite R. cbn [after].
  assert (Old : forall k e1, k <> file ->
            Cache.get (_fileCache app) k = Some e1 ->
            img e1 <> h /\ (img e1 < allocated app')%nat).
  { intros k e1 N G1. destruct (H k e1 G1) as (Lt & _).
    destruct (Cache.get (_fileCache app) file) as [e|] eqn:G.
    - destruct M as (-> & -> & _). split; [|exact Lt].
      intros E. apply N. exact (Inj k file e1 e G1 G E).
    - destruct M as (-> & -> & _). split; lia. }
  assert (New : (h < allocated app')%nat /\
                loads (heap app' h) = Some file /\
                In "media-item"%string (img_classList (heap app' h))).
  { destruct (Cache.get (_fileCache app) file) as [e|] eqn:G.
    - destruct M as (-> & -> & Hh). destruct (H file e G) as (Lt & Src & Cl).
      split; [exact Lt|].
      destruct Hh as [->|[Src' ->]]; [now split|now split].
    - destruct M as (-> & -> & Src & ->). split; [lia|].
      split; [exact Src|now left]. }
  unfold cache_sound. rewrite C. split; [now apply set_wf|]. split.
  - intros k e1 G1. apply get_set_cases in G1 as [[-> ->]|[N G1]].
    + exact New.
    + destruct (Old k e1 N G1) as [Ne Lt]. rewrite (Ho _ Ne).
      destruct (H k e1 G1) as (_ & Src & Cl). now split.
  - intros k k' e1 e2 G1 G2 E.
    apply get_set_cases in G1 as [[-> ->]|[N1 G1]];
      apply get_set_cases in G2 as [[-> ->]|[N2 G2]].
    + reflexivity.
    + cbn [img] in E. destruct (Old k' e2 N2 G2) as [Ne _]. congruence.
    + cbn [img] in E. destruct (Old k e1 N1 G1) as [Ne _]. congruence.
    + exact (Inj k k' e1 e2 G1 G2 E).
Qed.

Lemma cache_sound_cleanupCache : preserved cache_sound _cleanupCache.
Proof.
  intros app (W & H & Inj).
  destruct (_cleanupCache_effect app)
    as (app' & R & Hh & Al & _ & _ & _ & C).
  rewrite R. cbn [after]. unfold cache_sound. rewrite Hh, Al.
  destruct C as [->|[k ->]]; [now split|].
  split; [now apply delete_wf|]. split.
  - intros k0 e G. apply get_delete_Some in G. now apply H.
  - intros k1 k2 e1 e2 G1 G2. apply get_delete_Some in G1, G2.
    now apply Inj.
Qed.

(** *** A property of the cache and the image store is kept by every
    handler once [_getImage] and [_cleanupCache] keep it *)

Create HintDb kept.

Section Invariant.

Variable I : App -> Prop.

Hypothesis I_media : forall app app',
  _fileCache app' = _fileCache app -> heap app' = heap app ->
  allocated app' = allocated app -> I app -> I app'.

Hypothesis I_getImage : forall file,
  is_video file = false -> preserved I (_getImage file).

Hypothesis I_cleanupCache : preserved I _cleanupCache.

Lemma preserved_ret {A} (a : A) : preserved I (ret a).
Proof. intros app H. exact H. Qed.

Lemma preserved_throw {A} (e : Error) : preserved I (@throw A e).
Proof. intros app H. exact H. Qed.

Lemma preserved_gets {A} (f : App -> A) : preserved I (gets f).
Proof. intros app H. exact H. Qed.

Lemma preserved_defined {A} (o : option A) : preserved I (defined o).
Proof. destruct o; intros app H; exact H. Qed.

Lemma preserved_bind {A B} (m : M A) (k : A -> M B) :
  preserved I m -> (forall a, preserved I (k a)) -> preserved I (bind m k).
Proof.
  intros Hm Hk app H. unfold bind. specialize (Hm app H).
  destruct (m app) as [a app1|e app1]; cbn [after] in *; [|assumption].
  now apply Hk.
Qed.

Lemma preserved_modify (f : App -> App) :
  (forall app, _fileCache (f app) = _fileCache app /\
               heap (f app) = heap app /\
               allocated (f app) = allocated app) ->
  preserved I (modify f).
Proof.
  intros Hf app H. destruct (Hf app) as (C & Hh & Al).
  exact (I_media app (f app) C Hh Al H).
Qed.

Ltac kept :=
  repeat first
    [ match goal with
      | |- preserved _ (bind _ _) => apply preserved_bind; [|intros ?]
      | |- preserved _ (ret _) => apply preserved_ret
      | |- preserved _ (throw _) => apply preserved_throw
      | |- preserved _ (gets _) => apply preserved_gets
      | |- preserved _ (defined _) => apply preserved_defined
      | |- preserved _ (modify_state _) => unfold modify_state
      | |- preserved _ (modify _) =>
          apply preserved_modify; intros ?;
          split; [reflexivity|split; reflexivity]
      | |- preserved _ (if ?b then _ else _) => destruct b eqn:?
      | |- preserved _ (match ?x with _ => _ end) => destruct x eqn:?
      end
    | solve [auto 2 with kept nocore] ].

Lemma preserved_save : preserved I save.
Proof. unfold save. kept. Qed.

Lemma preserved_getVideo (file : string) : preserved I (_getVideo file).
Proof. unfold _getVideo. kept. Qed.

Lemma preserved_preload : preserved I _preloadNextAndPrevious.
Proof.
  unfold _preloadNextAndPrevious.
  kept; apply I_getImage; now apply negb_true_iff.
Qed.

#[local] Hint Resolve preserved_save preserved_getVideo preserved_preload
  : kept.

Lemma preserved_renderImage : preserved I _renderImage.
Proof.
  unfold _renderImage. kept.
Qed.

#[local] Hint Resolve preserved_renderImage : kept.

Lemma preserved_render : preserved I _render.
Proof. unfold _render. kept. Qed.

#[local] Hint Resolve preserved_render : kept.

Lemma preserved_resort : preserved I _resort.
Proof. unfold _resort. kept. Qed.

#[local] Hint Resolve preserved_resort : kept.

Lemma preserved_changeSort (by_ : SortBy) (order : SortOrder) :
  preserved I (changeSort by_ order).
Proof. unfold changeSort. kept. Qed.

Lemma preserved_select : preserved I select_at_fileIndex.
Proof. unfold select_at_fileIndex. kept. Qed.

#[local] Hint Resolve preserved_changeSort preserved_select : kept.

Lemma preserved_nextFile : preserved I nextFile.
Proof. unfold nextFile. kept. Qed.

Lemma preserved_prevFile : preserved I prevFile.
Proof. unfold prevFile. kept. Qed.

Lemma preserved_fetchList (path : option string) (force : bool)
    (result : FetchResult) :
  preserved I (_fetchList path force result).
Proof. unfold _fetchList. kept. Qed.

#[local] Hint Resolve preserved_nextFile preserved_prevFile
  preserved_fetchList : kept.

Lemma preserved_keydown (key : Key) (fit : bool) :
  preserved I (keydown key fit).
Proof. unfold keydown. destruct key; kept. Qed.

Lemma preserved_dispatch (e : Event) : preserved I (dispatch e).
Proof.
  destruct e; cbn [dispatch].
  - apply preserved_keydown.
  - unfold wheel, move. kept.
  - unfold click_file. kept.
  - unfold click_folder. kept.
  - kept.
  - unfold on_volumechange. kept.
Qed.

Lemma preserved_reached (app0 app : App) :
  I app0 -> reached app0 app -> I app.
Proof.
  intros H0. induction 1 as [|app app' e _ IH _ R]; [assumption|].
  pose proof (preserved_dispatch e app IH) as H. now rewrite R in H.
Qed.

Lemma preserved_poll (hashResult : HashResult) (listResult : FetchResult)
    (app : App) :
  I app -> I (after (fst (_startPolling hashResult listResult app))).
Proof.
  intros H. unfold _startPolling.
  destruct (currentPath (state app)) as [path|]; [|exact H].
  destruct hashResult as [|data]; cbn [fst].
  - exact (I_media app (add_effect ConsoleError app)
             eq_refl eq_refl eq_refl H).
  - destruct (hash_differs _ _); [|exact H].
    now apply preserved_fetchList.
Qed.

End Invariant.

Lemma returns_preserved {A} (I : App -> Prop) (m : M A) (app : App) (a : A)
    (app' : App) :
  preserved I m -> I app -> m app = Return a app' -> I app'.
Proof. intros P H R. specialize (P app H). now rewrite R in P. Qed.

Lemma cache_sound_media (app app' : App) :
  _fileCache app' = _fileCache app -> heap app' = heap app ->
  allocated app' = allocated app -> cache_sound app -> cache_sound app'.
Proof. intros C H A S. unfold cache_sound in *. now rewrite C, H, A. Qed.

Lemma cache_sound_getImage_any (file : string) :
  is_video file = false -> preserved cache_sound (_getImage file).
Proof. intros _. apply cache_sound_getImage. Qed.

Lemma cache_sound_dispatch (e : Event) : preserved cache_sound (dispatch e).
Proof.
  apply preserved_dispatch;
    [exact cache_sound_media|exact cache_sound_getImage_any
    |exact cache_sound_cleanupCache].
Qed.

Lemma cache_sound_empty (app : App) : _fileCache app = [] -> cache_sound app.
Proof.
  intros E. unfold cache_sound. rewrite E.
  split; [reflexivity|]. split; intros; discriminate.
Qed.

(** X19.  In every state the application goes through from one whose
    cache is sound, the cache is sound: every cached image loads the
    path it is cached under and no two paths share an image object.
    Every event and every poll keeps this, also one that throws. *)
Theorem cache_stays_sound (app0 app : App) :
  cache_sound app0 -> reached app0 app ->
  cache_sound app /\
  (forall e, cache_sound (after (dispatch e app))) /\
  (forall hashResult listResult,
     cache_sound (after (fst (_startPolling hashResult listResult app)))).
Proof.
  intros S0 R.
  assert (S : cache_sound app).
  { apply (preserved_reached cache_sound cache_sound_media
             cache_sound_getImage_any cache_sound_cleanupCache app0 app S0 R). }
  split; [exact S|]. split.
  - intros e. now apply cache_sound_dispatch.
  - intros hr lr.
    now apply (preserved_poll cache_sound cache_sound_media
                 cache_sound_getImage_any cache_sound_cleanupCache).
Qed.

Lemma cache_stays_sound_witness :
  cache_sound started /\ reached started started /\
  cache_sound (after (dispatch (PollRefresh (gallery 3)) started)).
Proof.
  assert (S : cache_sound started) by (now apply cache_sound_empty).
  assert (R : reached started started) by apply reached_start.
  split; [exact S|]. split; [exact R|].
  exact (proj1 (proj2 (cache_stays_sound started started S R))
           (PollRefresh (gallery 3))).
Defined.

Lemma _getImage_other (file : string) (app : App) (h : handle) (app' : App) :
  cache_sound app -> _getImage file app = Return h app' ->
  forall k e, k <> file -> Cache.get (_fileCache app) k = Some e ->
    img e <> h.
Proof.
  intros (W & H & Inj) R k e N G.
  destruct (_getImage_effect file app) as (h0 & app0 & R0 & _ & _ & _ & M).
  rewrite R0 in R. injection R as -> ->.
  destruct (H k e G) as (Lt & _).
  destruct (Cache.get (_fileCache app) file) as [e0|] eqn:G0.
  - destruct M as (-> & _). intros E. apply N.
    exact (Inj k file e e0 G G0 E).
  - destruct M as (-> & _). lia.
Qed.

(** X20.  On a sound cache [_getImage], asked for a path that is the
    name of an ordinary property, returns an image that loads the file
    and has the class of media items, and records it under the file
    with the time of the call.  The entries of the other paths are
    unchanged, their images are other objects and are not touched. *)
Theorem resolved_image_loads_the_file (file : string) (app : App) :
  cache_sound app -> ordinary file app ->
  ok (_getImage file) app (fun h app' =>
    loads (heap app' h) = Some file /\
    In "media-item"%string (img_classList (heap app' h)) /\
    Cache.get (_fileCache app') file
      = Some (mkEntry h (clock app (ticks app))) /\
    (forall k e, k <> file -> Cache.get (_fileCache app) k = Some e ->
       Cache.get (_fileCache app') k = Some e /\ img e <> h /\
       heap app' (img e) = heap app (img e))).
Proof.
  intros S _.
  destruct (_getImage_effect file app) as (h & app' & R & C & _ & Ho & _).
  exists h, app'. split; [exact R|].
  pose proof (returns_preserved cache_sound _ app h app'
                (cache_sound_getImage file) S R) as (_ & H' & _).
  assert (G : Cache.get (_fileCache app') file
              = Some (mkEntry h (clock app (ticks app))))
    by (rewrite C; apply get_set_same).
  destruct (H' file _ G) as (_ & Src & Cl). cbn [img] in Src, Cl.
  split; [exact Src|]. split; [exact Cl|]. split; [exact G|].
  intros k e N Ge.
  pose proof (_getImage_other file app h app' S R k e N Ge) as Ne.
  split; [|split; [exact Ne|now apply Ho]].
  rewrite C, get_set. destruct (String.eqb_spec file k); [congruence|exact Ge].
Qed.

Lemma browsing_sound : cache_sound browsing.
Proof.
  apply (preserved_fetchList cache_sound cache_sound_media
           cache_sound_getImage_any cache_sound_cleanupCache
           None true (Listing (gallery 3)) started).
  now apply cache_sound_empty.
Qed.

Lemma resolved_image_loads_the_file_witness :
  cache_sound browsing /\ ordinary "/pics/a.gif" browsing /\
  Cache.get (_fileCache browsing) "/pics/img1.png"
    = Some (mkEntry 1%nat 1700000000040) /\
  exists h app',
    _getImage "/pics/a.gif" browsing = Return h app' /\
    loads (heap app' h) = Some "/pics/a.gif"%string /\
    Cache.get (_fileCache app') "/pics/img1.png"
      = Some (mkEntry 1%nat 1700000000040) /\
    h <> 1%nat /\ heap app' 1%nat = heap browsing 1%nat.
Proof.
  pose proof browsing_sound as S.
  assert (O : ordinary "/pics/a.gif" browsing).
  { split; [discriminate|]. split; [discriminate|].
    vm_compute. reflexivity. }
  assert (G : Cache.get (_fileCache browsing) "/pics/img1.png"
              = Some (mkEntry 1%nat 1700000000040))
    by (vm_compute; reflexivity).
  split; [exact S|]. split; [exact O|]. split; [exact G|].
  destruct (resolved_image_loads_the_file "/pics/a.gif" browsing S O)
    as (h & app' & R & L & _ & _ & Others).
  destruct (Others "/pics/img1.png" _ ltac:(discriminate) G)
    as (G' & Ne & Hh).
  exists h, app'. split; [exact R|]. split; [exact L|].
  split; [exact G'|]. split; [|exact Hh].
  intros E. apply Ne. cbn [img]. now symmetry.
Defined.

Lemma no_video_media (app app' : App) :
  _fileCache app' = _fileCache app -> heap app' = heap app ->
  allocated app' = allocated app -> no_video_cached app ->
  no_video_cached app'.
Proof. intros C _ _ S. unfold no_video_cached in *. now rewrite C. Qed.

Lemma no_video_getImage (file : string) :
  is_video file = false -> preserved no_video_cached (_getImage file).
Proof.
  intros V app H.
  destruct (_getImage_effect file app) as (h & app' & R & C & _).
  rewrite R. cbn [after]. unfold no_video_cached. rewrite C, set_keys.
  destruct (Cache.hasOwnProperty (_fileCache app) file); [exact H|].
  intros k Hin. apply in_app_or in Hin as [Hin|[<-|[]]]; auto.
Qed.

Lemma no_video_cleanupCache : preserved no_video_cached _cleanupCache.
Proof.
  intros app H.
  destruct (_cleanupCache_effect app) as (app' & R & _ & _ & _ & _ & _ & C).
  rewrite R. cbn [after]. unfold no_video_cached.
  destruct C as [->|[k ->]]; [exact H|].
  intros k0 Hin. apply H. apply get_In in Hin as (e & G).
  apply get_delete_Some in G. apply get_In. now exists e.
Qed.

(** X21.  No video is ever cached as an image: from a state whose cache
    has no video path, no state the application goes through has one,
    nor has the state an event leaves, also one that throws. *)
Theorem videos_are_never_cached (app0 app : App) (e : Event) (k : string) :
  no_video_cached app0 -> reached app0 app ->
  (Cache.hasOwnProperty (_fileCache app) k = true -> is_video k = false) /\
  (Cache.hasOwnProperty (_fileCache (after (dispatch e app))) k = true ->
   is_video k = false).
Proof.
  intros S0 R.
  assert (S : no_video_cached app).
  { apply (preserved_reached no_video_cached no_video_media
             no_video_getImage no_video_cleanupCache app0 app S0 R). }
  assert (S' : no_video_cached (after (dispatch e app))).
  { now apply (preserved_dispatch no_video_cached no_video_media
                 no_video_getImage no_video_cleanupCache). }
  unfold Cache.hasOwnProperty.
  split; intros H; [apply S|apply S']; apply get_In;
    match goal with
    | H : match ?g with _ => _ end = true |- _ =>
        destruct g as [x|] eqn:G; [now exists x|discriminate]
    end.
Qed.

Lemma returns_after (o : outcome unit) :
  returns o = true -> o = Return tt (after o).
Proof. destruct o as [[] app|e app]; [reflexivity|discriminate]. Qed.

Lemma videos_are_never_cached_witness :
  let listed := after (dispatch (PollRefresh mixed) started) in
  let app := after (dispatch (Keydown KeyPageDown false) listed) in
  no_video_cached started /\ reached started app /\
  currentFile (state app) = Some "/vid/b.mp4"%string /\
  Cache.hasOwnProperty (_fileCache app) "/vid/a.png" = true /\
  Cache.hasOwnProperty (_fileCache app) "/vid/c.png" = true /\
  Cache.hasOwnProperty (_fileCache app) "/vid/b.mp4" = false /\
  Cache.hasOwnProperty
    (_fileCache (after (dispatch (Keydown KeyPageDown false) app)))
    "/vid/b.mp4" = false.
Proof.
  intros listed app.
  assert (S : no_video_cached started) by (intros k []).
  assert (R1 : dispatch (PollRefresh mixed) started = Return tt listed)
    by (apply returns_after; vm_compute; reflexivity).
  assert (R2 : dispatch (Keydown KeyPageDown false) listed = Return tt app)
    by (apply returns_after; vm_compute; reflexivity).
  assert (R : reached started app).
  { apply (reached_step started listed app (Keydown KeyPageDown false));
      [|exact I|exact R2].
    apply (reached_step started started listed (PollRefresh mixed));
      [apply reached_start|exact I|exact R1]. }
  split; [exact S|]. split; [exact R|].
  split; [vm_compute; reflexivity|].
  split; [vm_compute; reflexivity|].
  split; [vm_compute; reflexivity|].
  destruct (videos_are_never_cached started app
              (Keydown KeyPageDown false) "/vid/b.mp4" S R) as [H H'].
  split.
  - destruct (Cache.hasOwnProperty (_fileCache app) "/vid/b.mp4");
      [|reflexivity].
    discriminate (H eq_refl).
  - destruct (Cache.hasOwnProperty _ "/vid/b.mp4"); [|reflexivity].
    discriminate (H' eq_refl).
Defined.

(** ** What the image holder shows *)

Lemma shows_getImage (h0 : handle) (f0 file : string) :
  preserved (shows h0 f0) (_getImage file).
Proof.
  intros app (Lt & Src & Only).
  destruct (_getImage_effect file app) as (h & app' & R & C & _ & Ho & M).
  rewrite R. cbn [after]. unfold shows. rewrite C.
  destruct (Nat.eq_dec h h0) as [->|Ne].
  - destruct (Cache.get (_fileCache app) file) as [e|] eqn:G.
    2: { destruct M as (-> & _). lia. }
    destruct M as (E & Al & Hh).
    assert (F : file = f0) by (apply (Only file e G); now symmetry).
    subst file. rewrite Al. split; [exact Lt|]. split.
    + destruct Hh as [->|[L _]]; assumption.
    + intros k e1 G1 E1. apply get_set_cases in G1 as [[-> _]|[_ G1]];
        [reflexivity|exact (Only k e1 G1 E1)].
  - assert (Al : (allocated app <= allocated app')%nat).
    { destruct (Cache.get (_fileCache app) file);
        destruct M as (_ & -> & _); lia. }
    split; [lia|]. split.
    + rewrite Ho by congruence. exact Src.
    + intros k e1 G1 E1. apply get_set_cases in G1 as [[_ ->]|[_ G1]].
      * cbn [img] in E1. congruence.
      * exact (Only k e1 G1 E1).
Qed.

Lemma shows_cleanupCache (h0 : handle) (f0 : string) :
  preserved (shows h0 f0) _cleanupCache.
Proof.
  intros app (Lt & Src & Only).
  destruct (_cleanupCache_effect app)
    as (app' & R & Hh & Al & _ & _ & _ & C).
  rewrite R. cbn [after]. unfold shows. rewrite Hh, Al.
  destruct C as [->|[k ->]]; [now split|].
  split; [exact Lt|]. split; [exact Src|].
  intros k0 e G. apply get_delete_Some in G. now apply Only.
Qed.

Lemma holder_getImage (m : option Media) (file : string) :
  preserved (fun app => imageHolder app = m) (_getImage file).
Proof.
  intros app H.
  destruct (_getImage_effect file app) as (h & app' & R & _ & Ih & _).
  rewrite R. cbn [after]. congruence.
Qed.

Lemma held_image_getImage (h : handle) (f0 file : string) :
  preserved (fun app => imageHolder app = Some (MediaImage h) /\
                        shows h f0 app) (_getImage file).
Proof.
  intros app [Hh Sh]. split.
  - now apply (holder_getImage (Some (MediaImage h)) file app).
  - now apply shows_getImage.
Qed.

Lemma sound_renderImage : preserved cache_sound _renderImage.
Proof.
  apply preserved_renderImage;
    [exact cache_sound_media|exact cache_sound_getImage_any
    |exact cache_sound_cleanupCache].
Qed.

Lemma est_renderImage : establishes _renderImage.
Proof.
  intros app u app' S R.
  assert (S' : cache_sound app')
    by exact (returns_preserved cache_sound _ app u app'
                sound_renderImage S R).
  split; [exact S'|].
  assert (Ec : currentFile (state app') = currentFile (state app)).
  { destruct (media_frame_renderImage app) as (Hs & _).
    rewrite R in Hs. cbn [after] in Hs. now rewrite Hs. }
  unfold holder_current. rewrite Ec. clear Ec.
  unfold _renderImage in R.
  apply bind_Return in R. destruct R as (cur & app1 & R1 & R).
  unfold gets in R1. injection R1 as <- <-.
  destruct (currentFile (state app)) as [file|] eqn:E.
  2: { unfold modify in R. inversion R; subst. reflexivity. }
  apply bind_Return in R. destruct R as ([] & app1 & R1 & R).
  unfold modify in R1. injection R1 as <-.
  apply bind_Return in R. destruct R as (media & app2 & Rm & R).
  apply bind_Return in R. destruct R as ([] & app3 & R3 & R).
  unfold modify in R3. injection R3 as <-.
  unfold holds_media_of.
  destruct (is_video file) eqn:V.
  - apply bind_Return in Rm. destruct Rm as (v & app4 & Rv & Rm).
    unfold ret in Rm. injection Rm as <- <-.
    assert (Hv : video_src v = mkURL file None).
    { unfold _getVideo, bind, gets in Rv. cbv beta iota in Rv.
      destruct (_ && _) in Rv; [|discriminate].
      unfold ret in Rv. now injection Rv as <- _. }
    rewrite (returns_preserved
               (fun a => imageHolder a = Some (MediaVideo v))
               _preloadNextAndPrevious
               (set_imageHolder (Some (MediaVideo v)) app4) u app'
               (preserved_preload _
                  (fun f _ => holder_getImage (Some (MediaVideo v)) f))
               eq_refl R).
    now split.
  - apply bind_Return in Rm. destruct Rm as (h & app4 & Rg & Rm).
    apply bind_Return in Rm. destruct Rm as ([] & app5 & Rc & Rm).
    unfold ret in Rm. injection Rm as <- <-.
    assert (S4 : cache_sound app4)
      by exact (returns_preserved cache_sound _
                  (set_imageHolder None app) _ _
                  (cache_sound_getImage file) S Rg).
    assert (Sh : shows h file app4).
    { destruct (_getImage_effect file (set_imageHolder None app))
        as (h0 & app0 & R0 & C & _).
      rewrite R0 in Rg. injection Rg as -> ->.
      assert (G : Cache.get (_fileCache app4) file
                  = Some (mkEntry h (clock app (ticks app))))
        by (rewrite C; apply get_set_same).
      destruct S4 as (_ & H4 & Inj).
      destruct (H4 file _ G) as (Lt & Src & _). cbn [img] in Lt, Src.
      split; [exact Lt|]. split; [exact Src|].
      intros k e Gk Ek. exact (Inj k file e _ Gk G Ek). }
    assert (Sh5 : shows h file app5)
      by exact (returns_preserved (shows h file) _ app4 _ _
                  (shows_cleanupCache h file) Sh Rc).
    destruct (returns_preserved
                (fun a => imageHolder a = Some (MediaImage h) /\
                          shows h file a)
                _preloadNextAndPrevious
                (set_imageHolder (Some (MediaImage h)) app5) u app'
                (preserved_preload _
                   (fun f _ => held_image_getImage h file f))
                (conj eq_refl Sh5) R) as (Hh & _ & L & _).
    rewrite Hh. now split.
Qed.

Lemma sound_modify (f : App -> App) :
  (forall app, _fileCache (f app) = _fileCache app /\
               heap (f app) = heap app /\
               allocated (f app) = allocated app) ->
  preserved cache_sound (modify f).
Proof. apply preserved_modify. exact cache_sound_media. Qed.

Lemma sound_save : preserved cache_sound save.
Proof. apply preserved_save. exact cache_sound_media. Qed.

Lemma sound_select : preserved cache_sound select_at_fileIndex.
Proof. apply preserved_select. exact cache_sound_media. Qed.

Lemma sound_resort : preserved cache_sound _resort.
Proof.
  apply preserved_resort;
    [exact cache_sound_media|exact cache_sound_getImage_any
    |exact cache_sound_cleanupCache].
Qed.

Lemma sound_changeSort (by_ : SortBy) (order : SortOrder) :
  preserved cache_sound (changeSort by_ order).
Proof.
  apply preserved_changeSort;
    [exact cache_sound_media|exact cache_sound_getImage_any
    |exact cache_sound_cleanupCache].
Qed.

Create HintDb sound.

#[local] Hint Resolve sound_save sound_select sound_resort sound_changeSort
  : sound.

Ltac sound :=
  repeat first
    [ match goal with
      | |- preserved _ (bind _ _) => apply preserved_bind; [|intros ?]
      | |- preserved _ (ret _) => apply preserved_ret
      | |- preserved _ (throw _) => apply preserved_throw
      | |- preserved _ (gets _) => apply preserved_gets
      | |- preserved _ (defined _) => apply preserved_defined
      | |- preserved _ (modify_state _) => unfold modify_state
      | |- preserved _ (modify _) =>
          apply sound_modify; intros ?;
          split; [reflexivity|split; reflexivity]
      | |- preserved _ (if ?b then _ else _) => destruct b
      | |- preserved _ (match ?x with _ => _ end) => destruct x
      end
    | solve [auto 1 with sound nocore] ].

Lemma est_bind_after {A B} (m : M A) (k : A -> M B) :
  preserved cache_sound m -> (forall a, establishes (k a)) ->
  establishes (bind m k).
Proof.
  intros Pm Hk app b app' S R.
  apply bind_Return in R. destruct R as (a & app1 & R1 & R2).
  apply (Hk a app1 b app'); [|exact R2].
  exact (returns_preserved cache_sound m app a app1 Pm S R1).
Qed.

Lemma est_bind_then {A B} (m : M A) (k : A -> M B) :
  establishes m -> (forall a, maintains (k a)) -> establishes (bind m k).
Proof.
  intros Hm Hk app b app' S R.
  apply bind_Return in R. destruct R as (a & app1 & R1 & R2).
  apply (Hk a app1 b app'); [|exact R2]. exact (Hm app a app1 S R1).
Qed.

Lemma est_maintains {A} (m : M A) : establishes m -> maintains m.
Proof. intros H app a app' [S _]. now apply H. Qed.

Lemma mnt_bind {A B} (m : M A) (k : A -> M B) :
  maintains m -> (forall a, maintains (k a)) -> maintains (bind m k).
Proof.
  intros Hm Hk app b app' S R.
  apply bind_Return in R. destruct R as (a & app1 & R1 & R2).
  apply (Hk a app1 b app'); [|exact R2]. exact (Hm app a app1 S R1).
Qed.

Lemma mnt_ret {A} (a : A) : maintains (ret a).
Proof. intros app b app' S R. unfold ret in R. now injection R as _ <-. Qed.

Lemma mnt_gets {A} (f : App -> A) : maintains (gets f).
Proof. intros app b app' S R. unfold gets in R. now injection R as _ <-. Qed.

Lemma mnt_modify (f : App -> App) :
  (forall app, currentFile (state (f app)) = currentFile (state app) /\
               imageHolder (f app) = imageHolder app /\
               _fileCache (f app) = _fileCache app /\
               heap (f app) = heap app /\
               allocated (f app) = allocated app) ->
  maintains (modify f).
Proof.
  intros Hf app [] app' [S H] R. unfold modify in R. injection R as <-.
  destruct (Hf app) as (Ec & Eh & C & Hh & Al). split.
  - exact (cache_sound_media app (f app) C Hh Al S).
  - unfold holder_current, holds_media_of in *. now rewrite Ec, Eh, Hh.
Qed.

Ltac after_ :=
  match goal with
  | |- establishes (bind _ _) =>
      apply est_bind_after; [solve [sound]|intros ?]
  end.

Lemma est_render : establishes _render.
Proof. unfold _render. do 3 after_. apply est_renderImage. Qed.

Lemma est_fetchList (path : option string) (force : bool)
    (result : FetchResult) :
  establishes (_fetchList path force result).
Proof. unfold _fetchList. repeat after_. apply est_render. Qed.

Lemma mnt_nextFile : maintains nextFile.
Proof.
  unfold nextFile. apply mnt_bind; [apply mnt_gets|intros fs].
  destruct (_ =? 0); [apply mnt_ret|]. apply est_maintains.
  do 3 after_. apply est_bind_then; [apply est_render|intros ?].
  apply mnt_modify. intros ?. repeat split.
Qed.

Lemma mnt_prevFile : maintains prevFile.
Proof.
  unfold prevFile. apply mnt_bind; [apply mnt_gets|intros fs].
  destruct (_ =? 0); [apply mnt_ret|]. apply est_maintains.
  do 3 after_. apply est_render.
Qed.

Lemma mnt_keydown (key : Key) (fit : bool) : maintains (keydown key fit).
Proof.
  destruct key; cbn [keydown];
    try apply mnt_nextFile; try apply mnt_prevFile; try apply mnt_ret.
  - destruct fit; [apply mnt_modify; intros ?; repeat split|].
    apply est_maintains. do 3 after_. apply est_render.
  - destruct fit; [apply mnt_modify; intros ?; repeat split|].
    apply est_maintains. do 3 after_. apply est_render.
  - apply est_maintains. do 3 after_. apply est_render.
  - apply est_maintains. do 3 after_. apply est_render.
  - apply est_maintains. do 3 after_. apply est_render.
  - apply est_maintains. do 3 after_. apply est_render.
Qed.

Lemma mnt_throw {A} (e : Error) : maintains (@throw A e).
Proof. intros app a app' _ R. discriminate R. Qed.

Lemma mnt_wheel (deltaY : Q) (fit : bool) (page : Position.Page)
    (pos : Q * Q) :
  maintains (wheel deltaY fit page pos).
Proof.
  assert (Mv : forall towards, maintains (move towards page pos)).
  { intros towards. unfold move.
    apply mnt_bind; [apply mnt_gets|intros holder].
    destruct holder; [|apply mnt_throw]. destruct pos.
    apply mnt_modify. intros ?. repeat split. }
  unfold wheel. destruct (deltaY ?= 0)%Q; [apply mnt_ret| |].
  - destruct fit; [apply Mv|apply mnt_prevFile].
  - destruct fit; [apply Mv|apply mnt_nextFile].
Qed.

Lemma mnt_dispatch (e : Event) : maintains (dispatch e).
Proof.
  destruct e; cbn [dispatch].
  - apply mnt_keydown.
  - apply mnt_wheel.
  - apply est_maintains. unfold click_file. do 3 after_. apply est_render.
  - apply est_maintains. unfold click_folder. after_. apply est_fetchList.
  - apply est_maintains. after_. apply est_fetchList.
  - unfold on_volumechange, save, modify_state.
    apply mnt_bind; [apply mnt_modify; intros ?; repeat split|intros ?].
    apply mnt_bind; [apply mnt_gets|intros ?].
    apply mnt_modify. intros ?. repeat split.
Qed.

Lemma reached_shown (app0 app : App) :
  shown app0 -> reached app0 app -> shown app.
Proof.
  intros S0. induction 1 as [|app app' e _ IH _ R]; [assumption|].
  exact (mnt_dispatch e app tt app' IH R).
Qed.

Lemma browsing_shown : shown browsing.
Proof.
  destruct (_fetchList_settled None true (gallery 3) started eq_refl)
    as ([] & app' & R & _).
  unfold browsing. rewrite R. cbn [after].
  apply (est_fetchList None true (Listing (gallery 3)) started tt app');
    [now apply cache_sound_empty|exact R].
Qed.

(** X22.  The image holder always shows the selected file.  Once the
    cache is sound and the holder contains the media element of the
    selected path -- a video with its address or an image that loads
    it -- this holds in every state the application goes through:
    prefetching, clean-up and re-sorting never put another file's image
    there. *)
Theorem the_holder_shows_the_selection (app0 app : App) :
  shown app0 -> reached app0 app ->
  match currentFile (state app) with
  | Some file => holds_media_of file app
  | None => imageHolder app = None
  end.
Proof. intros S0 R. exact (proj2 (reached_shown app0 app S0 R)). Qed.

Lemma the_holder_shows_the_selection_witness :
  shown browsing /\
  exists app,
    reached browsing app /\
    currentFile (state app) = Some "/pics/img2.png"%string /\
    holds_media_of "/pics/img2.png" app.
Proof.
  split; [exact browsing_shown|].
  assert (P : possible (Keydown KeyEnd false) browsing)
    by (vm_compute; discriminate).
  destruct (jump_settled
              (fun app => Z.of_nat (List.length (files (state app))) - 1)
              (picture 2) browsing browsing_settled eq_refl)
    as ([] & app & R & _ & Hs & _).
  assert (Re : reached browsing app).
  { apply (reached_step browsing browsing app (Keydown KeyEnd false));
      [apply reached_start|exact P|exact R]. }
  assert (Ec : currentFile (state app) = Some "/pics/img2.png"%string)
    by (rewrite Hs; reflexivity).
  exists app. split; [exact Re|]. split; [exact Ec|].
  pose proof (the_holder_shows_the_selection browsing app browsing_shown Re)
    as H.
  rewrite Ec in H. exact H.
Defined.



(** ** Prefetching and clean-up *)

Lemma cached_getImage (k file : string) :
  preserved (fun app => Cache.hasOwnProperty (_fileCache app) k = true)
    (_getImage file).
Proof.
  intros app H.
  destruct (_getImage_effect file app) as (h & app' & R & C & _).
  rewrite R. cbn [after]. unfold Cache.hasOwnProperty in *.
  rewrite C, get_set. now destruct (String.eqb file k).
Qed.

Lemma getImage_caches (file : string) (app : App) (h : handle) (app' : App) :
  _getImage file app = Return h app' ->
  Cache.hasOwnProperty (_fileCache app') file = true.
Proof.
  intros R.
  destruct (_getImage_effect file app) as (h0 & app0 & R0 & C & _).
  rewrite R0 in R. injection R as _ <-.
  unfold Cache.hasOwnProperty. now rewrite C, get_set_same.
Qed.

Lemma prefetch_step (p k : string) (app : App) (u : unit) (app' : App) :
  (if negb (is_video p) then _getImage p ;; ret tt else ret tt) app
    = Return u app' ->
  (is_video p = false -> Cache.hasOwnProperty (_fileCache app') p = true) /\
  (Cache.hasOwnProperty (_fileCache app) k = true ->
   Cache.hasOwnProperty (_fileCache app') k = true).
Proof.
  destruct (is_video p); cbn [negb].
  - unfold ret. intros R. injection R as _ <-. split; [discriminate|auto].
  - intros R. apply bind_Return in R. destruct R as (h & app1 & Rg & R).
    unfold ret in R. injection R as _ <-. split.
    + intros _. exact (getImage_caches p app h app1 Rg).
    + intros H.
      exact (returns_preserved _ _ app h app1 (cached_getImage k p) H Rg).
Qed.

Lemma preload_caches (app : App) (u : unit) (app' : App) (f : AppFile) :
  _preloadNextAndPrevious app = Return u app' ->
  neighbour app f -> is_video (file_path f) = false ->
  Cache.hasOwnProperty (_fileCache app') (file_path f) = true.
Proof.
  unfold _preloadNextAndPrevious, neighbour. intros R N V.
  apply bind_Return in R. destruct R as (fs & app1 & R1 & R).
  unfold gets in R1. injection R1 as <- <-.
  destruct (Z.eqb_spec (Z.of_nat (List.length (files (state app)))) 0)
    as [E0|_].
  { destruct N as [N|N]; apply index_Some_range in N; lia. }
  apply bind_Return in R. destruct R as (i & app1 & R1 & R).
  unfold gets in R1. injection R1 as <- <-.
  apply bind_Return in R. destruct R as (fn & app1 & R1 & R).
  apply bind_Return in R. destruct R as ([] & app2 & R2 & R).
  apply bind_Return in R. destruct R as (fp & app3 & R3 & R).
  destruct (JS.index (files (state app))
              (Z.min (Z.of_nat (List.length (files (state app))) - 1)
                 (_fileIndex app + 1))) as [x|] eqn:En; [|discriminate].
  unfold defined, ret in R1. injection R1 as <- <-.
  destruct (JS.index (files (state app)) (Z.max 0 (_fileIndex app - 1)))
    as [y|] eqn:Ep; [|discriminate].
  unfold defined, ret in R3. injection R3 as <- <-.
  destruct (prefetch_step (file_path x) (file_path x) app tt app2 R2)
    as [Hx _].
  destruct (prefetch_step (file_path y) (file_path x) app2 u app' R)
    as [Hy Keep].
  destruct N as [N|N]; injection N as <-; auto.
Qed.

(** X24.  When [_renderImage] has shown a selected file, the files next
    to the cursor that are not videos are in the cache: the one after
    and the one before, which at an end of the list is the file under
    the cursor itself.  The paths are names of ordinary properties of
    the cache object. *)
Theorem neighbours_are_prefetched (app : App) (f : AppFile) :
  valid_volume (state app) = true -> cursor_near app ->
  currentFile (state app) <> None -> ordinary_paths app ->
  neighbour app f -> is_video (file_path f) = false ->
  ok _renderImage app (fun _ app' =>
    Cache.hasOwnProperty (_fileCache app') (file_path f) = true).
Proof.
  intros V C Sel _ N Vf.
  destruct (_renderImage_ok app V C) as (u & app' & R & _).
  exists u, app'. split; [exact R|].
  unfold _renderImage in R.
  apply bind_Return in R. destruct R as (cur & app1 & R1 & R).
  unfold gets in R1. injection R1 as <- <-.
  destruct (currentFile (state app)) as [file|]; [|now contradiction Sel].
  apply bind_Return in R. destruct R as ([] & app1 & R1 & R).
  unfold modify in R1. injection R1 as <-.
  apply bind_Return in R. destruct R as (media & app2 & Rm & R).
  apply bind_Return in R. destruct R as ([] & app3 & R3 & R).
  unfold modify in R3. injection R3 as <-.
  apply (preload_caches _ u app' f R); [|exact Vf].
  assert (F : media_only (set_imageHolder None app) app2).
  { destruct (is_video file).
    - pose proof (media_frame_bind _ _ (media_frame_getVideo file)
                    (fun v => media_frame_ret (MediaVideo v))
                    (set_imageHolder None app)) as F.
      now rewrite Rm in F.
    - pose proof (media_frame_bind _ _ (media_frame_getImage file)
                    (fun h => media_frame_bind _ _ media_frame_cleanupCache
                                (fun _ => media_frame_ret (MediaImage h)))
                    (set_imageHolder None app)) as F.
      now rewrite Rm in F. }
  destruct F as (Hs & Hi & _). proj_in Hs. proj_in Hi.
  unfold neighbour in *. proj. now rewrite Hs, Hi.
Qed.

Lemma browsing_ordinary : ordinary_paths browsing.
Proof.
  assert (G : Cache.get (_fileCache browsing) "hasOwnProperty" = None)
    by (vm_compute; reflexivity).
  assert (Ec : currentFile (state browsing) = Some "/pics/img0.png"%string)
    by (vm_compute; reflexivity).
  assert (Ef : files (state browsing) = [picture 0; picture 1; picture 2])
    by (vm_compute; reflexivity).
  split.
  - intros p E. rewrite Ec in E. injection E as <-.
    split; [discriminate|]. split; [discriminate|exact G].
  - intros f Hin. rewrite Ef in Hin.
    destruct Hin as [<-|[<-|[<-|[]]]];
      (split; [discriminate|]; split; [discriminate|exact G]).
Qed.

Lemma neighbours_are_prefetched_witness :
  valid_volume (state browsing) = true /\ cursor_near browsing /\
  currentFile (state browsing) <> None /\ ordinary_paths browsing /\
  neighbour browsing (picture 1) /\
  is_video (file_path (picture 1)) = false /\
  exists app',
    _renderImage browsing = Return tt app' /\
    Cache.hasOwnProperty (_fileCache app') "/pics/img1.png" = true.
Proof.
  pose proof browsing_settled as (V & C & _).
  assert (Sel : currentFile (state browsing) <> None)
    by (vm_compute; discriminate).
  assert (N : neighbour browsing (picture 1)) by (left; reflexivity).
  split; [exact V|]. split; [exact C|]. split; [exact Sel|].
  split; [exact browsing_ordinary|].
  split; [exact N|]. split; [reflexivity|].
  destruct (neighbours_are_prefetched browsing (picture 1) V C Sel
              browsing_ordinary N eq_refl)
    as ([] & app' & R & H).
  exists app'. split; [exact R|exact H].
Defined.

Lemma keys_NoDup (c : Cache.t) : cache_wf c = true -> NoDup (Cache.keys c).
Proof.
  unfold cache_wf. rewrite distinct_NoDup. intros H.
  apply (Permutation_NoDup (l := map fst c)); [|exact H].
  symmetry. apply keys_Permutation.
Qed.

(** X25.  When every cached time is before the clock reading of the
    call, the image that [_getImage] has just resolved is not the one
    the clean-up that follows removes: after the two calls the file is
    in the cache.  The path is the name of an ordinary property of the
    cache object. *)
Theorem resolved_image_survives_cleanup (file : string) (app : App) :
  cache_wf (_fileCache app) = true -> ordinary file app ->
  (forall k e, Cache.get (_fileCache app) k = Some e ->
     ts e < clock app (ticks app)) ->
  ok (_getImage file ;; _cleanupCache) app (fun _ app' =>
    Cache.hasOwnProperty (_fileCache app') file = true).
Proof.
  intros W _ Old.
  destruct (_getImage_effect file app) as (h & app1 & R & C & _).
  unfold ok, bind. rewrite R.
  assert (G : Cache.get (_fileCache app1) file
              = Some (mkEntry h (clock app (ticks app))))
    by (rewrite C; apply get_set_same).
  assert (W1 : cache_wf (_fileCache app1) = true)
    by (rewrite C; now apply set_wf).
  destruct (Z.le_gt_cases (cache_size app1) MAX_CACHED_IMAGES) as [Sm|L].
  { exists tt, app1. split; [now apply _cleanupCache_small|].
    unfold Cache.hasOwnProperty. now rewrite G. }
  destruct (_cleanupCache_full app1 L) as (k & Rc & l1 & l2 & K & H1 & H2).
  eexists. eexists. split; [exact Rc|]. proj.
  assert (Nk : k <> file).
  { intros ->.
    assert (Ts : ts_of (_fileCache app1) file = clock app (ticks app))
      by (unfold ts_of; now rewrite G).
    assert (Other : forall b, In b (l1 ++ l2)%list ->
              ts_of (_fileCache app1) b < clock app (ticks app)).
    { intros b Hb.
      assert (Nb : b <> file).
      { pose proof (keys_NoDup _ W1) as D. rewrite K in D.
        apply NoDup_remove_2 in D. intros ->. now apply D. }
      assert (Hin : In b (Cache.keys (_fileCache app1))).
      { rewrite K. apply in_app_or in Hb as [Hb|Hb];
          apply in_or_app; [now left|right; now right]. }
      apply keys_get in Hin as (e & Ge).
      unfold ts_of. rewrite Ge.
      rewrite C, get_set in Ge.
      destruct (String.eqb_spec file b) as [->|_]; [now contradiction Nb|].
      exact (Old b e Ge). }
    assert (Len : (1 < List.length (l1 ++ file :: l2))%nat).
    { rewrite <- K, keys_length. unfold cache_size, MAX_CACHED_IMAGES in L.
      lia. }
    rewrite length_app in Len. cbn [List.length] in Len.
    destruct l1 as [|b l1].
    - destruct l2 as [|b l2]; [cbn in Len; lia|].
      specialize (H2 b (or_introl eq_refl)).
      specialize (Other b (or_introl eq_refl)). lia.
    - specialize (H1 b (or_introl eq_refl)).
      specialize (Other b (or_introl eq_refl)). lia. }
  unfold Cache.hasOwnProperty.
  now rewrite (get_delete_other _ k file Nk), G.
Qed.

Lemma get_forallb (P : CacheEntry -> bool) (c : Cache.t) :
  forallb (fun p => P (snd p)) c = true ->
  forall k e, Cache.get c k = Some e -> P e = true.
Proof.
  induction c as [|[k0 e0] c IH]; cbn; intros H k e G; [discriminate|].
  apply andb_true_iff in H as [H0 H].
  destruct (String.eqb k0 k); [now injection G as <-|now apply (IH H k)].
Qed.

Lemma resolved_image_survives_cleanup_witness :
  cache_wf (_fileCache crowded) = true /\
  ordinary "/pics/new.png" crowded /\
  (forall k e, Cache.get (_fileCache crowded) k = Some e ->
     ts e < clock crowded (ticks crowded)) /\
  cache_size crowded = 51 /\
  exists app',
    (_getImage "/pics/new.png" ;; _cleanupCache) crowded
      = Return tt app' /\
    cache_size app' = 51 /\
    Cache.hasOwnProperty (_fileCache app') "/pics/img1.png" = false /\
    Cache.hasOwnProperty (_fileCache app') "/pics/new.png" = true.
Proof.
  assert (W : cache_wf (_fileCache crowded) = true)
    by (vm_compute; reflexivity).
  assert (O : ordinary "/pics/new.png" crowded).
  { split; [discriminate|]. split; [discriminate|].
    vm_compute. reflexivity. }
  assert (Old : forall k e, Cache.get (_fileCache crowded) k = Some e ->
                  ts e < clock crowded (ticks crowded)).
  { intros k e G. apply Z.ltb_lt.
    apply (get_forallb
             (fun e => ts e <? clock crowded (ticks crowded))
             (_fileCache crowded)) with (k := k); [|exact G].
    vm_compute. reflexivity. }
  split; [exact W|]. split; [exact O|]. split; [exact Old|].
  split; [vm_compute; reflexivity|].
  destruct (resolved_image_survives_cleanup "/pics/new.png" crowded W O Old)
    as ([] & app' & R & H).
  assert (Sz : cache_size
                 (after ((_getImage "/pics/new.png" ;; _cleanupCache)
                           crowded)) = 51)
    by (vm_compute; reflexivity).
  assert (Ev : Cache.hasOwnProperty
                 (_fileCache
                    (after ((_getImage "/pics/new.png" ;; _cleanupCache)
                              crowded))) "/pics/img1.png" = false)
    by (vm_compute; reflexivity).
  rewrite R in Sz, Ev. cbn [after] in Sz, Ev.
  exists app'. split; [exact R|]. split; [exact Sz|].
  split; [exact Ev|exact H].
Defined.

(** ** Panning *)

Local Open Scope Q_scope.

Lemma ratio_bounds (a b : Q) : 0 < a -> a <= b -> 0 < a / b /\ a / b <= 1.
Proof.
  intros Ha Hab. assert (Hb : 0 < b) by lra. split.
  - apply Qlt_shift_div_l; [exact Hb|lra].
  - apply Qle_shift_div_r; [exact Hb|lra].
Qed.

Lemma _calcStep_bounds (p : Position.Page) :
  0 < Position.width p -> 0 < Position.height p ->
  1 <= _calcStep p /\ _calcStep p <= 10.
Proof.
  intros Hw Hh. unfold _calcStep.
  set (r := match Position.height p ?= Position.width p with
            | Gt => Position.width p / Position.height p
            | _ => Position.height p / Position.width p
            end).
  assert (Hr : r <= 1).
  { unfold r.
    destruct (Position.height p ?= Position.width p) eqn:E.
    - apply Qeq_alt in E. apply ratio_bounds; [exact Hh|lra].
    - apply Qlt_alt in E. apply ratio_bounds; [exact Hh|lra].
    - apply Qgt_alt in E. apply ratio_bounds; [exact Hw|lra]. }
  split; [apply Q.le_max_l|].
  apply Q.max_lub; [lra|].
  apply Qle_trans with (r * 10); [apply Q.le_min_r|lra].
Qed.

(** X26.  For a media item of positive width and height the step of a
    move lies between 1 and 10 percent, and it is 10 for a square one:
    the upper limit 50 of [_calcStep] is never what decides. *)
Theorem step_is_between_one_and_ten (p : Position.Page) :
  0 < Position.width p -> 0 < Position.height p ->
  1 <= _calcStep p /\ _calcStep p <= 10 /\
  (Position.width p == Position.height p -> _calcStep p == 10).
Proof.
  intros Hw Hh. destruct (_calcStep_bounds p Hw Hh) as [L U].
  split; [exact L|]. split; [exact U|].
  intros E. apply Qle_antisym; [exact U|].
  unfold _calcStep.
  assert (C : (Position.height p ?= Position.width p) = Eq)
    by (apply Qeq_alt; lra).
  rewrite C.
  assert (R : Position.height p / Position.width p == 1).
  { rewrite E. apply Qmult_inv_r. lra. }
  apply Qle_trans with (Qmin 50 (Position.height p / Position.width p * 10));
    [|apply Q.le_max_r].
  apply Q.min_glb; [lra|]. rewrite R. lra.
Qed.

Lemma step_is_between_one_and_ten_witness :
  0 < Position.width wide_picture /\ 0 < Position.height wide_picture /\
  1 <= _calcStep wide_picture /\ _calcStep wide_picture <= 10.
Proof.
  assert (Hw : 0 < Position.width wide_picture) by reflexivity.
  assert (Hh : 0 < Position.height wide_picture) by reflexivity.
  split; [exact Hw|]. split; [exact Hh|].
  destruct (step_is_between_one_and_ten wide_picture Hw Hh) as (L & U & _).
  split; [exact L|exact U].
Defined.

Lemma clamp_cases (v : Q) :
  (v <= 0 /\ Position.clamp v == 0) \/
  (0 <= v <= 100 /\ Position.clamp v == v) \/
  (100 <= v /\ Position.clamp v == 100).
Proof.
  unfold Position.clamp.
  destruct (Q.min_spec 100 v) as [[H E]|[H E]];
    destruct (Q.max_spec 0 (Qmin 100 v)) as [[H' E']|[H' E']].
  - right. right. split; lra.
  - lra.
  - right. left. split; lra.
  - left. split; lra.
Qed.

Lemma move_panned (p : Position.Page) (pos : Q * Q) :
  Position._isMediaBigger p = true ->
  (exists d, moveMediaDown p pos = Some d /\
     panned p d = Position.clamp (panned p pos + _calcStep p) /\
     pinned p d = 50) /\
  (exists u, moveMediaUp p pos = Some u /\
     panned p u = Position.clamp (panned p pos - _calcStep p) /\
     pinned p u = 50).
Proof.
  intros B. destruct pos as [x y].
  unfold moveMediaDown, moveMediaUp, Position.setObjectPosition.
  rewrite B. unfold Position.clampPosition, panned, pinned.
  destruct (Position._direction p); split; eexists;
    (split; [reflexivity|split; reflexivity]).
Qed.

Lemma direction_in_flat_holder (p : Position.Page) :
  0 < Position.height p -> Position.cHeight p == 0 ->
  0 < Position.cWidth p ->
  Position._direction p = Position.up.
Proof.
  intros Hh Hc Hw. unfold Position._direction, Position.divide.
  destruct (Qeq_bool (Position.height p) 0) eqn:E1.
  - apply Qeq_bool_iff in E1. lra.
  - apply Qeq_bool_iff in Hc. rewrite Hc.
    assert (G : (Position.cWidth p ?= 0) = Gt) by (apply Qgt_alt; exact Hw).
    rewrite G. reflexivity.
Qed.

(** X27.  A move of a media item that is not bigger than the holder
    sets no position.  Of one that is bigger, with the moving
    coordinate in [[0, 100]], a move down adds the step and stops at
    100, a move up subtracts it and stops at 0, and both put the other
    coordinate at 50.  The moving coordinate is the one that
    [_direction] leaves free: in a holder that has a width and no
    height it is [y], as the width divided by zero is an infinity. *)
Theorem a_move_is_one_step_within_bounds (p : Position.Page) (pos : Q * Q) :
  0 < Position.width p -> 0 < Position.height p ->
  0 <= panned p pos <= 100 ->
  (Position._isMediaBigger p = false ->
   moveMediaDown p pos = None /\ moveMediaUp p pos = None) /\
  (Position._isMediaBigger p = true ->
   exists d u,
     moveMediaDown p pos = Some d /\ moveMediaUp p pos = Some u /\
     pinned p d = 50 /\ pinned p u = 50 /\
     panned p d == Qmin 100 (panned p pos + _calcStep p) /\
     panned p u == Qmax 0 (panned p pos - _calcStep p) /\
     panned p pos <= panned p d <= 100 /\
     0 <= panned p u <= panned p pos) /\
  (Position.cHeight p == 0 -> 0 < Position.cWidth p ->
   forall xy, panned p xy = snd xy /\ pinned p xy = fst xy).
Proof.
  intros Hw Hh R. destruct (_calcStep_bounds p Hw Hh) as [L U].
  split; [|split].
  - intros B. destruct pos as [x y].
    unfold moveMediaDown, moveMediaUp, Position.setObjectPosition.
    now rewrite B.
  - intros B.
    destruct (move_panned p pos B)
      as ((d & Ed & Pd & Nd) & (u & Eu & Pu & Nu)).
    exists d, u. repeat (split; [assumption|]).
    rewrite Pd, Pu.
    destruct (clamp_cases (panned p pos + _calcStep p))
      as [[H E]|[[H E]|[H E]]];
      destruct (clamp_cases (panned p pos - _calcStep p))
        as [[H' E']|[[H' E']|[H' E']]];
      destruct (Q.min_spec 100 (panned p pos + _calcStep p))
        as [[M EM]|[M EM]];
      destruct (Q.max_spec 0 (panned p pos - _calcStep p))
        as [[N EN]|[N EN]];
      repeat split; lra.
  - intros Hc Hcw xy. unfold panned, pinned.
    now rewrite (direction_in_flat_holder p Hh Hc Hcw).
Qed.

Lemma a_move_is_one_step_within_bounds_witness :
  0 < Position.width flat_holder /\ 0 < Position.height flat_holder /\
  0 <= panned flat_holder (30, 50) <= 100 /\
  exists d, moveMediaDown flat_holder (30, 50) = Some d /\
            fst d = 50 /\ snd d == 50 + _calcStep flat_holder.
Proof.
  assert (Hw : 0 < Position.width flat_holder) by reflexivity.
  assert (Hh : 0 < Position.height flat_holder) by reflexivity.
  assert (R : 0 <= panned flat_holder (30, 50) <= 100)
    by (split; vm_compute; discriminate).
  split; [exact Hw|]. split; [exact Hh|]. split; [exact R|].
  destruct (a_move_is_one_step_within_bounds flat_holder (30, 50) Hw Hh R)
    as (_ & M & F).
  destruct (M eq_refl) as (d & u & Ed & _ & Nd & _ & Pd & _).
  destruct (F (Qeq_refl 0) eq_refl d) as (Fd & Fp).
  exists d. split; [exact Ed|]. rewrite <- Fp, <- Fd.
  split; [exact Nd|]. rewrite Pd. vm_compute. reflexivity.
Defined.

Lemma moved_down_progress (n : nat) (p : Position.Page) (pos : Q * Q) :
  Position._isMediaBigger p = true -> 1 <= _calcStep p ->
  0 <= panned p pos <= 100 ->
  Qmin 100 (panned p pos + inject_Z (Z.of_nat n))
    <= panned p (moved moveMediaDown n p pos) /\
  panned p (moved moveMediaDown n p pos) <= 100.
Proof.
  intros B L. revert pos. induction n as [|n IH]; intros pos R.
  - cbn [moved]. change (inject_Z (Z.of_nat 0)) with 0.
    pose proof (Q.le_min_r 100 (panned p pos + 0)). lra.
  - cbn [moved].
    destruct (move_panned p pos B) as ((d & Ed & Pd & _) & _).
    rewrite Ed.
    assert (S1 : inject_Z (Z.of_nat (S n)) == inject_Z (Z.of_nat n) + 1).
    { rewrite Nat2Z.inj_succ. unfold Z.succ. rewrite inject_Z_plus.
      reflexivity. }
    assert (Nn : 0 <= inject_Z (Z.of_nat n)).
    { change 0 with (inject_Z 0). rewrite <- Zle_Qle. lia. }
    assert (Rd : 0 <= panned p d <= 100 /\
                 Qmin 100 (panned p pos + 1) <= panned p d).
    { rewrite Pd.
      destruct (clamp_cases (panned p pos + _calcStep p))
        as [[H E]|[[H E]|[H E]]];
        destruct (Q.min_spec 100 (panned p pos + 1)) as [[M EM]|[M EM]];
        repeat split; lra. }
    destruct Rd as [Rd Gd]. destruct (IH d Rd) as [Lo Hi].
    split; [|exact Hi].
    destruct (Q.min_spec 100 (panned p pos + inject_Z (Z.of_nat (S n))))
      as [[M EM]|[M EM]];
      destruct (Q.min_spec 100 (panned p d + inject_Z (Z.of_nat n)))
        as [[M' EM']|[M' EM']];
      destruct (Q.min_spec 100 (panned p pos + 1)) as [[M1 EM1]|[M1 EM1]];
      lra.
Qed.

Lemma moved_up_progress (n : nat) (p : Position.Page) (pos : Q * Q) :
  Position._isMediaBigger p = true -> 1 <= _calcStep p ->
  0 <= panned p pos <= 100 ->
  panned p (moved moveMediaUp n p pos)
    <= Qmax 0 (panned p pos - inject_Z (Z.of_nat n)) /\
  0 <= panned p (moved moveMediaUp n p pos).
Proof.
  intros B L. revert pos. induction n as [|n IH]; intros pos R.
  - cbn [moved]. change (inject_Z (Z.of_nat 0)) with 0.
    pose proof (Q.le_max_r 0 (panned p pos - 0)). lra.
  - cbn [moved].
    destruct (move_panned p pos B) as (_ & (u & Eu & Pu & _)).
    rewrite Eu.
    assert (S1 : inject_Z (Z.of_nat (S n)) == inject_Z (Z.of_nat n) + 1).
    { rewrite Nat2Z.inj_succ. unfold Z.succ. rewrite inject_Z_plus.
      reflexivity. }
    assert (Nn : 0 <= inject_Z (Z.of_nat n)).
    { change 0 with (inject_Z 0). rewrite <- Zle_Qle. lia. }
    assert (Ru : 0 <= panned p u <= 100 /\
                 panned p u <= Qmax 0 (panned p pos - 1)).
    { rewrite Pu.
      destruct (clamp_cases (panned p pos - _calcStep p))
        as [[H E]|[[H E]|[H E]]];
        destruct (Q.max_spec 0 (panned p pos - 1)) as [[M EM]|[M EM]];
        repeat split; lra. }
    destruct Ru as [Ru Gu]. destruct (IH u Ru) as [Hi Lo].
    split; [|exact Lo].
    destruct (Q.max_spec 0 (panned p pos - inject_Z (Z.of_nat (S n))))
      as [[M EM]|[M EM]];
      destruct (Q.max_spec 0 (panned p u - inject_Z (Z.of_nat n)))
        as [[M' EM']|[M' EM']];
      destruct (Q.max_spec 0 (panned p pos - 1)) as [[M1 EM1]|[M1 EM1]];
      lra.
Qed.

(** X28.  A media item bigger than the holder reaches the edge: from any
    position whose moving coordinate is in [[0, 100]], a hundred moves
    down leave it at 100 and a hundred moves up at 0, whatever the
    resolution, because a step is never less than 1.  In a holder that
    has a width and no height it is [y] that reaches the edge. *)
Theorem moves_reach_the_edge (p : Position.Page) (pos : Q * Q) :
  0 < Position.width p -> 0 < Position.height p ->
  Position._isMediaBigger p = true ->
  0 <= panned p pos <= 100 ->
  panned p (moved moveMediaDown 100 p pos) == 100 /\
  panned p (moved moveMediaUp 100 p pos) == 0 /\
  (Position.cHeight p == 0 -> 0 < Position.cWidth p ->
   snd (moved moveMediaDown 100 p pos) == 100 /\
   snd (moved moveMediaUp 100 p pos) == 0).
Proof.
  intros Hw Hh B R. destruct (_calcStep_bounds p Hw Hh) as [L _].
  destruct (moved_down_progress 100 p pos B L R) as [Lo Hi].
  destruct (moved_up_progress 100 p pos B L R) as [Hi' Lo'].
  change (inject_Z (Z.of_nat 100)) with 100 in Lo, Hi'.
  assert (G : panned p (moved moveMediaDown 100 p pos) == 100 /\
              panned p (moved moveMediaUp 100 p pos) == 0).
  { destruct (Q.min_spec 100 (panned p pos + 100)) as [[M EM]|[M EM]];
      destruct (Q.max_spec 0 (panned p pos - 100)) as [[N EN]|[N EN]];
      split; lra. }
  destruct G as [Gd Gu]. split; [exact Gd|]. split; [exact Gu|].
  intros Hc Hcw. unfold panned in Gd, Gu.
  rewrite (direction_in_flat_holder p Hh Hc Hcw) in Gd, Gu.
  split; [exact Gd|exact Gu].
Qed.

Lemma moves_reach_the_edge_witness :
  0 < Position.width flat_holder /\ 0 < Position.height flat_holder /\
  Position._isMediaBigger flat_holder = true /\
  0 <= panned flat_holder (30, 50) <= 100 /\
  snd (moved moveMediaDown 100 flat_holder (30, 50)) == 100 /\
  snd (moved moveMediaUp 100 flat_holder (30, 50)) == 0.
Proof.
  assert (Hw : 0 < Position.width flat_holder) by reflexivity.
  assert (Hh : 0 < Position.height flat_holder) by reflexivity.
  assert (R : 0 <= panned flat_holder (30, 50) <= 100)
    by (split; vm_compute; discriminate).
  split; [exact Hw|]. split; [exact Hh|]. split; [reflexivity|].
  split; [exact R|].
  exact (proj2 (proj2 (moves_reach_the_edge flat_holder (30, 50)
                         Hw Hh eq_refl R))
           (Qeq_refl 0) eq_refl).
Defined.

Local Close Scope Q_scope.

(** ** The links of the lists *)

Local Open Scope string_scope.

Lemma endsWith_append_false (c : ascii) (r s : string) :
  JS.endsWith s (String c EmptyString) = false ->
  (s = EmptyString -> JS.endsWith r (String c EmptyString) = false) ->
  JS.endsWith (r ++ s) (String c EmptyString) = false.
Proof.
  intros Es Er. destruct s as [|a s].
  - rewrite string_append_nil. now apply Er.
  - rewrite endsWith_char_append; [exact Es|discriminate].
Qed.

Lemma html_raw_fourth (s0 s1 s2 s3 s5 v0 v1 v2 v3 v4 : string) :
  JS.endsWith s0 "$" = false ->
  s1 <> "" -> JS.endsWith s1 "$" = false ->
  s2 <> "" -> JS.endsWith s2 "$" = false ->
  s3 <> "" -> JS.endsWith s3 "$" = false ->
  JS.endsWith v3 "$" = false ->
  Utils.html [s0; s1; s2; s3 ++ "$"; ""; s5] [v0; v1; v2; v3; v4] =
  Some (s0 ++ Utils.escape v0 ++ s1 ++ Utils.escape v1 ++ s2
        ++ Utils.escape v2 ++ s3 ++ v3 ++ Utils.escape v4 ++ s5).
Proof.
  intros E0 N1 E1 N2 E2 N3 E3 Ev.
  cbn [Utils.html Utils.html_loop tl]. rewrite E0.
  assert (R1 : JS.endsWith (s0 ++ Utils.escape v0 ++ s1) "$" = false).
  { rewrite <- string_append_assoc.
    apply endsWith_append_false; [exact E1|]. intros ->. now contradiction N1. }
  rewrite R1.
  assert (R2 : JS.endsWith
                 ((s0 ++ Utils.escape v0 ++ s1) ++ Utils.escape v1 ++ s2) "$"
               = false).
  { rewrite <- (string_append_assoc _ (Utils.escape v1) s2).
    apply endsWith_append_false; [exact E2|]. intros ->. now contradiction N2. }
  rewrite R2.
  set (r2 := (s0 ++ Utils.escape v0 ++ s1) ++ Utils.escape v1 ++ s2).
  assert (A3 : r2 ++ Utils.escape v2 ++ s3 ++ "$"
               = (r2 ++ Utils.escape v2 ++ s3) ++ "$")
    by now rewrite !string_append_assoc.
  rewrite A3.
  assert (R3 : JS.endsWith ((r2 ++ Utils.escape v2 ++ s3) ++ "$") "$" = true)
    by (apply endsWith_char; now eexists).
  rewrite R3, slice_last_append.
  assert (R4 : JS.endsWith ((r2 ++ Utils.escape v2 ++ s3) ++ v3 ++ "") "$"
               = false).
  { rewrite string_append_nil.
    apply endsWith_append_false; [exact Ev|]. intros _.
    rewrite <- string_append_assoc.
    apply endsWith_append_false; [exact E3|]. intros ->. now contradiction N3. }
  rewrite R4. unfold r2.
  now rewrite string_append_nil, !string_append_assoc.
Qed.

Lemma dq_not_dollar (s : string) : JS.endsWith (s ++ dq) "$" = false.
Proof.
  destruct (JS.endsWith (s ++ dq) "$") eqn:E; [|reflexivity].
  apply endsWith_char in E as (u & E).
  assert (L : forall (a b : ascii) (x y : string),
            x ++ String a "" = y ++ String b "" -> a = b).
  { intros a b x. induction x as [|c x IH]; intros [|d y] H; cbn in H.
    - congruence.
    - injection H as _ H. now destruct y.
    - injection H as _ H. now destruct x.
    - injection H as _ H. now apply (IH y). }
  apply L in E. discriminate.
Qed.

(** X29.  The link that [_render] appends for a file or a folder has the
    path and the name escaped, in the address, the data attribute and
    the text: only the icon, which follows the [$] of the template, is
    put in as it is.  This holds for every icon that does not itself
    end in [$]. *)
Theorem links_escape_path_and_name (icon : string) (current : option string)
    (file : AppFile) (previous : option string) (folder : AppFolder) :
  JS.endsWith icon "$" = false ->
  file_link icon current file =
    Some (link_text "file" (file_path file)
            (if path_is current file then "active" else "")
            (if file_symlink file then icon else "")
            (file_name file)) /\
  folder_link icon previous folder =
    Some (link_text "folder" (folder_path folder)
            (if is_previous previous folder then "previous" else "")
            (if folder_symlink folder then icon else "")
            (folder_name folder)).
Proof.
  intros Ei.
  assert (G : forall attribute path cls v3 name,
            Utils.escape cls = cls ->
            JS.endsWith v3 "$" = false ->
            Utils.html (link_strings attribute) [path; cls; path; v3; name]
            = Some (link_text attribute path cls v3 name)).
  { intros attribute path cls v3 name Ec Ev. unfold link_strings, link_text.
    change (dq ++ ">$") with ((dq ++ ">") ++ "$").
    rewrite html_raw_fourth; try assumption; try discriminate;
      try reflexivity.
    - rewrite Ec. now rewrite !string_append_assoc.
    - rewrite <- !string_append_assoc. apply dq_not_dollar. }
  split.
  - unfold file_link. apply G.
    + now destruct (path_is current file).
    + now destruct (file_symlink file).
  - unfold folder_link. apply G.
    + now destruct (is_previous previous folder).
    + now destruct (folder_symlink folder).
Qed.

Lemma links_escape_path_and_name_witness :
  JS.endsWith "<svg></svg>" "$" = false /\
  file_link "<svg></svg>" (Some "/pics/a.png")
    (mkFile "<b>.png" "/pics/<b>.png" true 0) =
  Some (link_text "file" "/pics/<b>.png" "" "<svg></svg>" "<b>.png").
Proof.
  split; [reflexivity|].
  exact (proj1 (links_escape_path_and_name "<svg></svg>" (Some "/pics/a.png")
                  (mkFile "<b>.png" "/pics/<b>.png" true 0)
                  None (mkFolder ".." "/" false) eq_refl)).
Defined.

Local Close Scope string_scope.
